(** * EncodingConverter: a shallow embedding of [src/EncodingConverter.h]

    The class detects the encoding of text files (uchardet), filters them by
    file name and by detected encoding (std::regex) and rewrites them in a
    target encoding (ICU).  Its methods are embedded as programs over a small
    set of atomic actions (logging, file-system calls, std::async and
    future::get); a sequential interpreter and an interleaving semantics give
    them meaning. *)

From Stdlib Require Import Ascii String ZArith Lia Bool List Permutation.
From stdpp Require Import base option list gmap strings fin_maps.

Open Scope string_scope.
Open Scope list_scope.

(** ** Strings and bytes *)

(** [::tolower] in the C locale: only 'A'..'Z' change. *)
Definition tolower (c : ascii) : ascii :=
  let n := N_of_ascii c in
  if ((65 <=? n) && (n <=? 90))%N then ascii_of_N (n + 32) else c.

(** [std::transform(s.begin(), s.end(), s.begin(), f)] *)
Fixpoint transform (f : ascii -> ascii) (s : string) : string :=
  match s with
  | EmptyString => EmptyString
  | String c s' => String (f c) (transform f s')
  end.

Definition empty (s : string) : bool :=
  match s with EmptyString => true | String _ _ => false end.

(** ** Paths *)

Fixpoint has_separator (p : string) : bool :=
  match p with
  | EmptyString => false
  | String c rest => if Ascii.eqb c "/" then true else has_separator rest
  end.

(** [fs::path::filename()]: what follows the last separator. *)
Fixpoint filename (p : string) : string :=
  match p with
  | EmptyString => EmptyString
  | String c rest => if has_separator p then filename rest else p
  end.

(** ** Exceptions and results *)

Inductive LogLevel := INFO | WARN | ERROR.

(** The exceptions that can travel through the class, all derived from
    [std::exception]: the [std::runtime_error] the class throws itself, and
    those of the libraries ([std::filesystem::filesystem_error],
    [std::ios_base::failure], [std::length_error]). *)
Inductive exn :=
| runtime_error (what : string)
| filesystem_error (what : string)
| ios_failure (what : string)
| length_error (what : string).

(** [e.what()] *)
Definition e_what (e : exn) : string :=
  match e with
  | runtime_error w | filesystem_error w | ios_failure w | length_error w => w
  end.

Inductive result (A : Type) :=
| Returned (a : A)
| Raised (e : exn).
Arguments Returned {A} a.
Arguments Raised {A} e.

(** ** The environment: name space, file contents, log sink, record of
    opened files *)

(** What a path names.  Two paths may name one file (hard links, symbolic
    links, two spellings of one path): they are then [Regular] with the same
    [file].  [StatusError] is a path whose status cannot be read (a
    directory on the way cannot be searched, a loop of links);
    [Other] is any node that is neither a regular file nor a directory, with
    what opening it and reading it come to. *)
Inductive file_status :=
| NotFound
| StatusError (what : string)
| Regular (file : string) (readable writable : bool)
| Dir (readable : bool)
| Other (opens : bool) (reading : result string) (writable : bool).

(** What was done to a file: an attempt to open it, a read, a write. *)
Inductive fs_op :=
| OpenedForReading (p : string)
| ReadFrom (p : string)
| OpenedForWriting (p : string)
| WrittenTo (p : string).

Definition op_path (o : fs_op) : string :=
  match o with
  | OpenedForReading p | ReadFrom p | OpenedForWriting p | WrittenTo p => p
  end.

(** The contents of the regular files (a file without entry is empty), the
    lines logged and the file operations made, in their order. *)
Record state := mkState {
  files : gmap string string;
  log : list (LogLevel * string);
  ops : list fs_op
}.

Definition content (s : state) (file : string) : string :=
  default EmptyString (files s !! file).

Definition is_regular (st : file_status) : bool :=
  match st with Regular _ _ _ => true | _ => false end.

Definition is_dir (st : file_status) : bool :=
  match st with Dir _ => true | _ => false end.

(** ** Atomic actions and programs *)

Inductive action : Type -> Type :=
| LogMessage (level : LogLevel) (message : string) : action unit
| IfstreamOpen (p : string) : action bool
| ReadAll (p : string) : action (result string)
| OfstreamOpenTrunc (p : string) : action bool
| WriteClose (p : string) (data : string) : action unit.

(** A program returns a value, throws an exception, performs an action,
    launches a task ([std::async] with [std::launch::async]) or waits for
    one ([future::get], which hands back the exception the task ended with,
    if any). *)
Inductive prog (A : Type) : Type :=
| Ret (a : A)
| Throw (e : exn)
| Do {X : Type} (a : action X) (k : X -> prog A)
| Async (task : prog unit) (k : nat -> prog A)
| FutureGet (fut : nat) (k : option exn -> prog A).

Arguments Ret {A} a.
Arguments Throw {A} e.
Arguments Do {A X} a k.
Arguments Async {A} task k.
Arguments FutureGet {A} fut k.

Fixpoint bind {A B : Type} (m : prog A) (f : A -> prog B) : prog B :=
  match m with
  | Ret a => f a
  | Throw e => Throw e
  | Do a k => Do a (fun x => bind (k x) f)
  | Async t k => Async t (fun i => bind (k i) f)
  | FutureGet i k => FutureGet i (fun r => bind (k r) f)
  end.

(** [try { m } catch (const std::exception& e) { h(e) }] *)
Fixpoint try_catch {A : Type} (m : prog A) (h : exn -> prog A) : prog A :=
  match m with
  | Ret a => Ret a
  | Throw e => h e
  | Do a k => Do a (fun x => try_catch (k x) h)
  | Async t k => Async t (fun i => try_catch (k i) h)
  | FutureGet i k => FutureGet i (fun r => try_catch (k r) h)
  end.

Definition perform {X : Type} (a : action X) : prog X := Do a Ret.

Notation "'let*' x := m 'in' f" := (bind m (fun x => f))
  (at level 10, x name, m at level 100, f at level 200).
Notation "m ;; f" := (bind m (fun _ => f))
  (at level 100, f at level 200, right associativity).

(** The default [logMessage] writes one line to [std::cerr]. *)
Definition logMessage (level : LogLevel) (message : string) : prog unit :=
  perform (LogMessage level message).

(** Reading a stream to its end, as
    [std::vector<char> buffer(std::istreambuf_iterator<char>(file), {})]
    does; the stream buffer throws when the read fails. *)
Definition read_all (p : string) : prog string :=
  let* r := perform (ReadAll p) in
  match r with
  | Returned data => Ret data
  | Raised e => Throw e
  end.

(** ** The methods of [EncodingConverter] *)

Definition mapEncodingName (encoding : string) : prog string :=
  if empty encoding then Ret encoding else
  let lowerEncoding := transform tolower encoding in
  if String.eqb lowerEncoding "windows-1252" || String.eqb lowerEncoding "windows1252"
  then Ret "windows-1252" else
  if String.eqb lowerEncoding "iso-8859-1" || String.eqb lowerEncoding "iso8859-1"
  then Ret "ISO-8859-1" else
  if String.eqb lowerEncoding "utf-8" || String.eqb lowerEncoding "utf8"
  then Ret "UTF-8" else
  if String.eqb lowerEncoding "gbk" then Ret "GBK" else
  if String.eqb lowerEncoding "gb18030" then Ret "GB18030" else
  if String.eqb lowerEncoding "ascii" then Ret "ASCII" else
  if String.eqb lowerEncoding "big5" then Ret "Big5" else
  if String.eqb lowerEncoding "utf-16le" || String.eqb lowerEncoding "utf16le"
  then Ret "UTF-16LE" else
  if String.eqb lowerEncoding "utf-16be" || String.eqb lowerEncoding "utf16be"
  then Ret "UTF-16BE" else
  logMessage WARN ("Unknown encoding name encountered: " +:+ encoding) ;;
  Ret encoding.

(** What the three uchardet calls of [detectEncoding] can come to:
    [uchardet_new] returns null, [uchardet_handle_data] returns non-zero, or
    [uchardet_get_charset] returns a name (possibly a null pointer). *)
Inductive uchardet_outcome :=
| NewFailed
| HandleDataFailed
| Charset (name : option string).

(** What [ucnv_convert] leaves: the converted bytes, or a failing
    [UErrorCode] (given by its [u_errorName]). *)
Inductive ucnv_outcome :=
| Converted (output : string)
| Failure (errorName : string).

(** The constructor of [std::regex]: a compiled expression, or a
    [std::regex_error] (given by its [what()]). *)
Inductive regex_outcome (regex : Type) :=
| Compiled (re : regex)
| RegexError (what : string).
Arguments Compiled {regex} re.
Arguments RegexError {regex} what.

(** [static_cast<int32_t>] and 32-bit signed arithmetic. *)
Definition int32 (z : Z) : Z := ((z + 2 ^ 31) mod 2 ^ 32 - 2 ^ 31)%Z.

Fixpoint for_each {E : Type} (l : list E) (body : E -> prog unit) : prog unit :=
  match l with
  | [] => Ret tt
  | e :: l' => body e ;; for_each l' body
  end.

(** A range-for whose body updates a local of type [S]. *)
Fixpoint for_each_with {E S : Type} (l : list E) (body : E -> S -> prog S) (s : S)
  : prog S :=
  match l with
  | [] => Ret s
  | e :: l' => let* s' := body e s in for_each_with l' body s'
  end.

Definition future_get (fut : nat) : prog unit :=
  FutureGet fut (fun r => match r with Some e => Throw e | None => Ret tt end).

(** The libraries the class is linked with.  uchardet and ICU are taken as
    functions of their inputs; [std::regex] is an engine that compiles a
    pattern under [ECMAScript | icase] and decides [std::regex_match]. *)
Class Libraries := {
  uchardet : string -> uchardet_outcome;
  ucnv_convert : string -> string -> Z -> string -> ucnv_outcome;
  regex : Type;
  regex_icase : string -> regex_outcome regex;
  regex_match : string -> regex -> bool
}.

(** The tree the class works on, as [std::filesystem] and the file streams
    show it.  The class creates, removes and renames nothing and changes no
    permission, so what the paths name stays the same during a call; only
    the contents of regular files change.
    [walk root] is what the loop over [fs::recursive_directory_iterator(root)]
    gets: the entries in the order they come, each with the answer of
    [entry.is_regular_file()], up to the end of the tree or up to the
    [filesystem_error] that the iterator or that query throws (a directory
    that cannot be entered, a loop of links); the order and the spelling of
    the paths are the library's.
    [read_directory_what] is the message of the [std::ios_base::failure]
    thrown when a stream opened on a directory is read. *)
Class Tree := {
  status : string -> file_status;
  walk : string -> list (string * bool) * option string;
  read_directory_what : string
}.

(** ** Meaning of the actions *)

(** Whether [std::ifstream] can open what the path names: a directory can be
    opened like a file (reading it is what fails). *)
Definition opens_for_reading (st : file_status) : bool :=
  match st with
  | Regular _ readable _ => readable
  | Dir readable => readable
  | Other opens _ _ => opens
  | NotFound | StatusError _ => false
  end.

Section Semantics.

Context `{T : Tree}.

  (** One action on the environment.  A read gives the whole content of the
      file at once.  Opening for writing truncates the regular file that the
      path names, if it may be written; it creates nothing, the class only
      opening for writing a path that it has just opened and read. *)
Definition act {X : Type} (a : action X) (s : state) : X * state :=
    match a in action X return X * state with
    | LogMessage level message =>
        (tt, mkState (files s) (log s ++ [(level, message)]) (ops s))
    | IfstreamOpen p =>
        (opens_for_reading (status p),
         mkState (files s) (log s) (ops s ++ [OpenedForReading p]))
    | ReadAll p =>
        (match status p with
         | Regular file true _ => Returned (content s file)
         | Dir true => Raised (ios_failure read_directory_what)
         | Other true reading _ => reading
         | _ => Returned EmptyString
         end,
         mkState (files s) (log s) (ops s ++ [ReadFrom p]))
    | OfstreamOpenTrunc p =>
        match status p with
        | Regular file _ true =>
            (true, mkState (<[file := EmptyString]> (files s))
                           (log s) (ops s ++ [OpenedForWriting p]))
        | Other _ _ w =>
            (w, mkState (files s) (log s) (ops s ++ [OpenedForWriting p]))
        | _ => (false, mkState (files s) (log s) (ops s ++ [OpenedForWriting p]))
        end
    | WriteClose p data =>
        match status p with
        | Regular file _ true =>
            (tt, mkState (<[file := data]> (files s)) (log s) (ops s ++ [WrittenTo p]))
        | _ => (tt, mkState (files s) (log s) (ops s ++ [WrittenTo p]))
        end
    end.

  (** Sequential execution.  A launched task runs to completion at the call
      of [std::async]; [pool] holds how each task launched so far ended. *)
Fixpoint run {A : Type} (m : prog A) (s : state) (pool : list (result unit))
    : result A * state * list (result unit) :=
    match m with
    | Ret a => (Returned a, s, pool)
    | Throw e => (Raised e, s, pool)
    | Do a k => let '(x, s') := act a s in run (k x) s' pool
    | Async t k =>
        let '(r, s', _) := run t s [] in
        run (k (length pool)) s' (pool ++ [r])
    | FutureGet i k =>
        match pool !! i with
        | Some (Raised e) => run (k (Some e)) s pool
        | _ => run (k None) s pool
        end
    end.

Definition exec {A : Type} (m : prog A) (s : state) : result A * state :=
    (run m s []).1.

Definition outcome {A : Type} (m : prog A) (s : state) : result A := (exec m s).1.
Definition final {A : Type} (m : prog A) (s : state) : state := (exec m s).2.

End Semantics.

Section Converter.

Context `{L : Libraries} `{T : Tree}.

  (** [fs::is_directory(p)] and [fs::is_regular_file(p)]: they throw when the
      status of the path cannot be read, and answer [false] for a path that
      names nothing. *)
Definition is_directory (p : string) : prog bool :=
    match status p with
    | StatusError what => Throw (filesystem_error what)
    | st => Ret (is_dir st)
    end.

Definition is_regular_file (p : string) : prog bool :=
    match status p with
    | StatusError what => Throw (filesystem_error what)
    | st => Ret (is_regular st)
    end.

  (** [for (const auto& entry : fs::recursive_directory_iterator(root)) body]:
      the body runs on the entries the walk yields, and the loop ends with
      the walk, normally or with its exception. *)
Definition walk_end {A : Type} (root : string) (a : A) : prog A :=
    match (walk root).2 with
    | Some what => Throw (filesystem_error what)
    | None => Ret a
    end.

Definition for_each_entry (root : string) (body : string * bool -> prog unit) : prog unit :=
    for_each (walk root).1 body ;; walk_end root tt.

  (** The same for a body that updates a local of type [S]. *)
Definition for_each_entry_with {S : Type} (root : string)
      (body : string * bool -> S -> prog S) (s : S) : prog S :=
    let* s' := for_each_with (walk root).1 body s in walk_end root s'.

Definition detectEncoding (data encodingFilter : string) : prog string :=
    match uchardet data with
    | NewFailed =>
        logMessage ERROR "Failed to initialize uchardet." ;;
        Throw (runtime_error "Failed to initialize uchardet.")
    | HandleDataFailed =>
        logMessage ERROR "Failed to handle data with uchardet." ;;
        Throw (runtime_error "Failed to handle data with uchardet.")
    | Charset detectedCharset =>
        let result := match detectedCharset with Some c => c | None => "UNKNOWN" end in
        if negb (empty encodingFilter) && negb (String.eqb result "UNKNOWN") then
          match regex_icase ("^(" +:+ encodingFilter +:+ ")$") with
          | Compiled re =>
              if negb (regex_match result re) then
                logMessage WARN ("Detected encoding '" +:+ result
                                 +:+ "' does not match filter: '" +:+ encodingFilter +:+ "'.") ;;
                Ret "MISMATCH"
              else Ret result
          | RegexError what =>
              logMessage ERROR ("Invalid regex filter: " +:+ encodingFilter
                                +:+ " | Error: " +:+ what) ;;
              Throw (runtime_error ("Invalid regex filter: " +:+ encodingFilter))
          end
        else Ret result
    end.

Definition convertEncoding (input fromEncoding toEncoding : string) : prog string :=
    let targetCapacity := int32 (int32 (Z.of_nat (String.length input)) * 4 + 1) in
    if (targetCapacity <? 0)%Z then
      Throw (length_error "cannot create std::vector larger than max_size()")
    else
      match ucnv_convert toEncoding fromEncoding targetCapacity input with
      | Failure errorName =>
          logMessage ERROR ("ICU conversion failed: " +:+ errorName) ;;
          Throw (runtime_error ("ICU conversion failed: " +:+ errorName))
      | Converted output => Ret output
      end.

Definition convertFile (filePath toEncoding sourceEncodingFilter : string) : prog unit :=
    let* is_open := perform (IfstreamOpen filePath) in
    if negb is_open then
      logMessage ERROR ("Failed to open file: " +:+ filePath) ;;
      Throw (runtime_error ("Failed to open file: " +:+ filePath))
    else
    let* fileContent := read_all filePath in
    let* detectedEncoding := detectEncoding fileContent sourceEncodingFilter in
    if String.eqb detectedEncoding "UNKNOWN" || String.eqb detectedEncoding "MISMATCH" then
      logMessage WARN ("Skipping file due to encoding issues: " +:+ filePath)
    else
    let* mappedDetectedEncoding := mapEncodingName detectedEncoding in
    if empty mappedDetectedEncoding then
      logMessage WARN ("Unsupported detected encoding '" +:+ detectedEncoding
                       +:+ "' for file: " +:+ filePath)
    else
    let* convertedContent :=
      try_catch (convertEncoding fileContent mappedDetectedEncoding toEncoding)
        (fun e =>
           logMessage ERROR ("Conversion failed for file: " +:+ filePath
                             +:+ " | Error: " +:+ e_what e) ;;
           Throw e) in
    let* is_open := perform (OfstreamOpenTrunc filePath) in
    if negb is_open then
      logMessage ERROR ("Failed to open file for writing: " +:+ filePath) ;;
      Throw (runtime_error ("Failed to open file for writing: " +:+ filePath))
    else
    perform (WriteClose filePath convertedContent) ;;
    logMessage INFO (filePath +:+ " | " +:+ mappedDetectedEncoding +:+ " -> " +:+ toEncoding).

Definition shouldProcessFile (fileName filter : string) : prog bool :=
    if empty filter then Ret true else
    let regexPattern := "^.*\.(" +:+ filter +:+ ")$" in
    match regex_icase regexPattern with
    | Compiled re =>
        let isMatch := regex_match fileName re in
        if negb isMatch then
          logMessage WARN ("File MisMatch: " +:+ fileName
                           +:+ " does not match filter: " +:+ filter) ;;
          Ret false
        else Ret true
    | RegexError what =>
        logMessage ERROR ("Invalid regex filter: " +:+ filter +:+ " | Error: " +:+ what) ;;
        Throw (runtime_error ("Invalid regex filter: " +:+ filter))
    end.

  (** Whether [shouldProcessFile] lets a file name through. *)
Definition passes_filter (fileName filter : string) : bool :=
    empty filter ||
    match regex_icase ("^.*\.(" +:+ filter +:+ ")$") with
    | Compiled re => regex_match fileName re
    | RegexError _ => false
    end.

  (** The pattern built from the file filter compiles (an empty filter
      builds no pattern). *)
Definition filter_compiles (filter : string) : bool :=
    empty filter ||
    match regex_icase ("^.*\.(" +:+ filter +:+ ")$") with
    | Compiled _ => true
    | RegexError _ => false
    end.

  (** The body shared by the lambda handed to [std::async] and by the
      sequential loop: [convertFile] inside its [try]/[catch]. *)
Definition guardedConvertFile (filePath mappedToEncoding sourceEncodingFilter : string)
    : prog unit :=
    try_catch (convertFile filePath mappedToEncoding sourceEncodingFilter)
      (fun e => logMessage ERROR ("Error converting " +:+ filePath +:+ ": " +:+ e_what e)).

Definition checkTarget (toEncoding : string) : prog string :=
    let* mappedToEncoding := mapEncodingName toEncoding in
    (if empty mappedToEncoding then
       logMessage ERROR ("Unsupported target encoding: " +:+ toEncoding) ;;
       Throw (runtime_error ("Unsupported target encoding: " +:+ toEncoding))
     else
       logMessage INFO ("Target Encoding Mapped: " +:+ mappedToEncoding)) ;;
    Ret mappedToEncoding.

Definition convertSingleFile (path mappedToEncoding sourceEncodingFilter fileFilter : string)
    : prog unit :=
    let fileName := filename path in
    let* ok := shouldProcessFile fileName fileFilter in
    if ok then
      logMessage INFO ("Processing single file: " +:+ path) ;;
      guardedConvertFile path mappedToEncoding sourceEncodingFilter
    else
      logMessage WARN ("File does not match filter and will be skipped: " +:+ path).

  (** The body of the loop over the directory in [convert]: a regular file
      that passes the filter gets a task, whose future is kept. *)
Definition launchEntry (mappedToEncoding sourceEncodingFilter fileFilter : string)
      (entry : string * bool) (futures : list nat) : prog (list nat) :=
    if entry.2 then
      let fileName := filename entry.1 in
      let* ok := shouldProcessFile fileName fileFilter in
      if ok then
        Async (guardedConvertFile entry.1 mappedToEncoding sourceEncodingFilter)
              (fun fut => Ret (futures ++ [fut]))
      else Ret futures
    else
      logMessage WARN ("Skipping non-regular file: " +:+ entry.1) ;;
      Ret futures.

  (** The last loop of [convert]: wait for every task. *)
Definition joinAll (futures : list nat) : prog unit :=
    for_each futures
      (fun future =>
         try_catch (future_get future)
           (fun e => logMessage ERROR ("Asynchronous task failed: " +:+ e_what e))).

Definition convert (path toEncoding sourceEncodingFilter fileFilter : string) : prog unit :=
    let* mappedToEncoding := checkTarget toEncoding in
    let* is_directory := is_directory path in
    let* futures :=
      if is_directory then
        logMessage INFO ("Processing directory: " +:+ path) ;;
        for_each_entry_with path
          (launchEntry mappedToEncoding sourceEncodingFilter fileFilter) []
      else
        let* is_regular_file := is_regular_file path in
        if is_regular_file then
          convertSingleFile path mappedToEncoding sourceEncodingFilter fileFilter ;;
          Ret []
        else
          logMessage ERROR ("Invalid path: " +:+ path) ;;
          Throw (runtime_error ("Invalid path: " +:+ path))
    in
    joinAll futures.

  (** The body of the loop over the directory in [convert_single]. *)
Definition convertEntry (mappedToEncoding sourceEncodingFilter fileFilter : string)
      (entry : string * bool) : prog unit :=
    if entry.2 then
      let fileName := filename entry.1 in
      let* ok := shouldProcessFile fileName fileFilter in
      if ok then guardedConvertFile entry.1 mappedToEncoding sourceEncodingFilter
      else Ret tt
    else
      logMessage WARN ("Skipping non-regular file: " +:+ entry.1).

Definition convert_single (path toEncoding sourceEncodingFilter fileFilter : string)
    : prog unit :=
    let* mappedToEncoding := checkTarget toEncoding in
    let* is_directory := is_directory path in
    if is_directory then
      logMessage INFO ("Processing directory: " +:+ path) ;;
      for_each_entry path (convertEntry mappedToEncoding sourceEncodingFilter fileFilter)
    else
      let* is_regular_file := is_regular_file path in
      if is_regular_file then
        convertSingleFile path mappedToEncoding sourceEncodingFilter fileFilter
      else
        logMessage ERROR ("Invalid path: " +:+ path) ;;
        Throw (runtime_error ("Invalid path: " +:+ path)).

End Converter.

(** ** The alias table, as the specification words it *)

Definition alias_table : list (string * string) :=
  [ ("utf8", "UTF-8"); ("utf-8", "UTF-8");
    ("gbk", "GBK");
    ("gb18030", "GB18030");
    ("big5", "Big5");
    ("ascii", "ASCII");
    ("windows-1252", "windows-1252"); ("windows1252", "windows-1252");
    ("iso-8859-1", "ISO-8859-1"); ("iso8859-1", "ISO-8859-1");
    ("utf-16le", "UTF-16LE"); ("utf16le", "UTF-16LE");
    ("utf-16be", "UTF-16BE"); ("utf16be", "UTF-16BE") ].

Fixpoint lookup_alias (name : string) (table : list (string * string)) : option string :=
  match table with
  | [] => None
  | (alias, canonical) :: table' =>
      if String.eqb name alias then Some canonical else lookup_alias name table'
  end.

(** Specification of the normalizer: case-insensitive table lookup, empty
    for empty, anything else unchanged. *)
Definition normalize (raw : string) : string :=
  if empty raw then EmptyString else
  match lookup_alias (transform tolower raw) alias_table with
  | Some canonical => canonical
  | None => raw
  end.

Definition add_log (entry : LogLevel * string) (s : state) : state :=
  mkState (files s) (log s ++ [entry]) (ops s).

(** The state [mapEncodingName] leaves: one warning for a name that is
    neither empty nor in the table. *)
Definition after_mapEncodingName (raw : string) (s : state) : state :=
  if empty raw then s else
  match lookup_alias (transform tolower raw) alias_table with
  | Some _ => s
  | None => add_log (WARN, "Unknown encoding name encountered: " +:+ raw) s
  end.

(** ** Interleaving semantics

    A configuration holds the calling thread, the tasks launched so far (the
    index of a task is its future) and the shared environment.  One step
    lets one thread perform its next action; [future::get] can only step
    once the task has ended. *)

Record config := mkConfig {
  main_thread : prog unit;
  tasks : list (prog unit);
  shared : state
}.

Definition ended (t : prog unit) : option (result unit) :=
  match t with
  | Ret _ => Some (Returned tt)
  | Throw e => Some (Raised e)
  | _ => None
  end.

Section Interleaving.

Context `{T : Tree}.

Definition step_thread (t : prog unit) (ts : list (prog unit)) (s : state)
  : option (prog unit * list (prog unit) * state) :=
  match t with
  | Ret _ | Throw _ => None
  | Do a k => let '(x, s') := act a s in Some (k x, ts, s')
  | Async task k => Some (k (length ts), ts ++ [task], s)
  | FutureGet i k =>
      match ts !! i with
      | Some t' =>
          match ended t' with
          | Some (Returned _) => Some (k None, ts, s)
          | Some (Raised e) => Some (k (Some e), ts, s)
          | None => None
          end
      | None => None
      end
  end.

(** Thread [0] is the caller, thread [S j] is task [j]. *)
Definition step (who : nat) (c : config) : option config :=
  match who with
  | O =>
      match step_thread (main_thread c) (tasks c) (shared c) with
      | Some (t', ts', s') => Some (mkConfig t' ts' s')
      | None => None
      end
  | S j =>
      match tasks c !! j with
      | Some t =>
          match step_thread t (tasks c) (shared c) with
          | Some (t', ts', s') => Some (mkConfig (main_thread c) (<[j := t']> ts') s')
          | None => None
          end
      | None => None
      end
  end.

Fixpoint interleave (schedule : list nat) (c : config) : option config :=
  match schedule with
  | [] => Some c
  | who :: rest =>
      match step who c with
      | Some c' => interleave rest c'
      | None => None
      end
  end.

End Interleaving.

Definition is_ended (t : prog unit) : bool :=
  match ended t with Some _ => true | None => false end.

(** The call has returned (or thrown) and every launched task is over: the
    futures' destructors have all been able to join. *)
Definition terminated (c : config) : bool :=
  is_ended (main_thread c) && forallb is_ended (tasks c).

Definition start (m : prog unit) (s : state) : config := mkConfig m [] s.

(** A run starts with an empty log and no file opened yet. *)
Definition fresh (fs : gmap string string) : state := mkState fs [] [].

(** Two environments with the same files, and the same log lines and opened
    files up to their order. *)
Definition same_content (s s' : state) : Prop :=
  files s = files s' /\ Permutation (log s) (log s') /\ Permutation (ops s) (ops s').

(** *** Disciplines of programs, used to reason on interleavings *)

(** The path an action works on, if any. *)
Definition touched {X : Type} (a : action X) : option string :=
  match a with
  | IfstreamOpen q | ReadAll q | OfstreamOpenTrunc q | WriteClose q _ => Some q
  | LogMessage _ _ => None
  end.

(** The values a program may return. *)
Fixpoint may_return {A : Type} (m : prog A) (v : A) : Prop :=
  match m with
  | Ret a => a = v
  | Throw _ => False
  | Do a k => exists x, may_return (k x) v
  | Async _ k => exists i, may_return (k i) v
  | FutureGet _ k => exists r, may_return (k r) v
  end.

(** Whatever the answers it gets, the program, and the tasks it launches,
    work on paths in [P] only. *)
Fixpoint within {A : Type} (P : string -> Prop) (m : prog A) : Prop :=
  match m with
  | Ret _ | Throw _ => True
  | Do a k => (forall q, touched a = Some q -> P q) /\ forall x, within P (k x)
  | Async t k => within P t /\ forall i, within P (k i)
  | FutureGet _ k => forall r, within P (k r)
  end.

(** The action works on no path but [p]. *)
Definition action_on {X : Type} (p : string) (a : action X) : Prop :=
  match a with
  | LogMessage _ _ => True
  | IfstreamOpen q | ReadAll q | OfstreamOpenTrunc q | WriteClose q _ => q = p
  end.

(** The program works on no path but [p] and uses no thread. *)
Fixpoint confined {A : Type} (p : string) (t : prog A) : Prop :=
  match t with
  | Ret _ | Throw _ => True
  | Do a k => action_on p a /\ forall x, confined p (k x)
  | Async _ _ | FutureGet _ _ => False
  end.

(** The program uses no thread and never ends with an exception. *)
Fixpoint never_throws {A : Type} (t : prog A) : Prop :=
  match t with
  | Ret _ => True
  | Throw _ => False
  | Do a k => forall x, never_throws (k x)
  | Async _ _ | FutureGet _ _ => False
  end.

Definition logging_only {X : Type} (a : action X) : Prop :=
  match a with LogMessage _ _ => True | _ => False end.

(** The action neither truncates nor writes a file. *)
Definition writes_nothing {X : Type} (a : action X) : Prop :=
  match a with
  | OfstreamOpenTrunc _ | WriteClose _ _ => False
  | _ => True
  end.

(** Whatever the answers it gets, the program, and the tasks it launches,
    never open a file for writing. *)
Fixpoint read_only {A : Type} (m : prog A) : Prop :=
  match m with
  | Ret _ | Throw _ => True
  | Do a k => writes_nothing a /\ forall x, read_only (k x)
  | Async t k => read_only t /\ forall i, read_only (k i)
  | FutureGet _ k => forall r, read_only (k r)
  end.

Definition is_read (o : fs_op) : bool :=
  match o with
  | OpenedForReading _ | ReadFrom _ => true
  | OpenedForWriting _ | WrittenTo _ => false
  end.

(** Whatever the answers it gets, every action of the program and of the
    tasks it launches is in [phi]. *)
Fixpoint every {A : Type} (phi : forall X, action X -> Prop) (m : prog A) : Prop :=
  match m with
  | Ret _ | Throw _ => True
  | Do a k => phi _ a /\ forall x, every phi (k x)
  | Async t k => every phi t /\ forall i, every phi (k i)
  | FutureGet _ k => forall r, every phi (k r)
  end.

(** The program only writes to the log. *)
Fixpoint logs_only {A : Type} (m : prog A) : Prop :=
  match m with
  | Ret _ | Throw _ => True
  | Do a k => logging_only a /\ forall x, logs_only (k x)
  | Async _ _ | FutureGet _ _ => False
  end.

(** What an action logs and what it records. *)
Definition logged {X : Type} (a : action X) : list (LogLevel * string) :=
  match a with LogMessage level message => [(level, message)] | _ => [] end.

Definition recorded {X : Type} (a : action X) : list fs_op :=
  match a with
  | IfstreamOpen p => [OpenedForReading p]
  | ReadAll p => [ReadFrom p]
  | OfstreamOpenTrunc p => [OpenedForWriting p]
  | WriteClose p _ => [WrittenTo p]
  | LogMessage _ _ => []
  end.

(** Whatever the answers it gets, the program, and the tasks it launches,
    log lines in [Q] only. *)
Fixpoint logs_satisfy {A : Type} (Q : LogLevel * string -> Prop) (m : prog A) : Prop :=
  match m with
  | Ret _ | Throw _ => True
  | Do a k => Forall Q (logged a) /\ forall x, logs_satisfy Q (k x)
  | Async t k => logs_satisfy Q t /\ forall i, logs_satisfy Q (k i)
  | FutureGet _ k => forall r, logs_satisfy Q (k r)
  end.

(** The line is not the report of a failed task that the last loop of
    [convert] writes when [future::get] throws. *)
Definition not_task_failure (line : LogLevel * string) : Prop :=
  line.1 = ERROR -> String.prefix "Asynchronous task failed: " line.2 = false.

Section Disciplines.

Context `{T : Tree}.

  (** The regular file a path names, if it names one. *)
Definition file_of (p : string) : option string :=
    match status p with
    | Regular file _ _ => Some file
    | _ => None
    end.

  (** The two paths do not name the same regular file. *)
Definition independent (p q : string) : Prop :=
    forall file, file_of p = Some file -> file_of q <> Some file.

  (** No two paths of the list, taken at different places, name the same
      regular file. *)
Fixpoint separate (l : list string) : Prop :=
    match l with
    | [] => True
    | p :: l' => Forall (independent p) l' /\ separate l'
    end.

  (** The caller's discipline, [used] being the paths of the tasks launched so
      far: once a task is launched the caller only logs, launches tasks on
      files that no task launched before works on, and waits for futures it
      holds. *)
Fixpoint disciplined {A : Type} (used : list string) (m : prog A) : Prop :=
    match m with
    | Ret _ | Throw _ => True
    | Do a k => (logging_only a \/ used = []) /\ forall x, disciplined used (k x)
    | Async t k =>
        exists p, Forall (independent p) used /\ confined p t /\
                  disciplined (used ++ [p]) (k (length used))
    | FutureGet i k => i < length used /\ forall r, disciplined used (k r)
    end.

  (** The same without any condition on the files, but with the futures
      still to be waited for: [n] tasks have been launched, the caller
      returns only once it has got every future in [pending], and every task
      is a job on one path that never ends with an exception. *)
Fixpoint caller {A : Type} (n : nat) (pending : list nat) (m : prog A) : Prop :=
    match m with
    | Ret _ => pending = []
    | Throw _ => True
    | Do a k => (logging_only a \/ n = 0) /\ forall x, caller n pending (k x)
    | Async t k =>
        (exists p, confined p t) /\ never_throws t /\
        caller (S n) (pending ++ [n]) (k n)
    | FutureGet i k =>
        i < n /\
        forall r, caller n (List.filter (fun j => negb (Nat.eqb j i)) pending) (k r)
    end.

  (** The caller's thread taken alone: the tasks it launches are collected,
      not run, and every future it waits for is that of a task that
      returned. *)
Fixpoint alone {A : Type} (m : prog A) (s : state) (launched : list (prog unit))
    : result A * state * list (prog unit) :=
    match m with
    | Ret a => (Returned a, s, launched)
    | Throw e => (Raised e, s, launched)
    | Do a k => let '(x, s') := act a s in alone (k x) s' launched
    | Async t k => alone (k (length launched)) s (launched ++ [t])
    | FutureGet _ k => alone (k None) s launched
    end.

  (** What holds of every configuration that an interleaving of such a
      caller reaches: the tasks are jobs, and those whose future the caller
      has already got, or will not wait for, have ended. *)
Definition orderly (c : config) : Prop :=
    exists pending,
      caller (length (tasks c)) pending (main_thread c) /\
      Forall (fun t => (exists p, confined p t) /\ never_throws t) (tasks c) /\
      forall i t, tasks c !! i = Some t -> i ∉ pending -> is_ended t = true.

  (** What the first step of a task records. *)
Definition first_op (t : prog unit) : list fs_op :=
    match t with
    | Do a _ => recorded a
    | _ => []
    end.

  (** The task launched as [t0] is still [t0], or its first step has been
      made and recorded. *)
Definition started (s : state) (t0 t : prog unit) : Prop :=
    t = t0 \/ forall o, o ∈ first_op t0 -> o ∈ ops s.

  (** An action taken apart: its answer and what it does to the files. *)
Definition answer {X : Type} (a : action X) (fs : gmap string string) : X :=
    (act a (mkState fs [] [])).1.
Definition effect {X : Type} (a : action X) (fs : gmap string string)
    : gmap string string :=
    files (act a (mkState fs [] [])).2.

  (** *** Draining a configuration

      [drain] completes a configuration in one fixed order: the tasks one
      after the other, then the caller.  When the tasks work on files that
      differ pairwise, every step of an interleaving leaves what [drain]
      computes unchanged, up to the order of log lines and of opened
      files. *)

Fixpoint run_tasks (ts : list (prog unit)) (s : state) : list (result unit) * state :=
    match ts with
    | [] => ([], s)
    | t :: ts' =>
        let '(r, s1, _) := run t s [] in
        let '(rs, s2) := run_tasks ts' s1 in
        (r :: rs, s2)
    end.

Definition drain_with (m : prog unit) (ts : list (prog unit))
      (already : list (result unit)) (s : state)
    : result unit * state * list (result unit) :=
    let '(rs, s1) := run_tasks ts s in run m s1 (already ++ rs).

Definition drain (c : config) : result unit * state * list (result unit) :=
    drain_with (main_thread c) (tasks c) [] (shared c).

  (** What holds of every configuration an interleaving of a disciplined
      caller reaches: the tasks are confined to files that differ pairwise. *)
Definition well_formed (c : config) : Prop :=
    exists used,
      separate used /\ Forall2 (fun p t => confined p t) used (tasks c) /\
      disciplined used (main_thread c).

End Disciplines.

Definition agree {R : Type} (x y : R * state) : Prop :=
  x.1 = y.1 /\ same_content x.2 y.2.

Definition agree3 {R Q : Type} (x y : R * state * Q) : Prop :=
  x.1.1 = y.1.1 /\ same_content x.1.2 y.1.2 /\ x.2 = y.2.

(** ** A reference for [std::regex] on a fragment of ECMAScript

    The fragment has literal characters, [.], [^], [$], groups, alternation,
    the quantifiers [*], [+] and [?] on an atom, and escaped syntax
    characters.  A pattern with unbalanced parentheses is a syntax error;
    anything else outside the fragment (classes, braces, other escapes,
    stacked or dangling quantifiers, [(?...)]) is left undecided. *)
Module ECMAScript.

Inductive re :=
  | Empty
  | Chr (c : ascii)
  | AnyChar
  | LineStart
  | LineEnd
  | Cat (r1 r2 : re)
  | Alt (r1 r2 : re)
  | Star (r : re)
  | Plus (r : re)
  | Opt (r : re)
  | Group (r : re).

Inductive parse_outcome :=
  | Parsed (r : re)
  | SyntaxError
  | Undecided.

  (** A frame of the parser: the alternatives already closed and the terms
      of the alternative being read, both latest first. *)
Definition frame : Type := list re * list re.

Definition sequence (terms_rev : list re) : re :=
    fold_left (fun acc t => Cat t acc) terms_rev Empty.

Definition close_frame (f : frame) : re :=
    fold_left (fun acc a => Alt a acc) f.1 (sequence f.2).

Definition push (t : re) (f : frame) : frame := (f.1, t :: f.2).

Definition quantifiable (t : re) : bool :=
    match t with Chr _ | AnyChar | Group _ => true | _ => false end.

Definition quantify (q : re -> re) (f : frame) : option frame :=
    match f.2 with
    | t :: terms => if quantifiable t then Some (f.1, q t :: terms) else None
    | [] => None
    end.

Definition syntax_character (c : ascii) : bool :=
    existsb (Ascii.eqb c)
      ["^"; "$"; "\"; "."; "*"; "+"; "?"; "("; ")"; "["; "]"; "{"; "}"; "|"]%char.

Fixpoint parse_from (s : string) (cur : frame) (stack : list frame) : parse_outcome :=
    match s with
    | EmptyString =>
        match stack with
        | [] => Parsed (close_frame cur)
        | _ :: _ => SyntaxError
        end
    | String c rest =>
        if Ascii.eqb c "(" then
          match rest with
          | String "?" _ => Undecided
          | _ => parse_from rest ([], []) (cur :: stack)
          end
        else if Ascii.eqb c ")" then
          match stack with
          | [] => SyntaxError
          | outer :: stack' => parse_from rest (push (Group (close_frame cur)) outer) stack'
          end
        else if Ascii.eqb c "|" then parse_from rest (sequence cur.2 :: cur.1, []) stack
        else if Ascii.eqb c "*" then
          match quantify Star cur with
          | Some cur' => parse_from rest cur' stack
          | None => Undecided
          end
        else if Ascii.eqb c "+" then
          match quantify Plus cur with
          | Some cur' => parse_from rest cur' stack
          | None => Undecided
          end
        else if Ascii.eqb c "?" then
          match quantify Opt cur with
          | Some cur' => parse_from rest cur' stack
          | None => Undecided
          end
        else if Ascii.eqb c "^" then parse_from rest (push LineStart cur) stack
        else if Ascii.eqb c "$" then parse_from rest (push LineEnd cur) stack
        else if Ascii.eqb c "." then parse_from rest (push AnyChar cur) stack
        else if Ascii.eqb c "\" then
          match rest with
          | String d rest' =>
              if syntax_character d then parse_from rest' (push (Chr d) cur) stack
              else Undecided
          | EmptyString => Undecided
          end
        else if syntax_character c then Undecided
        else parse_from rest (push (Chr c) cur) stack
    end.

Definition parse (pattern : string) : parse_outcome := parse_from pattern ([], []) [].

Definition line_terminator (c : ascii) : bool :=
    Ascii.eqb c "010"%char || Ascii.eqb c "013"%char.

  (** Zero or more rounds of [round]; a round that consumes nothing is
      abandoned, as the ECMAScript RepeatMatcher does. *)
Definition repeat_matcher (round : (bool -> string -> bool) -> bool -> string -> bool)
      (k : bool -> string -> bool) : nat -> bool -> string -> bool :=
    fix loop (fuel : nat) (at_start : bool) (s : string) {struct fuel} : bool :=
      k at_start s ||
      match fuel with
      | O => false
      | S fuel' =>
          round (fun at_start' s' =>
                   Nat.ltb (String.length s') (String.length s) && loop fuel' at_start' s')
                at_start s
      end.

  (** Backtracking matcher in continuation-passing style: [k] receives what
      is left of the input and whether the position is still its start.
      Characters are compared after case folding ([icase]). *)
Fixpoint matcher (r : re) (k : bool -> string -> bool) (at_start : bool) (s : string)
    {struct r} : bool :=
    match r with
    | Empty => k at_start s
    | Chr c =>
        match s with
        | String x s' => Ascii.eqb (tolower x) (tolower c) && k false s'
        | EmptyString => false
        end
    | AnyChar =>
        match s with
        | String x s' => negb (line_terminator x) && k false s'
        | EmptyString => false
        end
    | LineStart => at_start && k at_start s
    | LineEnd => empty s && k at_start s
    | Cat r1 r2 => matcher r1 (matcher r2 k) at_start s
    | Alt r1 r2 => matcher r1 k at_start s || matcher r2 k at_start s
    | Star r1 => repeat_matcher (matcher r1) k (S (String.length s)) at_start s
    | Plus r1 =>
        matcher r1 (fun at_start' s' =>
                      repeat_matcher (matcher r1) k (S (String.length s')) at_start' s')
                at_start s
    | Opt r1 => matcher r1 k at_start s || k at_start s
    | Group r1 => matcher r1 k at_start s
    end.

  (** [std::regex_match]: the whole input must be matched. *)
Definition matches (s : string) (r : re) : bool :=
    matcher r (fun _ rest => empty rest) true s.

  (** The same for a piece of input that does not begin the input. *)
Definition matches_inside (s : string) (r : re) : bool :=
    matcher r (fun _ rest => empty rest) false s.

  (** The expression of a word taken literally, and of a choice of words. *)
Fixpoint literal (w : string) : re :=
    match w with
    | EmptyString => Empty
    | String c w' => Cat (Chr c) (literal w')
    end.

Fixpoint any_of (w : string) (ws : list string) : re :=
    match ws with
    | [] => literal w
    | w' :: ws' => Alt (literal w) (any_of w' ws')
    end.

  (** The reference engine; it refuses what the fragment leaves undecided. *)
Definition compile (pattern : string) : regex_outcome re :=
    match parse pattern with
    | Parsed r => Compiled r
    | SyntaxError => RegexError "regex_error"
    | Undecided => RegexError "outside the fragment"
    end.

End ECMAScript.

(** The engine of the libraries does on the fragment what the reference
    does. *)
Definition ecmascript_engine (L : Libraries) : Prop :=
  forall pattern,
    match ECMAScript.parse pattern with
    | ECMAScript.Parsed r =>
        exists re, regex_icase pattern = Compiled re /\
                   forall s, regex_match s re = ECMAScript.matches s r
    | ECMAScript.SyntaxError => exists what, regex_icase pattern = RegexError what
    | ECMAScript.Undecided => True
    end.

Definition is_ascii (c : ascii) : bool := (N_of_ascii c <? 128)%N.

Fixpoint all_chars (f : ascii -> bool) (s : string) : bool :=
  match s with
  | EmptyString => true
  | String c s' => f c && all_chars f s'
  end.

(** A filter written as words separated by bars, such as ["txt|md"]. *)
Fixpoint alternatives (w : string) (ws : list string) : string :=
  match ws with
  | [] => w
  | w' :: ws' => w +:+ "|" +:+ alternatives w' ws'
  end.

(** A word without any character that is syntax in a pattern. *)
Definition plain (w : string) : bool :=
  all_chars (fun c => negb (ECMAScript.syntax_character c)) w.

Definition no_line_terminator (s : string) : bool :=
  all_chars (fun c => negb (ECMAScript.line_terminator c)) s.


(** The same for a caller whose tasks catch whatever they throw: every
    action of the caller and of its tasks is in [phi], where only what
    follows a future that returned counts. *)
Fixpoint every_joined {A : Type} (phi : forall X, action X -> Prop) (m : prog A) : Prop :=
  match m with
  | Ret _ | Throw _ => True
  | Do a k => phi _ a /\ forall x, every_joined phi (k x)
  | Async t k => (every phi t /\ never_throws t) /\ forall i, every_joined phi (k i)
  | FutureGet _ k => every_joined phi (k None)
  end.
(** ** Sample libraries and a sample tree, to run the methods on *)

(** A detector that knows ASCII only, and gives up on empty input. *)
Definition sample_uchardet (data : string) : uchardet_outcome :=
  if empty data then Charset None
  else if all_chars is_ascii data then Charset (Some "ASCII")
  else Charset (Some "").

Fixpoint widen (s : string) : string :=
  match s with
  | EmptyString => EmptyString
  | String c s' => String c (String "000" (widen s'))
  end.

(** A converter that knows how to turn ASCII into UTF-8, ASCII or UTF-16LE. *)
Definition sample_ucnv_convert (toEncoding fromEncoding : string) (capacity : Z)
    (input : string) : ucnv_outcome :=
  if String.eqb fromEncoding "ASCII"
     && (String.eqb toEncoding "UTF-8" || String.eqb toEncoding "ASCII")
  then Converted input
  else if String.eqb fromEncoding "ASCII" && String.eqb toEncoding "UTF-16LE"
  then Converted (widen input)
  else Failure "U_FILE_ACCESS_ERROR".

Definition sample_libraries : Libraries := {|
  uchardet := sample_uchardet;
  ucnv_convert := sample_ucnv_convert;
  regex := ECMAScript.re;
  regex_icase := ECMAScript.compile;
  regex_match := ECMAScript.matches
|}.

(** The same libraries around a detector that is out of order: it cannot be
    created for empty data and cannot take any other. *)
Definition broken_detector : Libraries := {|
  uchardet := fun data => if empty data then NewFailed else HandleDataFailed;
  ucnv_convert := sample_ucnv_convert;
  regex := ECMAScript.re;
  regex_icase := ECMAScript.compile;
  regex_match := ECMAScript.matches
|}.

Fixpoint lookup_path {A : Type} (p : string) (table : list (string * A)) : option A :=
  match table with
  | [] => None
  | (q, a) :: table' => if String.eqb p q then Some a else lookup_path p table'
  end.

(** A tree with: a directory [docs] (also spelled [docs/]) of two files and
    a socket; a directory [mixed] with a file that reads and writes, one
    that cannot be read and one that cannot be written; a directory [links]
    whose two entries are one file; a directory [vault] with a subdirectory
    that cannot be entered; a path whose status cannot be read. *)
Definition sample_nodes : list (string * file_status) :=
  [ ("docs", Dir true); ("docs/", Dir true);
    ("docs/a.txt", Regular "docs/a.txt" true true);
    ("docs/b.md", Regular "docs/b.md" true true);
    ("docs/socket", Other false (Returned EmptyString) false);
    ("mixed", Dir true);
    ("mixed/good.txt", Regular "mixed/good.txt" true true);
    ("mixed/secret.txt", Regular "mixed/secret.txt" false true);
    ("mixed/locked.txt", Regular "mixed/locked.txt" true false);
    ("links", Dir true);
    ("links/one.txt", Regular "links/one.txt" true true);
    ("links/two.txt", Regular "links/one.txt" true true);
    ("vault", Dir true);
    ("vault/first.txt", Regular "vault/first.txt" true true);
    ("vault/closed", Dir false);
    ("far/away", StatusError "filesystem error: status: Permission denied [far/away]");
    ("empty.txt", Regular "empty.txt" true true);
    ("binary.dat", Regular "binary.dat" true true) ].

Definition sample_walks : list (string * (list (string * bool) * option string)) :=
  [ ("docs", ([("docs/a.txt", true); ("docs/b.md", true); ("docs/socket", false)], None));
    ("docs/", ([("docs/a.txt", true); ("docs/b.md", true); ("docs/socket", false)], None));
    ("mixed", ([("mixed/good.txt", true); ("mixed/secret.txt", true);
                ("mixed/locked.txt", true)], None));
    ("links", ([("links/one.txt", true); ("links/two.txt", true)], None));
    ("vault", ([("vault/first.txt", true); ("vault/closed", false)],
               Some ("filesystem error: cannot increment recursive directory iterator: "
                     +:+ "Permission denied"))) ].

Definition sample_tree : Tree := {|
  status := fun p => default NotFound (lookup_path p sample_nodes);
  walk := fun root => default ([], None) (lookup_path root sample_walks);
  read_directory_what := "basic_filebuf::underflow error reading the file: Is a directory"
|}.

Definition sample_files : gmap string string :=
  <["docs/a.txt" := "hello"]>
  (<["docs/b.md" := "world"]>
  (<["mixed/good.txt" := "fine"]>
  (<["mixed/secret.txt" := "hidden"]>
  (<["mixed/locked.txt" := "hi"]>
  (<["links/one.txt" := "abc"]>
  (<["vault/first.txt" := "one"]>
  (<["binary.dat" := String "255" EmptyString]> ∅))))))).

Definition sample_convert := @convert sample_libraries sample_tree.
Definition sample_convert_single := @convert_single sample_libraries sample_tree.

(** A schedule of [sample_convert] on the directory [docs]: the caller
    launches both tasks, which then take turns, and joins them. *)
Definition sample_schedule : list nat :=
  [0; 0; 0; 0; 1; 0; 2; 1; 2; 2; 1; 1; 1; 2; 2; 0; 0].

(** A schedule of [sample_convert] on the directory [mixed], whose three
    tasks take turns: one converts its file, one cannot open its file, one
    cannot write it. *)
Definition mixed_schedule : list nat :=
  [0; 0; 0; 1; 0; 1; 0; 3; 2; 1; 3; 2; 3; 1; 2; 3; 1; 3; 0; 0; 0].

(** A schedule of [sample_convert] on the directory [links], whose two
    entries are one file: both tasks read the file before either writes
    it. *)
Definition links_schedule : list nat :=
  [0; 0; 0; 0; 1; 1; 2; 2; 1; 1; 1; 2; 2; 2; 0; 0].

(** ** Notions used to state further properties of the methods *)

(** Whether [detectEncoding] lets a detected name through the source
    filter. *)
Definition source_filter_accepts `{Libraries} (filter detected : string) : bool :=
  empty filter ||
  match regex_icase ("^(" +:+ filter +:+ ")$") with
  | Compiled re => regex_match detected re
  | RegexError _ => false
  end.

(** The environment once [convertFile] has opened and read its file. *)
Definition after_reading (p : string) (s : state) : state :=
  mkState (files s) (log s) (ops s ++ [OpenedForReading p; ReadFrom p]).

(** The capacity [convertEncoding] gives the target buffer. *)
Definition targetCapacity (input : string) : Z :=
  int32 (int32 (Z.of_nat (String.length input)) * 4 + 1).

(** The environment once [convert] and [convert_single] have mapped a
    non-empty target name. *)
Definition after_checkTarget (toEncoding : string) (s : state) : state :=
  add_log (INFO, "Target Encoding Mapped: " +:+ normalize toEncoding)
          (after_mapEncodingName toEncoding s).

(** The entries a run on directory [root] selects: those the walk yields as
    regular files and whose name passes the file filter, in the order of the
    walk. *)
Definition selected `{Libraries} (filter : string) (dir : list (string * bool))
  : list string :=
  (List.filter (fun e : string * bool => e.2 && passes_filter (filename e.1) filter) dir).*1.

Definition selected_paths `{Libraries} `{Tree} (root filter : string) : list string :=
  selected filter (walk root).1.

(** No two selected entries are one file. *)
Definition alias_free `{Libraries} `{Tree} (root filter : string) : Prop :=
  separate (selected_paths root filter).

(** The number of tasks [convert] has launched when it returns. *)
Definition launched `{Libraries} `{Tree} (path toEncoding filter : string) : nat :=
  if empty toEncoding then 0
  else if is_dir (status path) then length (selected_paths path filter)
  else 0.

(** How a run ends: it depends on the target, on the root path, on the file
    filter and on the walk, never on what the files hold. *)
Definition request_outcome `{Libraries} `{Tree} (path toEncoding filter : string)
  : result unit :=
  if empty toEncoding then
    Raised (runtime_error ("Unsupported target encoding: " +:+ toEncoding))
  else
    match status path with
    | StatusError what => Raised (filesystem_error what)
    | Dir _ =>
        if filter_compiles filter || negb (existsb snd (walk path).1) then
          match (walk path).2 with
          | Some what => Raised (filesystem_error what)
          | None => Returned tt
          end
        else Raised (runtime_error ("Invalid regex filter: " +:+ filter))
    | Regular _ _ _ =>
        if filter_compiles filter then Returned tt
        else Raised (runtime_error ("Invalid regex filter: " +:+ filter))
    | _ => Raised (runtime_error ("Invalid path: " +:+ path))
    end.

(** The environment with more lines logged. *)
Definition add_lines (lines : list (LogLevel * string)) (s : state) : state :=
  mkState (files s) (log s ++ lines) (ops s).

(** What [shouldProcessFile] logs for a file name. *)
Definition filter_lines `{Libraries} (filter fileName : string) : list (LogLevel * string) :=
  if empty filter then [] else
  match regex_icase ("^.*\.(" +:+ filter +:+ ")$") with
  | Compiled re =>
      if regex_match fileName re then []
      else [(WARN, "File MisMatch: " +:+ fileName +:+ " does not match filter: " +:+ filter)]
  | RegexError what =>
      [(ERROR, "Invalid regex filter: " +:+ filter +:+ " | Error: " +:+ what)]
  end.

(** What the thread that calls [convert] logs in its loop over the entries
    of a directory; the loop stops at the first regular file if the filter
    does not compile. *)
Fixpoint loop_lines `{Libraries} (filter : string) (dir : list (string * bool))
  : list (LogLevel * string) :=
  match dir with
  | [] => []
  | (p, false) :: dir' => (WARN, "Skipping non-regular file: " +:+ p) :: loop_lines filter dir'
  | (p, true) :: dir' =>
      filter_lines filter (filename p)
      ++ (if filter_compiles filter then loop_lines filter dir' else [])
  end.

(** The environment of the calling thread of [convert] at the end of its
    loop over a directory, its tasks left aside. *)
Definition after_loop `{Libraries} `{Tree} (path toEncoding filter : string) (s : state)
  : state :=
  add_lines ((INFO, "Processing directory: " +:+ path) :: loop_lines filter (walk path).1)
            (after_checkTarget toEncoding s).

(** The jobs of a directory run, in the order of the walk. *)
Definition jobs `{Libraries} `{Tree} (path toEncoding sourceEncodingFilter filter : string)
  : list (prog unit) :=
  (fun p => guardedConvertFile p (normalize toEncoding) sourceEncodingFilter)
    <$> selected_paths path filter.

(** What reading the file that [p] names gives. *)
Definition read_result `{Tree} (p : string) (s : state) : result string :=
  (act (ReadAll p) s).1.

(** The detected name takes [convertFile] down to the transcoding: it is
    none of the two names that stand for a skip, the source filter lets it
    through, and it is not empty. *)
Definition goes_through `{Libraries} (src detected : string) : bool :=
  negb (String.eqb detected "UNKNOWN") && negb (String.eqb detected "MISMATCH")
  && source_filter_accepts src detected && negb (empty detected).

(** Whether [std::ofstream] can open what the path names. *)
Definition opens_for_writing (st : file_status) : bool :=
  match st with
  | Regular _ _ writable => writable
  | Other _ _ writable => writable
  | _ => false
  end.

(** The files once the file that [p] names, if it is a regular file that
    can be written, holds [data]. *)
Definition rewritten `{Tree} (p data : string) (fs : gmap string string)
  : gmap string string :=
  match status p with
  | Regular file _ true => <[file := data]> fs
  | _ => fs
  end.

(** The entries that come before the first regular file. *)
Fixpoint before_regular (dir : list (string * bool)) : list string :=
  match dir with
  | (p, false) :: dir' => p :: before_regular dir'
  | _ => []
  end.
(** ** Running programs: basic facts *)

Section Basics.

Context `{T : Tree}.


Lemma run_bind {A B : Type} (m : prog A) (f : A -> prog B) s pool :
  run (bind m f) s pool =
  match run m s pool with
  | (Returned a, s', pool') => run (f a) s' pool'
  | (Raised w, s', pool') => (Raised w, s', pool')
  end.
Proof.
  revert B f s pool.
  induction m as [A a | A w | A X a k IH | A t IHt k IH | A i k IH];
    intros B f s pool; simpl; try reflexivity.
  - destruct (act a s) as [x s']. apply IH.
  - destruct (run t s []) as [[r s'] pool']. apply IH.
  - destruct (pool !! i) as [[u | w] |]; apply IH.
Qed.

Lemma run_try_catch {A : Type} (m : prog A) (h : exn -> prog A) s pool :
  run (try_catch m h) s pool =
  match run m s pool with
  | (Returned a, s', pool') => (Returned a, s', pool')
  | (Raised w, s', pool') => run (h w) s' pool'
  end.
Proof.
  revert h s pool.
  induction m as [A a | A w | A X a k IH | A t IHt k IH | A i k IH];
    intros h s pool; simpl; try reflexivity.
  - destruct (act a s) as [x s']. apply IH.
  - destruct (run t s []) as [[r s'] pool']. apply IH.
  - destruct (pool !! i) as [[u | w] |]; apply IH.
Qed.

Lemma run_logMessage level message s pool :
  run (logMessage level message) s pool = (Returned tt, add_log (level, message) s, pool).
Proof. reflexivity. Qed.

Lemma tolower_idempotent c : tolower (tolower c) = tolower c.
Proof. destruct c as [[] [] [] [] [] [] [] []]; reflexivity. Qed.

Lemma transform_tolower_idempotent s :
  transform tolower (transform tolower s) = transform tolower s.
Proof. induction s as [| c s IH]; simpl; [reflexivity |]. by rewrite tolower_idempotent, IH. Qed.

Lemma empty_true s : empty s = true <-> s = EmptyString.
Proof. destruct s; simpl; split; congruence. Qed.

Lemma transform_empty f s : empty (transform f s) = empty s.
Proof. by destruct s. Qed.

Lemma run_mapEncodingName raw s pool :
  run (mapEncodingName raw) s pool = (Returned (normalize raw), after_mapEncodingName raw s, pool).
Proof.
  unfold mapEncodingName, normalize, after_mapEncodingName.
  destruct raw as [| c raw]; [reflexivity |].
  cbn [empty]. generalize (String c raw) as e. intros e.
  generalize (transform tolower e) as l. intros l.
  unfold alias_table, lookup_alias.
  destruct (String.eqb l "windows-1252") eqn:E1;
    [apply String.eqb_eq in E1; subst l; reflexivity |].
  destruct (String.eqb l "windows1252") eqn:E2;
    [apply String.eqb_eq in E2; subst l; reflexivity |].
  destruct (String.eqb l "iso-8859-1") eqn:E3;
    [apply String.eqb_eq in E3; subst l; reflexivity |].
  destruct (String.eqb l "iso8859-1") eqn:E4;
    [apply String.eqb_eq in E4; subst l; reflexivity |].
  destruct (String.eqb l "utf-8") eqn:E5;
    [apply String.eqb_eq in E5; subst l; reflexivity |].
  destruct (String.eqb l "utf8") eqn:E6;
    [apply String.eqb_eq in E6; subst l; reflexivity |].
  destruct (String.eqb l "gbk") eqn:E7;
    [apply String.eqb_eq in E7; subst l; reflexivity |].
  destruct (String.eqb l "gb18030") eqn:E8;
    [apply String.eqb_eq in E8; subst l; reflexivity |].
  destruct (String.eqb l "ascii") eqn:E9;
    [apply String.eqb_eq in E9; subst l; reflexivity |].
  destruct (String.eqb l "big5") eqn:E10;
    [apply String.eqb_eq in E10; subst l; reflexivity |].
  destruct (String.eqb l "utf-16le") eqn:E11;
    [apply String.eqb_eq in E11; subst l; reflexivity |].
  destruct (String.eqb l "utf16le") eqn:E12;
    [apply String.eqb_eq in E12; subst l; reflexivity |].
  destruct (String.eqb l "utf-16be") eqn:E13;
    [apply String.eqb_eq in E13; subst l; reflexivity |].
  destruct (String.eqb l "utf16be") eqn:E14;
    [apply String.eqb_eq in E14; subst l; reflexivity |].
  reflexivity.
Qed.

Lemma exec_mapEncodingName raw s :
  exec (mapEncodingName raw) s = (Returned (normalize raw), after_mapEncodingName raw s).
Proof. unfold exec. by rewrite run_mapEncodingName. Qed.

Lemma normalize_empty_iff raw : normalize raw = EmptyString <-> raw = EmptyString.
Proof.
  split; [| intros ->; reflexivity].
  unfold normalize. destruct raw as [| c raw]; [reflexivity |]. cbn [empty].
  destruct (lookup_alias _ alias_table) as [canonical |] eqn:E; [| done].
  intros ->. exfalso. revert E. generalize (transform tolower (String c raw)). intros l.
  unfold alias_table, lookup_alias.
  repeat (destruct (String.eqb l _); [discriminate |]). discriminate.
Qed.

Lemma lookup_alias_canonical l canonical :
  lookup_alias l alias_table = Some canonical ->
  lookup_alias (transform tolower canonical) alias_table = Some canonical.
Proof.
  unfold alias_table, lookup_alias.
  repeat (destruct (String.eqb l _); [intros [= <-]; reflexivity |]). discriminate.
Qed.

Lemma normalize_idempotent raw : normalize (normalize raw) = normalize raw.
Proof.
  destruct (empty raw) eqn:Eraw; [apply empty_true in Eraw as ->; reflexivity |].
  assert (Hn : normalize raw =
               match lookup_alias (transform tolower raw) alias_table with
               | Some canonical => canonical
               | None => raw
               end) by (unfold normalize; by rewrite Eraw).
  destruct (lookup_alias (transform tolower raw) alias_table) as [canonical |] eqn:E;
    rewrite Hn.
  - unfold normalize. rewrite (lookup_alias_canonical _ _ E).
    destruct (empty canonical) eqn:Ec; [| reflexivity].
    by apply empty_true in Ec as ->.
  - unfold normalize. by rewrite Eraw, E.
Qed.

Lemma lookup_alias_elem_of name table canonical :
  lookup_alias name table = Some canonical -> (name, canonical) ∈ table.
Proof.
  induction table as [| [alias c] table IH]; simpl; [done |].
  destruct (String.eqb_spec name alias) as [-> | Hne].
  - intros [= ->]. apply list_elem_of_here.
  - intros H. by apply list_elem_of_further, IH.
Qed.

Lemma alias_table_lookup alias canonical :
  (alias, canonical) ∈ alias_table ->
  lookup_alias alias alias_table = Some canonical /\ empty alias = false.
Proof.
  unfold alias_table. rewrite !elem_of_cons, elem_of_nil. intros H.
  repeat (destruct H as [H | H]; [injection H as -> ->; split; reflexivity |]).
  destruct H.
Qed.

(** ** The name normalizer *)

(** C6: [mapEncodingName] is a case-insensitive lookup in the alias table of
    the specification: an input whose lower-cased form is an alias yields
    that alias's canonical name (whatever the case of the input), the empty
    input yields the empty string, and an input that is not recognised is
    returned unchanged. *)
Theorem mapEncodingName_alias_table :
  (forall raw s, outcome (mapEncodingName raw) s = Returned (normalize raw)) /\
  (forall alias canonical raw s,
      (alias, canonical) ∈ alias_table ->
      transform tolower raw = alias ->
      outcome (mapEncodingName raw) s = Returned canonical) /\
  (forall s, outcome (mapEncodingName EmptyString) s = Returned EmptyString) /\
  (forall raw s,
      (forall alias canonical, (alias, canonical) ∈ alias_table ->
                               transform tolower raw <> alias) ->
      outcome (mapEncodingName raw) s = Returned raw).
Proof.
  assert (Hrun : forall raw s, outcome (mapEncodingName raw) s = Returned (normalize raw)).
  { intros raw s. unfold outcome. by rewrite exec_mapEncodingName. }
  split; [exact Hrun |]. split; [| split].
  - intros alias canonical raw s Hin Hlow. rewrite Hrun. f_equal.
    destruct (alias_table_lookup _ _ Hin) as [Hfound Hne].
    unfold normalize. rewrite <- (transform_empty tolower raw), Hlow, Hne.
    by rewrite Hfound.
  - intros s. by rewrite Hrun.
  - intros raw s Hnot. rewrite Hrun. f_equal. unfold normalize.
    destruct (empty raw) eqn:Eraw; [symmetry; by apply empty_true |].
    destruct (lookup_alias (transform tolower raw) alias_table) as [canonical |] eqn:E;
      [| reflexivity].
    exfalso. eapply Hnot; [| reflexivity]. by apply lookup_alias_elem_of.
Qed.

(** C7: normalization is idempotent: normalizing the name that
    [mapEncodingName] returns gives that name again.  This holds for every
    input, the supported aliases among them. *)
Theorem mapEncodingName_idempotent :
  forall raw s s',
    exists name,
      outcome (mapEncodingName raw) s = Returned name /\
      outcome (mapEncodingName name) s' = Returned name.
Proof.
  intros raw s s'. exists (normalize raw). unfold outcome.
  rewrite !exec_mapEncodingName. cbn. by rewrite normalize_idempotent.
Qed.

(** ** Disciplines are kept by the combinators *)

Lemma confined_bind {A B : Type} p (m : prog A) (f : A -> prog B) :
  confined p m -> (forall a, confined p (f a)) -> confined p (bind m f).
Proof.
  intros Hm Hf. induction m as [A a | A w | A X a k IH | A t IHt k IH | A i k IH];
    simpl in *; try done.
  destruct Hm as [Ha Hk]. split; [done |]. intros x. by apply IH.
Qed.

Lemma confined_try_catch {A : Type} p (m : prog A) (h : exn -> prog A) :
  confined p m -> (forall w, confined p (h w)) -> confined p (try_catch m h).
Proof.
  intros Hm Hh. induction m as [A a | A w | A X a k IH | A t IHt k IH | A i k IH];
    simpl in *; try done.
  destruct Hm as [Ha Hk]. split; [done |]. intros x. by apply IH.
Qed.

Lemma confined_logMessage p level message : confined p (logMessage level message).
Proof. by simpl. Qed.

Lemma within_bind {A B : Type} (P : string -> Prop) (m : prog A) (f : A -> prog B) :
  within P m -> (forall a, may_return m a -> within P (f a)) -> within P (bind m f).
Proof.
  intros Hm Hf. induction m as [A a | A w | A X a k IH | A t IHt k IH | A i k IH];
    simpl in *; try done.
  - by apply Hf.
  - destruct Hm as [Ha Hk]. split; [done |]. intros x. apply IH; [done |].
    intros v Hv. apply Hf. by exists x.
  - destruct Hm as [Ht Hk]. split; [done |]. intros i. apply IH; [done |].
    intros v Hv. apply Hf. by exists i.
  - intros r. apply IH; [done |]. intros v Hv. apply Hf. by exists r.
Qed.

Lemma within_try_catch {A : Type} (P : string -> Prop) (m : prog A) (h : exn -> prog A) :
  within P m -> (forall w, within P (h w)) -> within P (try_catch m h).
Proof.
  intros Hm Hh. induction m as [A a | A w | A X a k IH | A t IHt k IH | A i k IH];
    simpl in *; try done.
  - destruct Hm as [Ha Hk]. split; [done |]. intros x. by apply IH.
  - destruct Hm as [Ht Hk]. split; [done |]. intros i. by apply IH.
  - intros r. by apply IH.
Qed.

Lemma touched_on {X : Type} p (a : action X) q : action_on p a -> touched a = Some q -> q = p.
Proof. destruct a; simpl; intros H [= <-]; done. Qed.

Lemma confined_within {A : Type} (P : string -> Prop) p (t : prog A) :
  confined p t -> P p -> within P t.
Proof.
  intros Ht Hp. induction t as [A a | A w | A X a k IH | A t IHt k IH | A i k IH];
    simpl in *; try done.
  destruct Ht as [Ha Hk]. split.
  - intros q Hq. by rewrite (touched_on _ _ _ Ha Hq).
  - intros x. by apply IH.
Qed.

Lemma within_for_each {E : Type} (P : string -> Prop) (l : list E) (body : E -> prog unit) :
  (forall e, e ∈ l -> within P (body e)) -> within P (for_each l body).
Proof.
  induction l as [| e l IH]; intros H; simpl; [done |].
  apply within_bind; [apply H, list_elem_of_here |].
  intros _ _. apply IH. intros e' He'. apply H. by apply list_elem_of_further.
Qed.

Lemma within_for_each_with {E S : Type} (P : string -> Prop) (l : list E)
    (body : E -> S -> prog S) (s : S) :
  (forall e s', e ∈ l -> within P (body e s')) -> within P (for_each_with l body s).
Proof.
  revert s. induction l as [| e l IH]; intros s H; simpl; [done |].
  apply within_bind; [apply H, list_elem_of_here |].
  intros s' _. apply IH. intros e' s'' He'. apply H. by apply list_elem_of_further.
Qed.

(** ** What one action does to the environment *)

Lemma act_files_other {X : Type} (a : action X) s file :
  (forall q, touched a = Some q -> file_of q <> Some file) ->
  files (act a s).2 !! file = files s !! file.
Proof.
  unfold file_of. destruct a; simpl; try done; intros Hq; specialize (Hq p eq_refl);
    destruct (status p) as [| w | f r [] | r | o rd w]; simpl; try done;
    rewrite lookup_insert_ne; [done | congruence | done | congruence].
Qed.

Lemma act_ops {X : Type} (a : action X) s :
  exists extra, ops (act a s).2 = ops s ++ extra /\
                Forall (fun o => touched a = Some (op_path o)) extra.
Proof.
  destruct a; simpl; try (exists []; by rewrite app_nil_r).
  - eexists; split; [done |]. by repeat constructor.
  - eexists; split; [done |]. by repeat constructor.
  - destruct (status p) as [| w | f r [] | r | o rd w]; simpl;
      (eexists; split; [done |]; by repeat constructor).
  - destruct (status p) as [| w | f r [] | r | o rd w]; simpl;
      (eexists; split; [done |]; by repeat constructor).
Qed.

Lemma act_log {X : Type} (a : action X) s :
  exists extra, log (act a s).2 = log s ++ extra.
Proof.
  destruct a; simpl; try (exists []; by rewrite app_nil_r).
  - by eexists.
  - destruct (status p) as [| w | f r [] | r | o rd w]; simpl; exists []; by rewrite app_nil_r.
  - destruct (status p) as [| w | f r [] | r | o rd w]; simpl; exists []; by rewrite app_nil_r.
Qed.

(** A program that stays within [P] opens, reads and writes paths of [P]
    only, and leaves as it was every file that no path of [P] names. *)
Lemma run_within {A : Type} (P : string -> Prop) (m : prog A) :
  within P m ->
  forall s pool,
    (exists extra, ops (run m s pool).1.2 = ops s ++ extra /\
                   Forall (fun o => P (op_path o)) extra) /\
    (forall file, (forall q, P q -> file_of q <> Some file) ->
                  files (run m s pool).1.2 !! file = files s !! file).
Proof.
  induction m as [A a | A w | A X a k IH | A t IHt k IH | A i k IH];
    intros Hm s pool; simpl in *.
  - split; [exists []; by rewrite app_nil_r | done].
  - split; [exists []; by rewrite app_nil_r | done].
  - destruct Hm as [Ha Hk]. destruct (act a s) as [x s'] eqn:Ea.
    destruct (IH x (Hk x) s' pool) as [(extra & Hops & Hall) Hfiles].
    destruct (act_ops a s) as (extra0 & Hops0 & Hall0). rewrite Ea in Hops0. simpl in Hops0.
    split.
    + exists (extra0 ++ extra). rewrite Hops, Hops0, app_assoc. split; [done |].
      apply Forall_app. split; [| done].
      eapply Forall_impl; [exact Hall0 |]. intros o Ho. by apply Ha.
    + intros file Hq. rewrite Hfiles by done.
      replace s' with (act a s).2 by (by rewrite Ea). apply act_files_other.
      intros q Hto. apply Hq. by apply Ha.
  - destruct Hm as [Ht Hk].
    destruct (IHt Ht s []) as [(extra0 & Hops0 & Hall0) Hfiles0].
    destruct (run t s []) as [[r s'] pool'] eqn:Et. simpl in *.
    destruct (IH (length pool) (Hk _) s' (pool ++ [r])) as [(extra & Hops & Hall) Hfiles].
    split.
    + exists (extra0 ++ extra). rewrite Hops, Hops0, app_assoc. split; [done |].
      by apply Forall_app.
    + intros file Hq. rewrite Hfiles, Hfiles0; done.
  - destruct (pool !! i) as [[u | w] |]; by apply IH.
Qed.

(** A confined program does not use the pool and never changes another
    file. *)
Lemma run_confined {A : Type} p (t : prog A) :
  confined p t ->
  forall s pool, run t s pool = ((run t s []).1, pool).
Proof.
  induction t as [A a | A w | A X a k IH | A t IHt k IH | A i k IH];
    intros Ht s pool; simpl in *; try done.
  destruct Ht as [Ha Hk]. destruct (act a s) as [x s']. by apply IH.
Qed.

Lemma logs_only_bind {A B : Type} (m : prog A) (f : A -> prog B) :
  logs_only m -> (forall a, logs_only (f a)) -> logs_only (bind m f).
Proof.
  intros Hm Hf. induction m as [A a | A w | A X a k IH | A t IHt k IH | A i k IH];
    simpl in *; try done.
  destruct Hm as [Ha Hk]. split; [done |]. intros x. by apply IH.
Qed.

Lemma logs_only_try_catch {A : Type} (m : prog A) (h : exn -> prog A) :
  logs_only m -> (forall w, logs_only (h w)) -> logs_only (try_catch m h).
Proof.
  intros Hm Hh. induction m as [A a | A w | A X a k IH | A t IHt k IH | A i k IH];
    simpl in *; try done.
  destruct Hm as [Ha Hk]. split; [done |]. intros x. by apply IH.
Qed.

Lemma logs_only_logMessage level message : logs_only (logMessage level message).
Proof. by simpl. Qed.

Lemma logs_only_mapEncodingName raw : logs_only (mapEncodingName raw).
Proof.
  unfold mapEncodingName.
  repeat match goal with |- context [if ?b then _ else _] => destruct b end; by simpl.
Qed.

Lemma logging_only_on {X : Type} p (a : action X) : logging_only a -> action_on p a.
Proof. by destruct a. Qed.

Lemma logging_only_untouched {X : Type} (a : action X) : logging_only a -> touched a = None.
Proof. by destruct a. Qed.

Lemma logs_only_confined {A : Type} p (m : prog A) : logs_only m -> confined p m.
Proof.
  induction m as [A a | A w | A X a k IH | A t IHt k IH | A i k IH]; simpl; try done.
  intros [Ha Hk]. split; [by apply logging_only_on |]. intros x. by apply IH.
Qed.

Lemma logs_only_within {A : Type} (P : string -> Prop) (m : prog A) :
  logs_only m -> within P m.
Proof.
  induction m as [A a | A w | A X a k IH | A t IHt k IH | A i k IH]; simpl; try done.
  intros [Ha Hk]. split; [| intros x; by apply IH].
  intros q. by rewrite (logging_only_untouched _ Ha).
Qed.

Lemma act_logging_only {X : Type} (a : action X) s :
  logging_only a -> files (act a s).2 = files s /\ ops (act a s).2 = ops s.
Proof. by destruct a. Qed.

Lemma run_logs_only {A : Type} (m : prog A) :
  logs_only m ->
  forall s pool,
    files (run m s pool).1.2 = files s /\ ops (run m s pool).1.2 = ops s /\
    (run m s pool).2 = pool.
Proof.
  induction m as [A a | A w | A X a k IH | A t IHt k IH | A i k IH];
    intros Hm s pool; simpl in *; try done.
  destruct Hm as [Ha Hk]. destruct (act_logging_only a s Ha) as [Hf Ho].
  destruct (act a s) as [x s']. simpl in *. rewrite <- Hf, <- Ho. by apply IH.
Qed.

End Basics.

(** ** Facts on the methods, whatever the libraries *)

Section ConverterFacts.

Context `{L : Libraries} `{T : Tree}.

Lemma logs_only_detectEncoding data filter : logs_only (detectEncoding data filter).
  Proof.
    unfold detectEncoding. destruct (uchardet data) as [| | c]; try by simpl.
    destruct (_ && _); [| by simpl].
    destruct (regex_icase _) as [re | what]; [| by simpl].
    destruct (negb _); by simpl.
  Qed.

Lemma logs_only_convertEncoding input from to : logs_only (convertEncoding input from to).
  Proof.
    unfold convertEncoding. destruct (_ <? _)%Z; [by simpl |].
    destruct (ucnv_convert _ _ _ _); by simpl.
  Qed.

Lemma logs_only_shouldProcessFile name filter : logs_only (shouldProcessFile name filter).
  Proof.
    unfold shouldProcessFile. destruct (empty filter); [by simpl |].
    destruct (regex_icase _) as [re | what]; [| by simpl].
    destruct (negb _); by simpl.
  Qed.

Lemma logs_only_checkTarget to : logs_only (checkTarget to).
  Proof.
    unfold checkTarget. apply logs_only_bind; [apply logs_only_mapEncodingName |].
    intros mapped. apply logs_only_bind; [| by simpl].
    destruct (empty mapped); by simpl.
  Qed.

Lemma confined_convertFile p to src : confined p (convertFile p to src).
  Proof.
    unfold convertFile. simpl. split; [done |]. intros is_open.
    destruct (negb is_open); [by simpl |]. simpl. split; [done |]. intros [content | e];
      [| by simpl].
    simpl.
    apply confined_bind; [apply logs_only_confined, logs_only_detectEncoding |].
    intros detected. destruct (_ || _); [by simpl |].
    apply confined_bind; [apply logs_only_confined, logs_only_mapEncodingName |].
    intros mapped. destruct (empty mapped); [by simpl |].
    apply confined_bind.
    { apply logs_only_confined, logs_only_try_catch; [apply logs_only_convertEncoding |].
      intros w. by simpl. }
    intros converted. simpl. split; [done |]. intros is_open'.
    destruct (negb is_open'); by simpl.
  Qed.

Lemma confined_guardedConvertFile p to src : confined p (guardedConvertFile p to src).
  Proof.
    apply confined_try_catch; [apply confined_convertFile |]. intros w. by simpl.
  Qed.

Lemma never_throws_try_catch {A : Type} p (m : prog A) (h : exn -> prog A) :
    confined p m -> (forall e, never_throws (h e)) -> never_throws (try_catch m h).
  Proof.
    intros Hm Hh. induction m as [A a | A w | A X a k IH | A t IHt k IH | A i k IH];
      simpl in *; try done.
    destruct Hm as [Ha Hk]. intros x. by apply IH.
  Qed.

  (** The job boundary, in the program: no exception leaves the guarded
      job. *)
Lemma never_throws_guardedConvertFile p to src :
    never_throws (guardedConvertFile p to src).
  Proof.
    apply (never_throws_try_catch p); [apply confined_convertFile |]. intros e. by simpl.
  Qed.

  (** The job boundary, in a run: whatever [convertFile] does, the guarded
      job returns. *)
Lemma run_guardedConvertFile p to src s pool :
    exists s', run (guardedConvertFile p to src) s pool = (Returned tt, s', pool).
  Proof.
    unfold guardedConvertFile. rewrite run_try_catch.
    rewrite (run_confined p _ (confined_convertFile p to src) s pool).
    destruct (run (convertFile p to src) s []) as [[[[] | w] s'] pool']; simpl; eauto.
  Qed.

Lemma may_return_shouldProcessFile name filter :
    may_return (shouldProcessFile name filter) true -> passes_filter name filter = true.
  Proof.
    unfold shouldProcessFile, passes_filter.
    destruct (empty filter); [done |]. simpl.
    destruct (regex_icase _) as [re | what]; simpl.
    - destruct (regex_match name re); simpl; [done |]. by intros [_ [=]].
    - by intros [_ []].
  Qed.

Lemma within_convertSingleFile path to src filter :
    within (fun p => passes_filter (filename p) filter = true)
           (convertSingleFile path to src filter).
  Proof.
    unfold convertSingleFile.
    apply within_bind; [apply logs_only_within, logs_only_shouldProcessFile |].
    intros [] Hok; [| by simpl].
    apply may_return_shouldProcessFile in Hok.
    apply within_bind; [by simpl |]. intros _ _.
    apply (confined_within _ path); [apply confined_guardedConvertFile | done].
  Qed.

Lemma logs_only_is_directory path : logs_only (is_directory path).
  Proof. unfold is_directory. by destruct (status path). Qed.

Lemma logs_only_is_regular_file path : logs_only (is_regular_file path).
  Proof. unfold is_regular_file. by destruct (status path). Qed.

Lemma logs_only_walk_end {A : Type} root (a : A) : logs_only (walk_end root a).
  Proof. unfold walk_end. by destruct (walk root).2. Qed.

Lemma within_convertEntry P mapped src filter p regular :
    (regular = true -> passes_filter (filename p) filter = true -> P p) ->
    within P (convertEntry mapped src filter (p, regular)).
  Proof.
    intros HP. unfold convertEntry. cbn [fst snd]. destruct regular; [| by simpl].
    apply within_bind; [apply logs_only_within, logs_only_shouldProcessFile |].
    intros [] Hok; [| by simpl].
    apply may_return_shouldProcessFile in Hok.
    apply (confined_within _ p); [apply confined_guardedConvertFile | by apply HP].
  Qed.

Lemma within_launchEntry P mapped src filter p regular futures :
    (regular = true -> passes_filter (filename p) filter = true -> P p) ->
    within P (launchEntry mapped src filter (p, regular) futures).
  Proof.
    intros HP. unfold launchEntry. cbn [fst snd]. destruct regular; [| by simpl].
    apply within_bind; [apply logs_only_within, logs_only_shouldProcessFile |].
    intros [] Hok; [| by simpl].
    apply may_return_shouldProcessFile in Hok. cbn [within]. split; [| done].
    apply (confined_within _ p); [apply confined_guardedConvertFile | by apply HP].
  Qed.

Lemma within_joinAll P futures : within P (joinAll futures).
  Proof.
    apply within_for_each. intros fut _. simpl. intros [e |]; by simpl.
  Qed.

Lemma within_convert_single path to src filter :
    within (fun p => passes_filter (filename p) filter = true)
           (convert_single path to src filter).
  Proof.
    unfold convert_single.
    apply within_bind; [apply logs_only_within, logs_only_checkTarget |].
    intros mapped _.
    apply within_bind; [apply logs_only_within, logs_only_is_directory |].
    intros [] _.
    - apply within_bind; [by simpl |]. intros _ _. unfold for_each_entry.
      apply within_bind; [| intros; apply logs_only_within, logs_only_walk_end].
      apply within_for_each. intros [p regular] _. by apply within_convertEntry.
    - apply within_bind; [apply logs_only_within, logs_only_is_regular_file |].
      intros [] _; [apply within_convertSingleFile | by simpl].
  Qed.

Lemma within_convert path to src filter :
    within (fun p => passes_filter (filename p) filter = true)
           (convert path to src filter).
  Proof.
    unfold convert.
    apply within_bind; [apply logs_only_within, logs_only_checkTarget |].
    intros mapped _.
    apply within_bind; [apply logs_only_within, logs_only_is_directory |].
    intros isdir _.
    apply within_bind; [| intros; apply within_joinAll].
    destruct isdir.
    - apply within_bind; [by simpl |]. intros _ _. unfold for_each_entry_with.
      apply within_bind; [| intros; apply logs_only_within, logs_only_walk_end].
      apply within_for_each_with. intros [p regular] futures _. by apply within_launchEntry.
    - apply within_bind; [apply logs_only_within, logs_only_is_regular_file |].
      intros [] _; [| by simpl].
      apply within_bind; [apply within_convertSingleFile | by simpl].
  Qed.

Lemma confined_convertSingleFile path mapped src filter :
    confined path (convertSingleFile path mapped src filter).
  Proof.
    unfold convertSingleFile.
    apply confined_bind; [apply logs_only_confined, logs_only_shouldProcessFile |].
    intros []; [| by simpl].
    apply confined_bind; [by simpl |]. intros _. apply confined_guardedConvertFile.
  Qed.

End ConverterFacts.

(** ** Interleavings: every step keeps what [drain] computes *)

Section Interleavings.

Context `{T : Tree}.

Lemma same_content_refl s : same_content s s.
Proof. by repeat split. Qed.

Lemma same_content_sym s s' : same_content s s' -> same_content s' s.
Proof. intros (Hf & Hl & Ho). by repeat split. Qed.

Lemma same_content_trans s1 s2 s3 :
  same_content s1 s2 -> same_content s2 s3 -> same_content s1 s3.
Proof.
  intros (Hf & Hl & Ho) (Hf' & Hl' & Ho'). repeat split; [congruence | |].
  - by etrans.
  - by etrans.
Qed.

Lemma agree3_refl {R Q : Type} (x : R * state * Q) : agree3 x x.
Proof. split; [done |]. split; [apply same_content_refl | done]. Qed.

Lemma agree3_trans {R Q : Type} (x y z : R * state * Q) :
  agree3 x y -> agree3 y z -> agree3 x z.
Proof.
  intros (H1 & H2 & H3) (H1' & H2' & H3'). split; [congruence |].
  split; [by eapply same_content_trans | congruence].
Qed.

Lemma agree3_sym {R Q : Type} (x y : R * state * Q) : agree3 x y -> agree3 y x.
Proof. intros (H1 & H2 & H3). split; [done |]. split; [by apply same_content_sym | done]. Qed.

Lemma act_same_content {X : Type} (a : action X) s s' :
  same_content s s' ->
  (act a s).1 = (act a s').1 /\ same_content (act a s).2 (act a s').2.
Proof.
  intros (Hf & Hl & Ho). unfold same_content, content.
  destruct a; simpl; rewrite ?Hf;
    try destruct (status p) as [| w | f r [] | r | o rd w]; simpl;
    unfold content; rewrite ?Hf;
    repeat split; try done; by apply Permutation_app_tail.
Qed.

Lemma run_same_content {A : Type} (m : prog A) s s' pool :
  same_content s s' -> agree3 (run m s pool) (run m s' pool).
Proof.
  revert s s' pool.
  induction m as [A a | A w | A X a k IH | A t IHt k IH | A i k IH];
    intros s s' pool Hs; simpl.
  - by split.
  - by split.
  - destruct (act_same_content a s s' Hs) as [Hx Hs'].
    destruct (act a s) as [x s1], (act a s') as [x' s1']. simpl in *. subst x'.
    by apply IH.
  - destruct (IHt s s' [] Hs) as (Hr & Hs' & _).
    destruct (run t s []) as [[r s1] pool1], (run t s' []) as [[r' s1'] pool1'].
    simpl in *. subst r'. by apply IH.
  - destruct (pool !! i) as [[u | w] |]; by apply IH.
Qed.

Lemma run_tasks_same_content ts s s' :
  same_content s s' -> agree (run_tasks ts s) (run_tasks ts s').
Proof.
  revert s s'. induction ts as [| t ts IH]; intros s s' Hs; simpl; [by split |].
  destruct (run_same_content t s s' [] Hs) as (Hr & Hs' & _).
  destruct (run t s []) as [[r s1] pool1], (run t s' []) as [[r' s1'] pool1'].
  simpl in *. subst r'.
  destruct (IH s1 s1' Hs') as [Hrs Hs2].
  destruct (run_tasks ts s1) as [rs s2], (run_tasks ts s1') as [rs' s2'].
  simpl in *. subst rs'. by split.
Qed.

Lemma drain_with_same_content m ts already s s' :
  same_content s s' -> agree3 (drain_with m ts already s) (drain_with m ts already s').
Proof.
  intros Hs. unfold drain_with.
  destruct (run_tasks_same_content ts s s' Hs) as [Hrs Hs1].
  destruct (run_tasks ts s) as [rs s1], (run_tasks ts s') as [rs' s1'].
  simpl in *. subst rs'. by apply run_same_content.
Qed.

(** *** Actions on different files commute *)

Lemma independent_sym p q : independent p q -> independent q p.
Proof. intros H file Hq Hp. exact (H file Hp Hq). Qed.

Lemma separate_before l1 p l2 : separate (l1 ++ p :: l2) -> Forall (independent p) l1.
Proof.
  induction l1 as [| q l1 IH]; simpl; [constructor |]. intros [Hq Hsep].
  constructor; [| by apply IH]. apply independent_sym.
  rewrite Forall_app in Hq. destruct Hq as [_ Hq]. by apply Forall_cons in Hq as [Hq _].
Qed.

Lemma separate_snoc l p : separate l -> Forall (independent p) l -> separate (l ++ [p]).
Proof.
  induction l as [| q l IH]; simpl; [done |]. intros [Hq Hsep] Hp.
  apply Forall_cons in Hp as [Hpq Hp]. split; [| by apply IH].
  apply Forall_app. split; [done |]. constructor; [| constructor]. by apply independent_sym.
Qed.

Lemma act_decompose {X : Type} (a : action X) s :
  act a s = (answer a (files s),
             mkState (effect a (files s)) (log s ++ logged a) (ops s ++ recorded a)).
Proof.
  unfold answer, effect, content. destruct s as [fs lg op].
  destruct a; simpl; rewrite ?app_nil_r; try reflexivity;
    destruct (status p) as [| w | f r [] | r | o rd w]; reflexivity.
Qed.

Lemma effect_lookup_ne {X : Type} (a : action X) fs file :
  (forall q, touched a = Some q -> file_of q <> Some file) ->
  effect a fs !! file = fs !! file.
Proof.
  intros H. unfold effect. apply (act_files_other a (mkState fs [] []) file H).
Qed.

Lemma answer_local {X : Type} (a : action X) p fs fs' :
  action_on p a -> (forall file, file_of p = Some file -> fs !! file = fs' !! file) ->
  answer a fs = answer a fs'.
Proof.
  unfold answer, file_of, content. destruct a; simpl; try done; intros -> H; try done;
    destruct (status p) as [| w | f r [] | r | o rd w]; unfold content; simpl;
    try reflexivity; rewrite (H f eq_refl); reflexivity.
Qed.

(** What an action does to the files does not depend on them: nothing, or
    one file gets a new content. *)
Lemma effect_shape {X : Type} (a : action X) :
  (forall fs, effect a fs = fs) \/
  exists p file data,
    touched a = Some p /\ file_of p = Some file /\
    forall fs, effect a fs = <[file := data]> fs.
Proof.
  unfold effect, file_of. destruct a; simpl; try (by left);
    destruct (status p) as [| w | f r [] | r | o rd w] eqn:E; simpl; try (by left);
    right; exists p, f; eexists; rewrite E; by repeat split.
Qed.

Lemma effect_local {X : Type} (a : action X) p fs fs' :
  action_on p a -> (forall file, file_of p = Some file -> fs !! file = fs' !! file) ->
  forall file, file_of p = Some file -> effect a fs !! file = effect a fs' !! file.
Proof.
  intros Ha H file Hfile.
  destruct (effect_shape a) as [Hid | (p0 & f & data & Hp0 & Hf & Hins)].
  - rewrite !Hid. by apply H.
  - rewrite (touched_on _ _ _ Ha Hp0) in Hf. rewrite Hfile in Hf. injection Hf as <-.
    by rewrite !Hins, !lookup_insert_eq.
Qed.

Lemma effect_commute {X Y : Type} (a : action X) (b : action Y) p q fs :
  action_on p a -> action_on q b -> independent p q \/ logging_only a ->
  effect b (effect a fs) = effect a (effect b fs).
Proof.
  intros Ha Hb Hpq.
  destruct (effect_shape a) as [Ha_id | (p0 & f & data & Hp0 & Hf & Ha_ins)];
    [by rewrite !Ha_id |].
  destruct (effect_shape b) as [Hb_id | (q0 & g & data' & Hq0 & Hg & Hb_ins)];
    [by rewrite !Hb_id |].
  rewrite (touched_on _ _ _ Ha Hp0) in Hf. rewrite (touched_on _ _ _ Hb Hq0) in Hg.
  destruct Hpq as [Hpq | Hl]; [| by rewrite (logging_only_untouched _ Hl) in Hp0].
  rewrite Ha_ins, !Hb_ins, Ha_ins. apply insert_insert_ne.
  intros Heq. apply (Hpq f Hf). by rewrite <- Heq.
Qed.

Lemma answer_after {X Y : Type} (a : action X) (b : action Y) p q fs :
  action_on p a -> action_on q b -> independent p q \/ logging_only a ->
  answer b (effect a fs) = answer b fs /\ answer a (effect b fs) = answer a fs.
Proof.
  intros Ha Hb Hpq. split.
  - apply (answer_local b q); [done |]. intros file Hfile. apply effect_lookup_ne.
    intros p0 Hp0. destruct Hpq as [Hpq | Hl];
      [| by rewrite (logging_only_untouched _ Hl) in Hp0].
    rewrite (touched_on _ _ _ Ha Hp0). intros Hp. by apply (Hpq file).
  - destruct Hpq as [Hpq | Hl].
    + apply (answer_local a p); [done |]. intros file Hfile. apply effect_lookup_ne.
      intros q0 Hq0. rewrite (touched_on _ _ _ Hb Hq0). by apply Hpq.
    + destruct a; try done.
Qed.

Lemma logged_recorded_commute {X Y : Type} (a : action X) (b : action Y)
    (lg : list (LogLevel * string)) (op : list fs_op) :
  Permutation ((lg ++ logged a) ++ logged b) ((lg ++ logged b) ++ logged a) /\
  Permutation ((op ++ recorded a) ++ recorded b) ((op ++ recorded b) ++ recorded a).
Proof.
  split; rewrite <- !app_assoc; apply Permutation_app_head, Permutation_app_comm.
Qed.

Lemma act_commute {X Y : Type} (a : action X) (b : action Y) p q s :
  action_on p a -> action_on q b -> independent p q \/ logging_only a ->
  (act b (act a s).2).1 = (act b s).1 /\
  (act a (act b s).2).1 = (act a s).1 /\
  same_content (act b (act a s).2).2 (act a (act b s).2).2.
Proof.
  intros Ha Hb Hpq. repeat (rewrite act_decompose; simpl).
  destruct (answer_after a b p q (files s) Ha Hb Hpq) as [H1 H2].
  split; [done |]. split; [done |]. split; simpl.
  - by apply (effect_commute a b p q).
  - apply logged_recorded_commute.
Qed.

(** An action moved past the whole run of a task confined to another file. *)
Lemma run_commute {X A : Type} (a : action X) p q (t : prog A) :
  action_on p a -> independent p q \/ logging_only a -> confined q t ->
  forall s,
    (act a (run t s []).1.2).1 = (act a s).1 /\
    agree3 (run t (act a s).2 [])
           ((run t s []).1.1, (act a (run t s []).1.2).2, (run t s []).2).
Proof.
  intros Ha Hpq.
  induction t as [A v | A w | A Y b k IH | A t' IHt k IH | A i k IH];
    intros Ht s; simpl in *; try done.
  destruct Ht as [Hb Hk].
    destruct (act_commute a b p q s Ha Hb Hpq) as (Hba & Hab & Hs).
    destruct (act b s) as [y sb] eqn:Eb. simpl in *.
    destruct (act b (act a s).2) as [y' sab] eqn:Eab. simpl in *. subst y'.
    destruct (IH y (Hk y) sb) as [Hans Hag]. split.
  - by rewrite Hans.
  - eapply agree3_trans; [apply run_same_content, Hs |]. exact Hag.
Qed.

Lemma run_tasks_commute {X : Type} (a : action X) p qs ts :
  action_on p a -> Forall (independent p) qs \/ logging_only a ->
  Forall2 (fun q t => confined q t) qs ts ->
  forall s,
    (act a (run_tasks ts s).2).1 = (act a s).1 /\
    agree (run_tasks ts (act a s).2) ((run_tasks ts s).1, (act a (run_tasks ts s).2).2).
Proof.
  intros Ha Hpq Hts. induction Hts as [| q t qs ts Hq Hts IH]; intros s; simpl.
  - split; [done |]. split; [done | apply same_content_refl].
  - assert (Hpq1 : independent p q \/ logging_only a).
    { destruct Hpq as [Hp | Hl]; [left | by right]. by apply Forall_cons in Hp as [Hp _]. }
    assert (Hpq2 : Forall (independent p) qs \/ logging_only a).
    { destruct Hpq as [Hp | Hl]; [left | by right]. by apply Forall_cons in Hp as [_ Hp]. }
    destruct (run_commute a p q t Ha Hpq1 Hq s) as [Hans (Hr & Hs & _)].
    destruct (run t s []) as [[r s1] pool1] eqn:Et. simpl in *.
    destruct (run t (act a s).2 []) as [[r' s1'] pool1'] eqn:Et'. simpl in *. subst r'.
    destruct (IH Hpq2 s1) as [Hans2 [Hrs2 Hs2]].
    destruct (run_tasks_same_content ts _ _ Hs) as [Hrs3 Hs3].
    destruct (run_tasks ts s1) as [rs s2] eqn:Ets. simpl in *.
    destruct (run_tasks ts s1') as [rs' s2'] eqn:Ets'. simpl in *.
    destruct (run_tasks ts (act a s1).2) as [rs'' s2''] eqn:Ets''. simpl in *.
    subst. split; [congruence |]. split; [done |]. simpl.
    by eapply same_content_trans.
Qed.

Lemma run_tasks_app ts ts' s :
  run_tasks (ts ++ ts') s =
  ((run_tasks ts s).1 ++ (run_tasks ts' (run_tasks ts s).2).1,
   (run_tasks ts' (run_tasks ts s).2).2).
Proof.
  revert s. induction ts as [| t ts IH]; intros s; simpl.
  - by destruct (run_tasks ts' s).
  - destruct (run t s []) as [[r s1] pool1]. rewrite IH.
    destruct (run_tasks ts s1) as [rs s2]. simpl.
    by destruct (run_tasks ts' s2).
Qed.

Lemma run_tasks_length ts s : length (run_tasks ts s).1 = length ts.
Proof.
  revert s. induction ts as [| t ts IH]; intros s; simpl; [done |].
  destruct (run t s []) as [[r s1] pool1]. specialize (IH s1).
  destruct (run_tasks ts s1) as [rs s2]. simpl in *. by rewrite IH.
Qed.

Lemma run_ended (t : prog unit) res s pool :
  ended t = Some res -> run t s pool = (res, s, pool).
Proof. destruct t as [[] | w | | |]; simpl; intros [= <-]; done. Qed.

Lemma run_tasks_lookup_ended ts i t res s :
  ts !! i = Some t -> ended t = Some res -> (run_tasks ts s).1 !! i = Some res.
Proof.
  revert i s. induction ts as [| t' ts IH]; intros i s Hi He; [done |]. simpl.
  destruct i as [| i]; simpl in Hi.
  - injection Hi as ->. rewrite (run_ended t res s [] He).
    by destruct (run_tasks ts s).
  - destruct (run t' s []) as [[r s1] pool1]. specialize (IH i s1 Hi He).
    by destruct (run_tasks ts s1).
Qed.

Lemma run_tasks_all_ended ts s :
  forallb is_ended ts = true ->
  exists rs, run_tasks ts s = (rs, s) /\ Forall2 (fun t r => ended t = Some r) ts rs.
Proof.
  induction ts as [| t ts IH]; simpl; [by exists [] |].
  intros [Ht Hts]%andb_true_iff. unfold is_ended in Ht.
  destruct (ended t) as [res |] eqn:E; [| done].
  rewrite (run_ended t res s [] E). destruct (IH Hts) as (rs & -> & Hall).
  exists (res :: rs). split; [done |]. by constructor.
Qed.

Lemma drain_with_app m pre ts already s :
  drain_with m (pre ++ ts) already s =
  drain_with m ts (already ++ (run_tasks pre s).1) (run_tasks pre s).2.
Proof.
  unfold drain_with. rewrite run_tasks_app.
  destruct (run_tasks pre s) as [rs s1]. simpl.
  destruct (run_tasks ts s1) as [rs' s2]. simpl. by rewrite app_assoc.
Qed.

Lemma drain_with_step {X : Type} m (a : action X) k post already s :
  drain_with m (Do a k :: post) already s =
  drain_with m (k (act a s).1 :: post) already (act a s).2.
Proof. unfold drain_with. simpl. by destruct (act a s). Qed.

Lemma step_main_preserves m ts s c' :
  step 0 (mkConfig m ts s) = Some c' ->
  well_formed (mkConfig m ts s) ->
  well_formed c' /\ agree3 (drain (mkConfig m ts s)) (drain c').
Proof.
  unfold step. simpl. intros Hstep (used & Hnd & Hts & Hm). simpl in *.
  destruct m as [[] | w | X a k | t k | i k]; simpl in Hstep; try done.
  - destruct (act a s) as [x s'] eqn:Ea. injection Hstep as <-.
    destruct Hm as [Hlog Hk]. split.
    + exists used. split; [done |]. split; [done |]. simpl. apply Hk.
    + unfold drain, drain_with. simpl. destruct Hlog as [Hl | ->].
      * destruct (run_tasks_commute a EmptyString used ts (logging_only_on _ _ Hl)
                    (or_intror Hl) Hts s) as [Hans [Hrs Hs]].
        rewrite Ea in *. simpl in *.
        destruct (run_tasks ts s) as [rs s1], (run_tasks ts s') as [rs' s1'].
        simpl in *. subst rs'.
        destruct (act a s1) as [x1 s1a] eqn:E1. simpl in *. subst x1.
        apply run_same_content. by apply same_content_sym.
      * apply Forall2_nil_inv_l in Hts as ->. simpl. rewrite Ea. apply agree3_refl.
  - injection Hstep as <-. destruct Hm as (p & Hp & Hconf & Hk).
    pose proof (Forall2_length _ _ _ Hts) as Hlen. split.
    + exists (used ++ [p]). split; [| split]; simpl.
      * by apply separate_snoc.
      * apply Forall2_app; [done |]. by constructor.
      * by rewrite <- Hlen.
    + unfold drain, drain_with. simpl. rewrite run_tasks_app.
      pose proof (run_tasks_length ts s) as Hlen'.
      destruct (run_tasks ts s) as [rs s1]. simpl in *.
      destruct (run t s1 []) as [[r s2] pool2]. simpl. rewrite Hlen'. apply agree3_refl.
  - destruct (ts !! i) as [t' |] eqn:Ei; [| done].
    destruct (ended t') as [res |] eqn:Ee; [| done].
    destruct Hm as [Hi Hk]. split.
    + destruct res; injection Hstep as <-; exists used; simpl; by repeat split.
    + pose proof (run_tasks_lookup_ended ts i t' res s Ei Ee) as Hlook.
      destruct res as [[] | w]; injection Hstep as <-;
        unfold drain, drain_with; simpl;
        destruct (run_tasks ts s) as [rs s1]; simpl in *; rewrite Hlook;
        apply agree3_refl.
Qed.

Lemma step_task_preserves j m ts s c' :
  step (S j) (mkConfig m ts s) = Some c' ->
  well_formed (mkConfig m ts s) ->
  well_formed c' /\ agree3 (drain (mkConfig m ts s)) (drain c').
Proof.
  unfold step. simpl. intros Hstep (used & Hnd & Hts & Hm). simpl in *.
  destruct (ts !! j) as [t |] eqn:Ej; [| done].
  destruct (Forall2_lookup_r _ _ _ _ _ Hts Ej) as (p & Hp & Hconf).
  destruct t as [[] | w | X a k | t k | i k]; simpl in *; try done.
  destruct (act a s) as [x s'] eqn:Ea. injection Hstep as <-.
  destruct Hconf as [Ha Hk]. split.
  - exists used. split; [done |]. split; [| done]. simpl.
    rewrite <- (list_insert_id used j p Hp). apply Forall2_insert; [done |]. apply Hk.
  - unfold drain. simpl.
    rewrite <- (take_drop_middle ts j _ Ej) at 1.
    rewrite (insert_take_drop ts j) by (by eapply lookup_lt_Some).
    rewrite !drain_with_app, drain_with_step. simpl.
    assert (Hpre : Forall2 (fun q t => confined q t) (take j used) (take j ts))
      by (by apply Forall2_take).
    assert (Hfresh : Forall (independent p) (take j used)).
    { apply (separate_before _ p (drop (S j) used)). by rewrite take_drop_middle. }
    destruct (run_tasks_commute a p _ _ Ha (or_introl Hfresh) Hpre s) as [Hans [Hrs Hs]].
    rewrite Ea in *. simpl in *. rewrite Hrs, Hans.
    apply drain_with_same_content. by apply same_content_sym.
Qed.

Lemma step_preserves who c c' :
  step who c = Some c' -> well_formed c ->
  well_formed c' /\ agree3 (drain c) (drain c').
Proof.
  destruct c as [m ts s]. destruct who as [| j].
  - apply step_main_preserves.
  - apply step_task_preserves.
Qed.

Lemma interleave_preserves schedule c c' :
  interleave schedule c = Some c' -> well_formed c ->
  well_formed c' /\ agree3 (drain c) (drain c').
Proof.
  revert c. induction schedule as [| who rest IH]; intros c; simpl.
  - intros [= <-] Hwf. split; [done | apply agree3_refl].
  - destruct (step who c) as [c1 |] eqn:Es; [| done]. intros Hrest Hwf.
    destruct (step_preserves who c c1 Es Hwf) as [Hwf1 Hag1].
    destruct (IH c1 Hrest Hwf1) as [Hwf' Hag']. split; [done |].
    by eapply agree3_trans.
Qed.

Lemma drain_terminated c :
  terminated c = true ->
  exists res rs,
    ended (main_thread c) = Some res /\
    Forall2 (fun t r => ended t = Some r) (tasks c) rs /\
    drain c = (res, shared c, rs).
Proof.
  unfold terminated. intros [Hm Hts]%andb_true_iff. unfold is_ended in Hm.
  destruct (ended (main_thread c)) as [res |] eqn:Em; [| done].
  destruct (run_tasks_all_ended (tasks c) (shared c) Hts) as (rs & Hrun & Hall).
  exists res, rs. split; [done |]. split; [done |].
  unfold drain, drain_with. rewrite Hrun. simpl. by apply run_ended.
Qed.

(** However the threads interleave, a disciplined program ends as its
    sequential execution does. *)
Lemma interleave_as_run m s schedule c' :
  disciplined [] m ->
  interleave schedule (start m s) = Some c' -> terminated c' = true ->
  ended (main_thread c') = Some (run m s []).1.1 /\
  same_content (run m s []).1.2 (shared c') /\
  Forall2 (fun t r => ended t = Some r) (tasks c') (run m s []).2.
Proof.
  intros Hm Hrun Hterm.
  assert (Hwf : well_formed (start m s)).
  { exists []. split; [constructor |]. split; [constructor | done]. }
  destruct (interleave_preserves _ _ _ Hrun Hwf) as [_ (H1 & H2 & H3)].
  destruct (drain_terminated c' Hterm) as (res & rs & Hres & Hrs & Hdrain).
  rewrite Hdrain in *. unfold drain, drain_with, start in *. simpl in *.
  rewrite Hres. split; [by rewrite H1 |]. split; [exact H2 |]. by rewrite H3.
Qed.

Lemma prog_unit_ind (P : prog unit -> Prop) :
  (forall v, P (Ret v)) ->
  (forall w, P (Throw w)) ->
  (forall X (a : action X) k, (forall x, P (k x)) -> P (Do a k)) ->
  (forall t k, P t -> (forall i, P (k i)) -> P (Async t k)) ->
  (forall i k, (forall r, P (k r)) -> P (FutureGet i k)) ->
  forall t, P t.
Proof.
  intros HRet HThrow HDo HAsync HGet.
  fix IH 1. intros [v | w | X a k | t k | i k].
  - apply HRet.
  - apply HThrow.
  - apply HDo. intros x. apply IH.
  - apply HAsync; [apply IH | intros i; apply IH].
  - apply HGet. intros r. apply IH.
Qed.

Lemma interleave_app s1 s2 c :
  interleave (s1 ++ s2) c =
  match interleave s1 c with Some c1 => interleave s2 c1 | None => None end.
Proof.
  revert c. induction s1 as [| who s1 IH]; intros c; simpl; [done |].
  destruct (step who c); [apply IH | done].
Qed.

Lemma task_completes_among p (t : prog unit) :
  confined p t ->
  forall m ts post s,
    exists schedule t' s',
      interleave schedule (mkConfig m (ts ++ t :: post) s)
        = Some (mkConfig m (ts ++ t' :: post) s') /\
      is_ended t' = true.
Proof.
  induction t as [v | w | X a k IH | t k _ _ | i k _] using prog_unit_ind;
    intros Ht m ts post s; simpl in Ht; try done.
  - by exists [], (Ret v), s.
  - by exists [], (Throw w), s.
  - destruct Ht as [_ Hk]. destruct (act a s) as [x s1] eqn:Ea.
    destruct (IH x (Hk x) m ts post s1) as (schedule & t' & s' & Hrun & Hend).
    exists (S (length ts) :: schedule), t', s'. split; [| done].
    simpl. rewrite list_lookup_middle by done. simpl. rewrite Ea.
    rewrite insert_app_r_alt by lia. rewrite Nat.sub_diag. simpl. exact Hrun.
Qed.

Lemma task_completes p (t : prog unit) :
  confined p t ->
  forall m ts s,
    exists schedule t' s',
      interleave schedule (mkConfig m (ts ++ [t]) s) = Some (mkConfig m (ts ++ [t']) s') /\
      is_ended t' = true.
Proof. intros Ht m ts s. apply (task_completes_among p t Ht m ts [] s). Qed.

Lemma disciplined_bind_assoc {A B C : Type} used (m : prog A) (f : A -> prog B)
    (g : B -> prog C) :
  disciplined used (bind m (fun x => bind (f x) g)) ->
  disciplined used (bind (bind m f) g).
Proof.
  revert used. induction m as [A a | A w | A X a k IH | A t IHt k IH | A i k IH];
    intros used; simpl; try done.
  - intros [Ha Hk]. split; [done |]. intros x. by apply IH, Hk.
  - intros (p & Hp & Hconf & Hk). exists p. split; [done |]. split; [done |]. by apply IH.
  - intros [Hi Hk]. split; [done |]. intros r. by apply IH.
Qed.

Lemma disciplined_bind_logs {A B : Type} used (m : prog A) (f : A -> prog B) :
  logs_only m -> (forall a, may_return m a -> disciplined used (f a)) ->
  disciplined used (bind m f).
Proof.
  intros Hm Hf. induction m as [A a | A w | A X a k IH | A t IHt k IH | A i k IH];
    simpl in *; try done.
  - by apply Hf.
  - destruct Hm as [Ha Hk]. split; [by left |]. intros x. apply IH; [done |].
    intros v Hv. apply Hf. by exists x.
Qed.

Lemma disciplined_bind_confined {A B : Type} p (m : prog A) (f : A -> prog B) :
  confined p m -> (forall a, disciplined [] (f a)) -> disciplined [] (bind m f).
Proof.
  intros Hm Hf. induction m as [A a | A w | A X a k IH | A t IHt k IH | A i k IH];
    simpl in *; try done.
  destruct Hm as [Ha Hk]. split; [by right |]. intros x. by apply IH.
Qed.

Lemma disciplined_joinAll used futures :
  Forall (fun i => i < length used) futures -> disciplined used (joinAll futures).
Proof.
  unfold joinAll. induction 1 as [| i futures Hi Hall IH]; simpl; [done |].
  split; [done |]. intros [w |]; simpl.
  - split; [by left |]. intros _. exact IH.
  - exact IH.
Qed.

End Interleavings.

(** ** Interleavings: what holds whatever the files of the tasks *)

Section Reachable.

Context `{T : Tree}.

(** *** Properties of every action *)

Lemma within_every {A : Type} (P : string -> Prop) (m : prog A) :
  within P m -> every (fun X a => forall q, touched a = Some q -> P q) m.
Proof.
  induction m as [A a | A w | A X a k IH | A t IHt k IH | A i k IH]; simpl; try done.
  - intros [Ha Hk]. split; [done |]. intros x. by apply IH.
  - intros [Ht Hk]. split; [by apply IHt |]. intros i. by apply IH.
  - intros Hk r. by apply IH.
Qed.

Lemma read_only_every {A : Type} (m : prog A) :
  read_only m -> every (fun X a => writes_nothing a) m.
Proof.
  induction m as [A a | A w | A X a k IH | A t IHt k IH | A i k IH]; simpl; try done.
  - intros [Ha Hk]. split; [done |]. intros x. by apply IH.
  - intros [Ht Hk]. split; [by apply IHt |]. intros i. by apply IH.
  - intros Hk r. by apply IH.
Qed.

Lemma logs_satisfy_every {A : Type} Q (m : prog A) :
  logs_satisfy Q m -> every (fun X a => Forall Q (logged a)) m.
Proof.
  induction m as [A a | A w | A X a k IH | A t IHt k IH | A i k IH]; simpl; try done.
  - intros [Ha Hk]. split; [done |]. intros x. by apply IH.
  - intros [Ht Hk]. split; [by apply IHt |]. intros i. by apply IH.
  - intros Hk r. by apply IH.
Qed.

(** A relation between environments that every action in [phi] respects
    holds between the start and whatever an interleaving reaches. *)
Lemma interleave_every (phi : forall X, action X -> Prop) (R : state -> state -> Prop) :
  (forall s, R s s) ->
  (forall s1 s2 s3, R s1 s2 -> R s2 s3 -> R s1 s3) ->
  (forall X (a : action X) s, phi X a -> R s (act a s).2) ->
  forall schedule c c',
    interleave schedule c = Some c' ->
    every phi (main_thread c) -> Forall (every phi) (tasks c) ->
    R (shared c) (shared c').
Proof.
  intros Hrefl Htrans Hact.
  induction schedule as [| who rest IH]; intros c c'; simpl.
  - intros [= <-] _ _. apply Hrefl.
  - destruct (step who c) as [c1 |] eqn:Es; [| done]. intros Hrest Hm Hts.
    assert (H1 : R (shared c) (shared c1) /\ every phi (main_thread c1) /\
                 Forall (every phi) (tasks c1)).
    { destruct c as [m ts s]. destruct who as [| j]; simpl in *.
      - destruct m as [v | w | X a k | t k | i k]; simpl in *; try done.
        + destruct (act a s) as [x s'] eqn:Ea. injection Es as <-. simpl.
          destruct Hm as [Ha Hk]. split; [| by split].
          replace s' with (act a s).2 by (by rewrite Ea). by apply Hact.
        + injection Es as <-. simpl. destruct Hm as [Ht Hk]. split; [apply Hrefl |].
          split; [done |]. apply Forall_app. split; [done |]. by constructor.
        + destruct (ts !! i) as [t' |]; [| done].
          destruct (ended t') as [[u | e] |]; try done; injection Es as <-; simpl;
            (split; [apply Hrefl |]; by split).
      - destruct (ts !! j) as [t |] eqn:Ej; [| done].
        pose proof (Forall_lookup_1 _ _ _ _ Hts Ej) as Ht.
        destruct t as [v | w | X a k | t k | i k]; simpl in *; try done.
        + destruct (act a s) as [x s'] eqn:Ea. injection Es as <-. simpl.
          destruct Ht as [Ha Hk]. split; [| split; [done |]].
          * replace s' with (act a s).2 by (by rewrite Ea). by apply Hact.
          * apply Forall_insert; [done | apply Hk].
        + injection Es as <-. simpl. destruct Ht as [Ht Hk]. split; [apply Hrefl |].
          split; [done |]. apply Forall_insert; [| apply Hk].
          apply Forall_app. split; [done |]. by constructor.
        + destruct ((ts !! i)) as [t' |]; [| done].
          destruct (ended t') as [[u | e] |]; try done; injection Es as <-; simpl;
            (split; [apply Hrefl |]; split; [done |]; apply Forall_insert; [done | apply Ht]). }
    destruct H1 as (HR & Hm1 & Hts1). eapply Htrans; [exact HR |]. by apply (IH c1 c').
Qed.

(** Whatever the schedule, a program that stays within [P] opens, reads and
    writes paths of [P] only and leaves as it was every file that no path of
    [P] names. *)
Lemma interleave_within (P : string -> Prop) (m : prog unit) s schedule c' :
  within P m ->
  interleave schedule (start m s) = Some c' ->
  (exists extra, ops (shared c') = ops s ++ extra /\
                 Forall (fun o => P (op_path o)) extra) /\
  (forall file, (forall q, P q -> file_of q <> Some file) ->
                files (shared c') !! file = files s !! file).
Proof.
  intros Hm Hrun.
  apply (interleave_every (fun X a => forall q, touched a = Some q -> P q)
           (fun s1 s2 =>
              (exists extra, ops s2 = ops s1 ++ extra /\
                             Forall (fun o => P (op_path o)) extra) /\
              (forall file, (forall q, P q -> file_of q <> Some file) ->
                            files s2 !! file = files s1 !! file))
           ltac:(intros s0; split; [exists []; by rewrite app_nil_r | done])
           ltac:(intros s1 s2 s3 [(e1 & H1 & Ha1) Hf1] [(e2 & H2 & Ha2) Hf2]; split;
                 [exists (e1 ++ e2); rewrite H2, H1, app_assoc; split; [done |];
                  by apply Forall_app
                 | intros file Hfile; by rewrite Hf2, Hf1])
           ltac:(intros X a s0 Ha; split;
                 [destruct (act_ops a s0) as (extra & Hops & Hall); exists extra;
                  split; [done |]; eapply Forall_impl; [exact Hall |];
                  intros o Ho; by apply Ha
                 | intros file Hfile; apply act_files_other; intros q Hq;
                   by apply Hfile, Ha])
           schedule (start m s) c' Hrun).
  - by apply within_every.
  - constructor.
Qed.

Lemma act_writes_nothing {X : Type} (a : action X) s :
  writes_nothing a ->
  files (act a s).2 = files s /\
  exists extra, ops (act a s).2 = ops s ++ extra /\ forallb is_read extra = true.
Proof.
  destruct a; simpl; try done; intros _; split; try done;
    first [by exists []; rewrite app_nil_r | by eexists].
Qed.

(** Whatever the schedule, a read-only program leaves every file as it was,
    and only opens files for reading and reads them. *)
Lemma interleave_read_only (m : prog unit) s schedule c' :
  read_only m ->
  interleave schedule (start m s) = Some c' ->
  files (shared c') = files s /\
  exists extra, ops (shared c') = ops s ++ extra /\ forallb is_read extra = true.
Proof.
  intros Hm Hrun.
  apply (interleave_every (fun X a => writes_nothing a)
           (fun s1 s2 =>
              files s2 = files s1 /\
              exists extra, ops s2 = ops s1 ++ extra /\ forallb is_read extra = true)
           ltac:(intros s0; split; [done |]; exists []; by rewrite app_nil_r)
           ltac:(intros s1 s2 s3 [Hf1 (e1 & H1 & Ha1)] [Hf2 (e2 & H2 & Ha2)]; split;
                 [congruence |]; exists (e1 ++ e2);
                 rewrite H2, H1, app_assoc, forallb_app, Ha1, Ha2; by split)
           ltac:(intros X a s0 Ha; by apply act_writes_nothing)
           schedule (start m s) c' Hrun).
  - by apply read_only_every.
  - constructor.
Qed.

(** Whatever the schedule, the lines logged are in [Q]. *)
Lemma interleave_logs_satisfy Q (m : prog unit) s schedule c' :
  logs_satisfy Q m ->
  interleave schedule (start m s) = Some c' ->
  exists extra, log (shared c') = log s ++ extra /\ Forall Q extra.
Proof.
  intros Hm Hrun.
  apply (interleave_every (fun X a => Forall Q (logged a))
           (fun s1 s2 => exists extra, log s2 = log s1 ++ extra /\ Forall Q extra)
           ltac:(intros s0; exists []; by rewrite app_nil_r)
           ltac:(intros s1 s2 s3 (e1 & H1 & Ha1) (e2 & H2 & Ha2); exists (e1 ++ e2);
                 rewrite H2, H1, app_assoc; split; [done |]; by apply Forall_app)
           ltac:(intros X a s0 Ha; exists (logged a); by rewrite act_decompose)
           schedule (start m s) c' Hrun).
  - by apply logs_satisfy_every.
  - constructor.
Qed.

(** *** The caller and its jobs *)

Lemma ended_never_throws (t : prog unit) res :
  never_throws t -> ended t = Some res -> t = Ret tt /\ res = Returned tt.
Proof. destruct t as [[] | e | | |]; simpl; try done. by intros _ [= <-]. Qed.

Lemma step_orderly who c c' : step who c = Some c' -> orderly c -> orderly c'.
Proof.
  destruct c as [m ts s]. intros Hstep (pending & Hm & Hts & Hend). simpl in *.
  destruct who as [| j]; simpl in Hstep.
  - destruct m as [v | w | X a k | t k | i k]; simpl in *; try done.
    + destruct (act a s) as [x s'] eqn:Ea. injection Hstep as <-.
      exists pending. simpl. split; [apply Hm |]. by split.
    + injection Hstep as <-. destruct Hm as (Hconf & Hnever & Hk).
      exists (pending ++ [length ts]). simpl. split; [| split].
      * rewrite length_app. simpl. by rewrite Nat.add_1_r.
      * apply Forall_app. split; [done |]. by repeat constructor.
      * intros i t0 Hi Hnot. rewrite elem_of_app, list_elem_of_singleton in Hnot.
        destruct (decide (i < length ts)) as [Hlt | Hge].
        -- rewrite lookup_app_l in Hi by done. apply (Hend i t0 Hi). tauto.
        -- apply lookup_lt_Some in Hi. rewrite length_app in Hi. simpl in Hi.
           exfalso. apply Hnot. right. lia.
    + destruct (ts !! i) as [t' |] eqn:Ei; [| done].
      destruct (ended t') as [res |] eqn:Ee; [| done]. destruct Hm as [Hi Hk].
      exists (List.filter (fun j => negb (Nat.eqb j i)) pending).
      assert (Hc' : c' = mkConfig (k (match res with Raised e => Some e | _ => None end)) ts s)
        by (destruct res; by injection Hstep as <-).
      subst c'. simpl. split; [apply Hk |]. split; [done |].
      intros j t0 Hj Hnot. destruct (decide (j = i)) as [-> | Hne].
      * rewrite Ei in Hj. injection Hj as <-. unfold is_ended. by rewrite Ee.
      * apply (Hend j t0 Hj). intros Hin. apply Hnot. apply list_elem_of_In, filter_In.
        split; [by apply list_elem_of_In |]. apply negb_true_iff, Nat.eqb_neq. done.
  - destruct (ts !! j) as [t |] eqn:Ej; [| done].
    destruct (Forall_lookup_1 _ _ _ _ Hts Ej) as [[p Hconf] Hnever].
    destruct t as [v | w | X a k | t k | i k]; simpl in *; try done.
    destruct (act a s) as [x s'] eqn:Ea. injection Hstep as <-.
    exists pending. simpl. rewrite length_insert. split; [done |]. split.
    + apply Forall_insert; [done |]. split; [exists p; apply Hconf | apply Hnever].
    + intros i t0 Hi Hnot. destruct (decide (i = j)) as [-> | Hne].
      * by specialize (Hend j _ Ej Hnot).
      * rewrite list_lookup_insert_ne in Hi by done. by apply (Hend i t0 Hi).
Qed.

Lemma interleave_orderly schedule c c' :
  interleave schedule c = Some c' -> orderly c -> orderly c'.
Proof.
  revert c. induction schedule as [| who rest IH]; intros c; simpl.
  - by intros [= <-].
  - destruct (step who c) as [c1 |] eqn:Es; [| done]. intros Hrest Hc.
    apply (IH c1 Hrest). by eapply step_orderly.
Qed.

Lemma orderly_start (m : prog unit) s : caller 0 [] m -> orderly (start m s).
Proof.
  intros Hm. exists []. simpl. split; [done |]. split; [constructor |]. by intros i t.
Qed.

(** The last loop of [convert] at work: once the caller has returned, every
    task has returned. *)
Lemma orderly_returned c v :
  orderly c -> main_thread c = Ret v -> Forall (fun t => t = Ret tt) (tasks c).
Proof.
  intros (pending & Hm & Hts & Hend) Hv. rewrite Hv in Hm. simpl in Hm. subst pending.
  apply Forall_lookup_2. intros i t Hi.
  destruct (Forall_lookup_1 _ _ _ _ Hts Hi) as [_ Hnever].
  specialize (Hend i t Hi ltac:(apply not_elem_of_nil)). unfold is_ended in Hend.
  destruct (ended t) as [res |] eqn:Ee; [| done].
  by destruct (ended_never_throws t res Hnever Ee).
Qed.

(** No task is ever in a thrown state. *)
Lemma orderly_no_exception c :
  orderly c -> Forall (fun t => forall e, t <> Throw e) (tasks c).
Proof.
  intros (pending & _ & Hts & _). eapply Forall_impl; [exact Hts |].
  intros t [_ Hnever] e ->. done.
Qed.

Lemma tasks_complete m ts :
  Forall (fun t => exists p, confined p t) ts ->
  forall pre s,
    exists schedule ts' s',
      interleave schedule (mkConfig m (pre ++ ts) s) = Some (mkConfig m (pre ++ ts') s') /\
      forallb is_ended ts' = true /\ length ts' = length ts.
Proof.
  induction 1 as [| t ts [p Hp] Hts IH]; intros pre s.
  - by exists [], [], s.
  - destruct (task_completes_among p t Hp m pre ts s) as (sched1 & t' & s1 & Hrun1 & Hend).
    destruct (IH (pre ++ [t']) s1) as (sched2 & ts' & s2 & Hrun2 & Hends & Hlen).
    exists (sched1 ++ sched2), (t' :: ts'), s2. split; [| split].
    + rewrite interleave_app, Hrun1.
      rewrite <- !app_assoc in Hrun2. exact Hrun2.
    + simpl. by rewrite Hend, Hends.
    + simpl. by rewrite Hlen.
Qed.

Lemma caller_completes (m : prog unit) :
  forall n pending ts s,
    caller n pending m -> length ts = n -> forallb is_ended ts = true ->
    exists schedule c',
      interleave schedule (mkConfig m ts s) = Some c' /\ terminated c' = true.
Proof.
  induction m as [v | w | X a k IH | t k _ IH | i k IH] using prog_unit_ind;
    intros n pending ts s Hm Hlen Hts; simpl in Hm.
  - exists [], (mkConfig (Ret v) ts s). split; [done |]. unfold terminated. simpl. done.
  - exists [], (mkConfig (Throw w) ts s). split; [done |]. unfold terminated. simpl. done.
  - destruct Hm as [_ Hk]. destruct (act a s) as [x s1] eqn:Ea.
    destruct (IH x n pending ts s1 (Hk x) Hlen Hts) as (schedule & c' & Hrun & Hterm).
    exists (0 :: schedule), c'. split; [| done]. simpl. by rewrite Ea.
  - destruct Hm as ([p Hconf] & Hnever & Hk).
    destruct (task_completes p t Hconf (k (length ts)) ts s)
      as (sched1 & t' & s1 & Hrun1 & Hend).
    destruct (IH (length ts) (S n) (pending ++ [n]) (ts ++ [t']) s1)
      as (sched2 & c' & Hrun2 & Hterm).
    + by rewrite Hlen.
    + rewrite !length_app. simpl. lia.
    + rewrite forallb_app. simpl. by rewrite Hts, Hend.
    + exists (0 :: sched1 ++ sched2), c'. split; [| done].
      simpl. by rewrite interleave_app, Hrun1.
  - destruct Hm as [Hi Hk]. rewrite <- Hlen in Hi.
    destruct (lookup_lt_is_Some_2 ts i Hi) as [t' Ht'].
    assert (He : is_ended t' = true).
    { rewrite forallb_forall in Hts. apply Hts. apply list_elem_of_In.
      apply list_elem_of_lookup. eauto. }
    unfold is_ended in He. destruct (ended t') as [res |] eqn:Ee; [| done].
    destruct (IH (match res with Raised w => Some w | Returned _ => None end)
                 n _ ts s (Hk _) Hlen Hts) as (schedule & c' & Hrun & Hterm).
    exists (0 :: schedule), c'. split; [| done]. simpl. rewrite Ht', Ee.
    by destruct res.
Qed.

(** No deadlock: whatever has been done so far, the run can be brought to
    its end. *)
Lemma orderly_completes c :
  orderly c ->
  exists schedule c', interleave schedule c = Some c' /\ terminated c' = true.
Proof.
  destruct c as [m ts s]. intros Hc.
  assert (Hjobs : Forall (fun t => exists p, confined p t) ts).
  { destruct Hc as (pending & _ & Hts & _). eapply Forall_impl; [exact Hts |].
    by intros t [Hp _]. }
  destruct (tasks_complete m ts Hjobs [] s) as (sched1 & ts' & s1 & Hrun1 & Hends & Hlen).
  simpl in Hrun1.
  pose proof (interleave_orderly _ _ _ Hrun1 Hc) as (pending & Hm & _ & _). simpl in Hm.
  destruct (caller_completes m _ pending ts' s1 Hm eq_refl Hends)
    as (sched2 & c' & Hrun2 & Hterm).
  exists (sched1 ++ sched2), c'. split; [| done]. by rewrite interleave_app, Hrun1.
Qed.

(** *** The caller does not depend on its tasks *)

Lemma started_mono s s' t0 t :
  (forall o, o ∈ ops s -> o ∈ ops s') -> started s t0 t -> started s' t0 t.
Proof. intros Hops [-> | H]; [by left | right]. intros o Ho. by apply Hops, H. Qed.

Lemma alone_ended (t : prog unit) res s lch :
  ended t = Some res -> alone t s lch = (res, s, lch).
Proof. destruct t as [[] | e | | |]; simpl; intros [= <-]; done. Qed.

Lemma step_alone who c c' sm lch :
  step who c = Some c' -> orderly c ->
  length lch = length (tasks c) ->
  (forall line, line ∈ log sm -> line ∈ log (shared c)) ->
  (tasks c = [] -> sm = shared c) ->
  Forall2 (started (shared c)) lch (tasks c) ->
  exists sm' lch',
    alone (main_thread c') sm' lch' = alone (main_thread c) sm lch /\
    length lch' = length (tasks c') /\
    (forall line, line ∈ log sm' -> line ∈ log (shared c')) /\
    (tasks c' = [] -> sm' = shared c') /\
    Forall2 (started (shared c')) lch' (tasks c').
Proof.
  destruct c as [m ts s]. intros Hstep (pending & Hm & Hts & Hend) Hlen Hlog Hsame Hst.
  simpl in *. destruct who as [| j]; simpl in Hstep.
  - destruct m as [v | w | X a k | t k | i k]; simpl in *; try done.
    + destruct (act a s) as [x s'] eqn:Ea. injection Hstep as <-. simpl.
      destruct Hm as [[Hl | Hn] Hk].
      * destruct a; try done. simpl in Ea. injection Ea as <- <-.
        exists (mkState (files sm) (log sm ++ [(level, message)]) (ops sm)), lch.
        simpl. split; [done |]. split; [done |]. split; [| split].
        -- intros line [Hin | Hin]%elem_of_app; apply elem_of_app; [left | right]; auto.
        -- intros Hnil. by rewrite (Hsame Hnil).
        -- eapply Forall2_impl; [exact Hst |]. intros t0 t. by apply started_mono.
      * destruct ts; [| done]. rewrite (Hsame eq_refl), Ea.
        exists s', lch. simpl. split; [done |]. split; [done |]. split; [done |].
        split; [done |]. apply Forall2_nil_inv_r in Hst as ->. constructor.
    + injection Hstep as <-. simpl. exists sm, (lch ++ [t]). rewrite Hlen.
      split; [done |]. split; [rewrite !length_app; simpl; lia |]. split; [done |].
      split; [by destruct ts |]. apply Forall2_app; [done |]. repeat constructor.
    + destruct (ts !! i) as [t' |] eqn:Ei; [| done].
      destruct (ended t') as [res |] eqn:Ee; [| done].
      destruct (Forall_lookup_1 _ _ _ _ Hts Ei) as [_ Hnever].
      destruct (ended_never_throws t' res Hnever Ee) as [_ ->].
      injection Hstep as <-. simpl. by exists sm, lch.
  - destruct (ts !! j) as [t |] eqn:Ej; [| done].
    destruct (Forall_lookup_1 _ _ _ _ Hts Ej) as [[p Hconf] Hnever].
    destruct t as [v | w | X a k | t k | i k]; simpl in *; try done.
    destruct (act a s) as [x s'] eqn:Ea. injection Hstep as <-. simpl.
    assert (Hs' : s' = (act a s).2) by (by rewrite Ea).
    assert (Hops : forall o, o ∈ ops s -> o ∈ ops s').
    { intros o Ho. pose proof (act_ops a s) as (extra & Hx & _).
      rewrite Ea in Hx. simpl in Hx. rewrite Hx. apply elem_of_app. by left. }
    exists sm, lch. split; [done |]. split; [by rewrite length_insert |]. split; [| split].
    + intros line Hin. pose proof (act_log a s) as (extra & Hl).
      rewrite Ea in Hl. simpl in Hl. rewrite Hl. apply elem_of_app. left. by apply Hlog.
    + intros Hnil. apply (f_equal length) in Hnil. rewrite length_insert in Hnil.
      apply lookup_lt_Some in Ej. simpl in Hnil. lia.
    + destruct (Forall2_lookup_r _ _ _ _ _ Hst Ej) as (t0 & Ht0 & Hstart).
      rewrite <- (list_insert_id lch j t0 Ht0). apply Forall2_insert.
      * eapply Forall2_impl; [exact Hst |]. intros u0 u. by apply started_mono.
      * right. intros o Ho. destruct Hstart as [<- | Hstart]; [| by apply Hops, Hstart].
        simpl in Ho. rewrite Hs', act_decompose. simpl. apply elem_of_app. by right.
Qed.

(** Whatever the schedule, the caller's thread proceeds as it does alone:
    what is left of it, run alone from the lines it has logged so far, ends
    as the whole does alone; every task it has launched is there, and has
    made its first step or not started. *)
Lemma interleave_alone (m : prog unit) s schedule c' :
  caller 0 [] m ->
  interleave schedule (start m s) = Some c' ->
  orderly c' /\
  exists sm lch,
    alone (main_thread c') sm lch = alone m s [] /\
    length lch = length (tasks c') /\
    (forall line, line ∈ log sm -> line ∈ log (shared c')) /\
    (tasks c' = [] -> sm = shared c') /\
    Forall2 (started (shared c')) lch (tasks c').
Proof.
  intros Hm Hrun. split; [by eapply interleave_orderly; [| apply orderly_start] |].
  assert (Hgen : forall schedule c c' sm lch,
             interleave schedule c = Some c' -> orderly c ->
             length lch = length (tasks c) ->
             (forall line, line ∈ log sm -> line ∈ log (shared c)) ->
             (tasks c = [] -> sm = shared c) ->
             Forall2 (started (shared c)) lch (tasks c) ->
             exists sm' lch',
               alone (main_thread c') sm' lch' = alone (main_thread c) sm lch /\
               length lch' = length (tasks c') /\
               (forall line, line ∈ log sm' -> line ∈ log (shared c')) /\
               (tasks c' = [] -> sm' = shared c') /\
               Forall2 (started (shared c')) lch' (tasks c')).
  { clear. induction schedule as [| who rest IH]; intros c c' sm lch; simpl.
    - intros [= <-] _ H1 H2 H3 H4. by exists sm, lch.
    - destruct (step who c) as [c1 |] eqn:Es; [| done]. intros Hrest Hc H1 H2 H3 H4.
      destruct (step_alone who c c1 sm lch Es Hc H1 H2 H3 H4)
        as (sm1 & lch1 & Heq & G1 & G2 & G3 & G4).
      destruct (IH c1 c' sm1 lch1 Hrest (step_orderly _ _ _ Es Hc) G1 G2 G3 G4)
        as (sm' & lch' & Heq' & G').
      exists sm', lch'. split; [congruence | done]. }
  apply (Hgen schedule (start m s) c' s [] Hrun (orderly_start m s Hm)); simpl; try done.
Qed.

End Reachable.
(** ** The structure of [convert] *)

Section Structure.

Context `{L : Libraries} `{T : Tree}.

Lemma may_return_walk_end {A : Type} root (a b : A) :
    may_return (walk_end root a) b -> b = a.
  Proof. unfold walk_end. destruct (walk root).2; simpl; [done | by intros ->]. Qed.

Lemma may_return_is_directory path b :
    may_return (is_directory path) b -> is_dir (status path) = b.
  Proof. unfold is_directory. by destruct (status path). Qed.

Lemma caller_bind_assoc {A B C : Type} n pending (m : prog A) (f : A -> prog B)
      (g : B -> prog C) :
    caller n pending (bind m (fun x => bind (f x) g)) ->
    caller n pending (bind (bind m f) g).
  Proof.
    revert n pending. induction m as [A a | A w | A X a k IH | A t IHt k IH | A i k IH];
      intros n pending; simpl; try done.
    - intros [Ha Hk]. split; [done |]. intros x. by apply IH, Hk.
    - intros (Hp & Hnever & Hk). split; [done |]. split; [done |]. by apply IH.
    - intros [Hi Hk]. split; [done |]. intros r. by apply IH.
  Qed.

Lemma caller_bind_logs {A B : Type} n pending (m : prog A) (f : A -> prog B) :
    logs_only m -> (forall a, may_return m a -> caller n pending (f a)) ->
    caller n pending (bind m f).
  Proof.
    intros Hm Hf. induction m as [A a | A w | A X a k IH | A t IHt k IH | A i k IH];
      simpl in *; try done.
    - by apply Hf.
    - destruct Hm as [Ha Hk]. split; [by left |]. intros x. apply IH; [done |].
      intros v Hv. apply Hf. by exists x.
  Qed.

Lemma caller_bind_confined {A B : Type} p (m : prog A) (f : A -> prog B) :
    confined p m -> (forall a, caller 0 [] (f a)) -> caller 0 [] (bind m f).
  Proof.
    intros Hm Hf. induction m as [A a | A w | A X a k IH | A t IHt k IH | A i k IH];
      simpl in *; try done.
    destruct Hm as [Ha Hk]. split; [by right |]. intros x. by apply IH.
  Qed.

Lemma caller_joinAll n futures :
    Forall (fun i => i < n) futures ->
    forall pending, (forall i, i ∈ pending -> i ∈ futures) ->
                    caller n pending (joinAll futures).
  Proof.
    unfold joinAll. induction 1 as [| i futures Hi Hall IH]; intros pending Hsub; simpl.
    - destruct pending as [| j pending]; [done |].
      specialize (Hsub j (list_elem_of_here _ _)). by apply elem_of_nil in Hsub.
    - split; [done |].
      assert (Hrest : forall j, j ∈ List.filter (fun j => negb (Nat.eqb j i)) pending ->
                                j ∈ futures).
      { intros j Hj. apply list_elem_of_In, filter_In in Hj as [Hj Hne].
        apply list_elem_of_In, Hsub, elem_of_cons in Hj as [-> | Hj]; [| done].
        by rewrite Nat.eqb_refl in Hne. }
      intros [e |]; simpl.
      + split; [by left |]. intros _. by apply IH.
      + by apply IH.
  Qed.

  (** Whatever the tree, [convert] is a caller whose tasks are guarded jobs
      and that returns only once it has waited for each of them. *)
Lemma caller_convert path to src filter : caller 0 [] (convert path to src filter).
  Proof.
    unfold convert.
    apply caller_bind_logs; [apply logs_only_checkTarget |]. intros mapped _.
    apply caller_bind_logs; [apply logs_only_is_directory |]. intros isdir _.
    destruct isdir.
    - apply caller_bind_assoc. apply caller_bind_logs; [by simpl |]. intros _ _.
      unfold for_each_entry_with. apply caller_bind_assoc.
      generalize (walk path).1 as dir. intros dir.
      assert (Hloop : forall n futures,
                 Forall (fun i => i < n) futures ->
                 caller n futures
                   (let* futures' := for_each_with dir (launchEntry mapped src filter) futures in
                    let* futures'' := walk_end path futures' in joinAll futures'')).
      { induction dir as [| [p regular] dir IH]; intros n futures Hfut.
        - cbn [for_each_with bind]. apply caller_bind_logs; [apply logs_only_walk_end |].
          intros futures' ->%may_return_walk_end. by apply caller_joinAll.
        - cbn [for_each_with]. apply caller_bind_assoc.
          unfold launchEntry at 1. destruct regular; cbn [snd fst].
          + apply caller_bind_assoc.
            apply caller_bind_logs; [apply logs_only_shouldProcessFile |].
            intros [] _.
            * cbn [bind caller]. split; [exists p; apply confined_guardedConvertFile |].
              split; [apply never_throws_guardedConvertFile |].
              apply IH. apply Forall_app. split.
              -- eapply Forall_impl; [exact Hfut |]. intros i Hi. cbn beta in Hi. lia.
              -- constructor; [lia | constructor].
            * cbn [bind]. by apply IH.
          + apply caller_bind_assoc.
            apply caller_bind_logs; [by simpl |]. intros _ _. cbn [bind]. by apply IH. }
      apply Hloop. constructor.
    - apply caller_bind_assoc.
      apply caller_bind_logs; [apply logs_only_is_regular_file |]. intros [] _.
      + apply caller_bind_assoc.
        apply (caller_bind_confined path); [apply confined_convertSingleFile |].
        intros _. by simpl.
      + apply caller_bind_assoc. apply caller_bind_logs; [by simpl |]. intros _ _. by simpl.
  Qed.

  (** When no two selected entries are one file, the tasks of [convert] work
      on files that differ pairwise. *)
Lemma disciplined_convert path to src filter :
    (is_dir (status path) = true -> alias_free path filter) ->
    disciplined [] (convert path to src filter).
  Proof.
    unfold alias_free, selected_paths, selected, convert. intros Hfree.
    apply disciplined_bind_logs; [apply logs_only_checkTarget |]. intros mapped _.
    apply disciplined_bind_logs; [apply logs_only_is_directory |]. intros isdir Hdir.
    destruct isdir.
    - apply may_return_is_directory in Hdir. specialize (Hfree Hdir).
      apply disciplined_bind_assoc. apply disciplined_bind_logs; [by simpl |]. intros _ _.
      unfold for_each_entry_with. apply disciplined_bind_assoc.
      revert Hfree. generalize (walk path).1 as dir. intros dir Hfree.
      assert (Hloop : forall used futures,
                 separate (used ++ (List.filter
                                      (fun e : string * bool =>
                                         e.2 && passes_filter (filename e.1) filter) dir).*1) ->
                 Forall (fun i => i < length used) futures ->
                 disciplined used
                   (let* futures' := for_each_with dir (launchEntry mapped src filter) futures in
                    let* futures'' := walk_end path futures' in joinAll futures'')).
      { clear Hfree. induction dir as [| [p regular] dir IH]; intros used futures Hsep Hfut.
        - cbn [for_each_with bind]. apply disciplined_bind_logs; [apply logs_only_walk_end |].
          intros futures' ->%may_return_walk_end. by apply disciplined_joinAll.
        - cbn [for_each_with]. apply disciplined_bind_assoc.
          unfold launchEntry at 1. cbn [List.filter fst snd] in Hsep.
          destruct regular; cbn [snd fst andb] in *.
          + apply disciplined_bind_assoc.
            apply disciplined_bind_logs; [apply logs_only_shouldProcessFile |].
            intros [] Hok.
            * apply may_return_shouldProcessFile in Hok. rewrite Hok in Hsep.
              cbn [fmap list_fmap] in Hsep.
              cbn [bind disciplined]. exists p. split; [| split].
              -- by apply separate_before in Hsep.
              -- apply confined_guardedConvertFile.
              -- apply IH.
                 ++ by rewrite <- app_assoc.
                 ++ apply Forall_app. split.
                    ** eapply Forall_impl; [exact Hfut |]. intros i Hi. cbn beta in Hi.
                       rewrite length_app. simpl. lia.
                    ** constructor; [| constructor]. rewrite length_app. simpl. lia.
            * cbn [bind]. apply IH; [| done].
              destruct (passes_filter (filename p) filter); [| done].
              cbn [fmap list_fmap] in Hsep. clear -Hsep.
              induction used as [| q used IHu]; simpl in *; [by destruct Hsep |].
              destruct Hsep as [Hq Hsep]. split; [| by apply IHu].
              rewrite Forall_app in Hq |- *. destruct Hq as [Hq1 Hq2]. split; [done |].
              by apply Forall_cons in Hq2 as [_ Hq2].
          + apply disciplined_bind_assoc.
            apply disciplined_bind_logs; [by simpl |]. intros _ _. cbn [bind].
            by apply IH. }
      apply Hloop; [done | constructor].
    - apply disciplined_bind_assoc.
      apply disciplined_bind_logs; [apply logs_only_is_regular_file |]. intros [] _.
      + apply disciplined_bind_assoc.
        apply (disciplined_bind_confined path); [apply confined_convertSingleFile |].
        intros _. by simpl.
      + apply disciplined_bind_assoc.
        apply disciplined_bind_logs; [by simpl |]. intros _ _. by simpl.
  Qed.

End Structure.

(** ** What the methods come to, run in sequence *)

Section RunFacts.

Context `{T : Tree}.

Lemma run_perform {X : Type} (a : action X) s pool :
  run (perform a) s pool = (Returned (act a s).1, (act a s).2, pool).
Proof. unfold perform. simpl. by destruct (act a s). Qed.

Lemma run_logs_only_pool {A : Type} (m : prog A) s pool :
  logs_only m -> run m s pool = ((run m s []).1, pool).
Proof. intros H. apply (run_confined EmptyString). by apply logs_only_confined. Qed.

Lemma all_returned (ts : list (prog unit)) rs :
  Forall2 (fun t r => ended t = Some r) ts rs ->
  Forall (fun r => r = Returned tt) rs ->
  Forall (fun t => ended t = Some (Returned tt)) ts.
Proof.
  induction 1 as [| t r ts rs Ht Hts IH]; intros Hrs; [constructor |].
  apply Forall_cons in Hrs as [-> Hrs]. constructor; [done | by apply IH].
Qed.

Lemma run_log_ops_grow {A : Type} (m : prog A) s pool :
  (exists extra, log (run m s pool).1.2 = log s ++ extra) /\
  (exists extra, ops (run m s pool).1.2 = ops s ++ extra).
Proof.
  revert s pool. induction m as [A a | A w | A X a k IH | A t IHt k IH | A i k IH];
    intros s pool; simpl.
  - split; exists []; by rewrite app_nil_r.
  - split; exists []; by rewrite app_nil_r.
  - destruct (act_log a s) as [l1 Hl1]. destruct (act_ops a s) as (o1 & Ho1 & _).
    destruct (act a s) as [x s1]. simpl in *.
    destruct (IH x s1 pool) as [[l2 Hl2] [o2 Ho2]]. split.
    + exists (l1 ++ l2). by rewrite Hl2, Hl1, app_assoc.
    + exists (o1 ++ o2). by rewrite Ho2, Ho1, app_assoc.
  - destruct (IHt s []) as [[l1 Hl1] [o1 Ho1]].
    destruct (run t s []) as [[r s1] pool1]. simpl in *.
    destruct (IH (length pool) s1 (pool ++ [r])) as [[l2 Hl2] [o2 Ho2]]. split.
    + exists (l1 ++ l2). by rewrite Hl2, Hl1, app_assoc.
    + exists (o1 ++ o2). by rewrite Ho2, Ho1, app_assoc.
  - destruct (pool !! i) as [[u | w] |]; apply IH.
Qed.

Lemma add_lines_nil s : add_lines [] s = s.
Proof. destruct s. unfold add_lines. simpl. by rewrite app_nil_r. Qed.

Lemma add_lines_app l1 l2 s : add_lines l2 (add_lines l1 s) = add_lines (l1 ++ l2) s.
Proof. unfold add_lines. simpl. by rewrite app_assoc. Qed.

Lemma add_log_lines e s : add_log e s = add_lines [e] s.
Proof. reflexivity. Qed.

Lemma add_lines_cons e l s : add_lines (e :: l) s = add_lines l (add_log e s).
Proof. unfold add_lines, add_log. simpl. by rewrite <- app_assoc. Qed.

(** *** The calling thread taken alone *)

Lemma alone_bind {A B : Type} (m : prog A) (f : A -> prog B) s lch :
  alone (bind m f) s lch =
  match alone m s lch with
  | (Returned a, s', lch') => alone (f a) s' lch'
  | (Raised e, s', lch') => (Raised e, s', lch')
  end.
Proof.
  revert s lch. induction m as [A a | A w | A X a k IH | A t IHt k IH | A i k IH];
    intros s lch; simpl; try done.
  destruct (act a s) as [x s']. apply IH.
Qed.

Lemma alone_confined {A : Type} p (m : prog A) s lch :
  confined p m -> alone m s lch = ((run m s []).1, lch).
Proof.
  revert s. induction m as [A a | A w | A X a k IH | A t IHt k IH | A i k IH];
    intros s Hm; simpl in *; try done.
  destruct Hm as [Ha Hk]. destruct (act a s) as [x s']. by apply IH.
Qed.

Lemma alone_logs_only {A : Type} (m : prog A) s lch :
  logs_only m -> alone m s lch = ((run m s []).1, lch).
Proof. intros Hm. apply (alone_confined EmptyString). by apply logs_only_confined. Qed.

Lemma alone_logMessage level message s lch :
  alone (logMessage level message) s lch = (Returned tt, add_log (level, message) s, lch).
Proof. reflexivity. Qed.

(** What an interleaving has reached once the calling thread has ended: the
    thread ended as it does alone, it launched the tasks it launches alone,
    each of which has made its first step unless it is still to start, and
    its lines are in the log. *)
Lemma interleave_ended (m : prog unit) s schedule c' res :
  caller 0 [] m ->
  interleave schedule (start m s) = Some c' ->
  ended (main_thread c') = Some res ->
  (alone m s []).1.1 = res /\
  Forall2 (started (shared c')) (alone m s []).2 (tasks c') /\
  (forall line, line ∈ log (alone m s []).1.2 -> line ∈ log (shared c')) /\
  (tasks c' = [] -> shared c' = (alone m s []).1.2).
Proof.
  intros Hm Hrun Hend.
  destruct (interleave_alone m s schedule c' Hm Hrun)
    as (_ & sm & lch & Halone & Hlen & Hlog & Hsame & Hstarted).
  rewrite <- Halone. rewrite (alone_ended _ _ _ _ Hend). simpl.
  split; [done |]. split; [done |]. split; [done |]. intros Hts. symmetry. by apply Hsame.
Qed.

(** The calling thread never ends with an exception under an interleaving
    if it does not alone. *)
Lemma interleave_no_exception (m : prog unit) s schedule c' :
  caller 0 [] m ->
  interleave schedule (start m s) = Some c' ->
  (alone m s []).1.1 = Returned tt ->
  forall e, main_thread c' <> Throw e.
Proof.
  intros Hm Hrun Hret e He.
  destruct (interleave_ended m s schedule c' (Raised e) Hm Hrun) as [Hres _].
  { by rewrite He. }
  rewrite Hret in Hres. discriminate Hres.
Qed.

End RunFacts.

Section Sequential.

Context `{L : Libraries} `{T : Tree}.

Lemma run_is_directory path s pool :
    run (is_directory path) s pool =
    (match status path with
     | StatusError what => Raised (filesystem_error what)
     | st => Returned (is_dir st)
     end, s, pool).
  Proof. unfold is_directory. by destruct (status path). Qed.

Lemma run_is_regular_file path s pool :
    run (is_regular_file path) s pool =
    (match status path with
     | StatusError what => Raised (filesystem_error what)
     | st => Returned (is_regular st)
     end, s, pool).
  Proof. unfold is_regular_file. by destruct (status path). Qed.

Lemma run_walk_end {A : Type} root (a : A) s pool :
    run (walk_end root a) s pool =
    (match (walk root).2 with
     | Some what => Raised (filesystem_error what)
     | None => Returned a
     end, s, pool).
  Proof. unfold walk_end. by destruct (walk root).2. Qed.

Lemma run_launch_loop mapped src filter dir :
    forall s pool futures,
      Forall (fun r => r = Returned tt) pool ->
      Forall (fun i => i < length pool) futures ->
      exists futures' pool',
        run (for_each_with dir (launchEntry mapped src filter) futures) s pool =
        (match (run (for_each dir (convertEntry mapped src filter)) s []).1.1 with
         | Returned _ => Returned futures'
         | Raised w => Raised w
         end,
         (run (for_each dir (convertEntry mapped src filter)) s []).1.2,
         pool') /\
        Forall (fun r => r = Returned tt) pool' /\
        Forall (fun i => i < length pool') futures'.
  Proof.
    induction dir as [| [p regular] dir IH]; intros s pool futures Hpool Hfut.
    - exists futures, pool. by simpl.
    - cbn [for_each_with for_each]. rewrite !run_bind.
      unfold launchEntry at 1, convertEntry at 1 3. destruct regular; cbn [fst snd].
      + rewrite !run_bind.
        rewrite (run_logs_only_pool (shouldProcessFile (filename p) filter) s pool)
          by apply logs_only_shouldProcessFile.
        pose proof (run_logs_only _ (logs_only_shouldProcessFile (filename p) filter) s [])
          as (_ & _ & Hp1).
        destruct (run (shouldProcessFile (filename p) filter) s []) as [[[[] | w] s1] pool1];
          simpl in Hp1; subst pool1; cbn [fst snd run].
        * destruct (run_guardedConvertFile p mapped src s1 []) as [s2 Hg]. rewrite Hg.
          destruct (IH s2 (pool ++ [Returned tt]) (futures ++ [length pool]))
            as (futures' & pool' & Hrun & Hpool' & Hfut').
          { apply Forall_app. split; [done |]. by repeat constructor. }
          { apply Forall_app. split.
            - eapply Forall_impl; [exact Hfut |]. intros i Hi. cbn beta in Hi.
              rewrite length_app. simpl. lia.
            - constructor; [| constructor]. rewrite length_app. simpl. lia. }
          exists futures', pool'. by rewrite Hrun.
        * destruct (IH s1 pool futures Hpool Hfut) as (futures' & pool' & Hrun & Hpool' & Hfut').
          exists futures', pool'. by rewrite Hrun.
        * exists futures, pool. done.
      + rewrite ?run_bind, !run_logMessage. cbn [run].
        destruct (IH (add_log (WARN, "Skipping non-regular file: " +:+ p) s) pool futures
                     Hpool Hfut) as (futures' & pool' & Hrun & Hpool' & Hfut').
        exists futures', pool'. by rewrite Hrun.
  Qed.

Lemma run_joinAll futures s pool :
    Forall (fun r => r = Returned tt) pool ->
    Forall (fun i => i < length pool) futures ->
    run (joinAll futures) s pool = (Returned tt, s, pool).
  Proof.
    intros Hpool. unfold joinAll. induction 1 as [| i futures Hi Hall IH]; simpl; [done |].
    destruct (lookup_lt_is_Some_2 pool i Hi) as [r Hr]. rewrite Hr.
    rewrite Forall_forall in Hpool. rewrite (Hpool r) by (by eapply list_elem_of_lookup_2).
    simpl. exact IH.
  Qed.

  (** Run sequentially, with every task completed at its launch, [convert]
      does what [convert_single] does, and no task ends with an exception. *)
Lemma run_convert_as_single path to src filter s :
    (run (convert path to src filter) s []).1 = exec (convert_single path to src filter) s /\
    Forall (fun r => r = Returned tt) (run (convert path to src filter) s []).2.
  Proof.
    unfold convert, convert_single, exec. rewrite !run_bind.
    pose proof (run_logs_only (checkTarget to) (logs_only_checkTarget to) s []) as (_ & _ & Hp).
    destruct (run (checkTarget to) s []) as [[[mapped | w] s1] pool1]; simpl in Hp; subst pool1;
      [| by simpl].
    rewrite !run_bind, !run_is_directory.
    destruct (status path) as [| what | file r w | r | o rd w] eqn:Est; cbn [is_dir];
      try by simpl.
    - rewrite !run_bind, !run_is_regular_file, Est. cbn [is_regular].
      by rewrite !run_bind, !run_logMessage.
    - rewrite !run_bind, !run_is_regular_file, Est. cbn [is_regular].
      rewrite !run_bind.
      rewrite (run_confined path _ (confined_convertSingleFile path mapped src filter) s1 []).
      destruct (run (convertSingleFile path mapped src filter) s1 []) as [[[[] | w'] s2] pool2];
        by simpl.
    - rewrite !run_bind, !run_logMessage. unfold for_each_entry_with, for_each_entry.
      rewrite !run_bind.
      set (s2 := add_log _ s1). set (dir := (walk path).1).
      destruct (run_launch_loop mapped src filter dir s2 [] [])
        as (futures' & pool' & Hrun & Hpool' & Hfut'); [constructor | constructor |].
      rewrite Hrun.
      destruct (run (for_each dir (convertEntry mapped src filter)) s2 [])
        as [[[[] | w] s3] pool3]; cbn [fst snd]; [| by simpl].
      rewrite !run_walk_end. destruct (walk path).2; [by simpl |].
      rewrite run_joinAll by done. by simpl.
    - rewrite !run_bind, !run_is_regular_file, Est. cbn [is_regular].
      by rewrite !run_bind, !run_logMessage.
  Qed.

  (** When no two selected entries are one file: however the threads of
      [convert] interleave, the call ends as [convert_single] does, on the
      same files, with the same log lines and the same file operations up to
      their order; every task has returned. *)
Lemma convert_interleaving path to src filter s schedule c' :
    (is_dir (status path) = true -> alias_free path filter) ->
    interleave schedule (start (convert path to src filter) s) = Some c' ->
    terminated c' = true ->
    ended (main_thread c') = Some (outcome (convert_single path to src filter) s) /\
    same_content (final (convert_single path to src filter) s) (shared c') /\
    Forall (fun t => ended t = Some (Returned tt)) (tasks c').
  Proof.
    intros Hfree Hrun Hterm.
    destruct (interleave_as_run _ s schedule c' (disciplined_convert path to src filter Hfree)
                Hrun Hterm) as (Hmain & Hsame & Htasks).
    destruct (run_convert_as_single path to src filter s) as [Heq Hpool].
    unfold outcome, final. rewrite <- Heq. split; [done |]. split; [done |].
    by eapply all_returned.
  Qed.

  (** Whatever has been done so far, a run of [convert] can be brought to
      its end. *)
Lemma convert_completes path to src filter s schedule c :
    interleave schedule (start (convert path to src filter) s) = Some c ->
    exists schedule' c', interleave schedule' c = Some c' /\ terminated c' = true.
  Proof.
    intros Hrun. apply orderly_completes.
    eapply interleave_orderly; [exact Hrun |]. apply orderly_start, caller_convert.
  Qed.

Lemma convert_terminates path to src filter s :
    exists schedule c',
      interleave schedule (start (convert path to src filter) s) = Some c' /\
      terminated c' = true.
  Proof. by apply (convert_completes path to src filter s []). Qed.

End Sequential.

Section Outcomes.

Context `{L : Libraries} `{T : Tree}.

Lemma passes_filter_compiles name filter :
    passes_filter name filter = true -> filter_compiles filter = true.
  Proof.
    unfold passes_filter, filter_compiles. destruct (empty filter); [done |]. simpl.
    by destruct (regex_icase _).
  Qed.

Lemma files_after_checkTarget to s : files (after_checkTarget to s) = files s.
  Proof.
    unfold after_checkTarget, after_mapEncodingName. destruct (empty to); [done |].
    by destruct (lookup_alias (transform tolower to) alias_table).
  Qed.

Lemma ops_after_checkTarget to s : ops (after_checkTarget to s) = ops s.
  Proof.
    unfold after_checkTarget, after_mapEncodingName. destruct (empty to); [done |].
    by destruct (lookup_alias (transform tolower to) alias_table).
  Qed.

Lemma run_checkTarget to s pool :
    run (checkTarget to) s pool =
    if empty to then
      (Raised (runtime_error ("Unsupported target encoding: " +:+ to)),
       add_log (ERROR, "Unsupported target encoding: " +:+ to) s, pool)
    else (Returned (normalize to), after_checkTarget to s, pool).
  Proof.
    unfold checkTarget, after_checkTarget. rewrite run_bind, run_mapEncodingName, run_bind.
    destruct (empty to) eqn:Eto.
    - apply empty_true in Eto as ->. reflexivity.
    - destruct (empty (normalize to)) eqn:En.
      + apply empty_true in En. apply (proj1 (normalize_empty_iff to)) in En.
        rewrite En in Eto. discriminate Eto.
      + by rewrite run_logMessage.
  Qed.

Lemma run_shouldProcessFile name filter s pool :
    run (shouldProcessFile name filter) s pool =
    (if filter_compiles filter then Returned (passes_filter name filter)
     else Raised (runtime_error ("Invalid regex filter: " +:+ filter)),
     add_lines (filter_lines filter name) s, pool).
  Proof.
    unfold shouldProcessFile, filter_compiles, passes_filter, filter_lines.
    destruct (empty filter); simpl; [by rewrite add_lines_nil |].
    destruct (regex_icase _) as [re | what]; simpl; [| done].
    destruct (regex_match name re); simpl; [by rewrite add_lines_nil | done].
  Qed.

Lemma filter_lines_passes name filter :
    passes_filter name filter = true -> filter_lines filter name = [].
  Proof.
    unfold passes_filter, filter_lines. destruct (empty filter); [done |]. simpl.
    destruct (regex_icase _) as [re | what]; [| done]. by intros ->.
  Qed.

Lemma filter_lines_mismatch name filter :
    filter_compiles filter = true -> passes_filter name filter = false ->
    filter_lines filter name =
    [(WARN, "File MisMatch: " +:+ name +:+ " does not match filter: " +:+ filter)].
  Proof.
    unfold filter_compiles, passes_filter, filter_lines. destruct (empty filter); [done |].
    simpl. destruct (regex_icase _) as [re | what]; [| done]. by intros _ ->.
  Qed.

Lemma filter_lines_error name filter what :
    empty filter = false ->
    regex_icase ("^.*\.(" +:+ filter +:+ ")$") = RegexError what ->
    filter_lines filter name =
    [(ERROR, "Invalid regex filter: " +:+ filter +:+ " | Error: " +:+ what)] /\
    filter_compiles filter = false /\ passes_filter name filter = false.
  Proof.
    unfold filter_compiles, passes_filter, filter_lines. by intros -> ->.
  Qed.

Lemma not_compiles_not_passes name filter :
    filter_compiles filter = false -> passes_filter name filter = false.
  Proof.
    intros Hc. destruct (passes_filter name filter) eqn:Ep; [| done].
    apply passes_filter_compiles in Ep. congruence.
  Qed.

Lemma run_convertEntry mapped src filter p regular s :
    exists s',
      run (convertEntry mapped src filter (p, regular)) s [] =
      (if negb regular || filter_compiles filter then Returned tt
       else Raised (runtime_error ("Invalid regex filter: " +:+ filter)), s', []) /\
      (regular = true -> filter_compiles filter = true ->
       passes_filter (filename p) filter = true -> OpenedForReading p ∈ ops s') /\
      (regular = true -> filter_compiles filter = true ->
       passes_filter (filename p) filter = false ->
       (WARN, "File MisMatch: " +:+ filename p +:+ " does not match filter: " +:+ filter)
         ∈ log s') /\
      (regular = false -> (WARN, "Skipping non-regular file: " +:+ p) ∈ log s').
  Proof.
    unfold convertEntry. cbn [fst snd]. destruct regular; cbn [negb orb].
    - rewrite run_bind, run_shouldProcessFile.
      destruct (filter_compiles filter) eqn:Ec.
      + destruct (passes_filter (filename p) filter) eqn:Ep.
        * destruct (run_guardedConvertFile p mapped src
                      (add_lines (filter_lines filter (filename p)) s) []) as [s2 Hg].
          exists s2. rewrite Hg. split; [done |]. split; [| by split]. intros _ _ _.
          assert (Hs2 : s2 = (run (guardedConvertFile p mapped src)
                                (add_lines (filter_lines filter (filename p)) s) []).1.2)
            by (by rewrite Hg).
          rewrite Hs2. unfold guardedConvertFile, convertFile. simpl.
          match goal with
          | |- context [run ?m ?st ?pl] =>
              destruct (run_log_ops_grow m st pl) as [_ [extra ->]]
          end.
          simpl. rewrite <- app_assoc. apply elem_of_app. right. apply list_elem_of_here.
        * eexists. split; [done |]. split; [done |]. split; [| done]. intros _ _ _.
          rewrite filter_lines_mismatch by done. simpl.
          apply elem_of_app. right. apply list_elem_of_here.
      + eexists. split; [done |]. split; [by intros _ [=] |]. split; [by intros _ [=] | done].
    - rewrite run_logMessage. eexists. split; [done |]. split; [done |]. split; [done |].
      intros _. simpl. apply elem_of_app. right. apply list_elem_of_here.
  Qed.

Lemma run_for_each_convertEntry mapped src filter dir s :
    exists s',
      run (for_each dir (convertEntry mapped src filter)) s [] =
      (if filter_compiles filter || negb (existsb snd dir) then Returned tt
       else Raised (runtime_error ("Invalid regex filter: " +:+ filter)), s', []) /\
      (forall p, filter_compiles filter = true -> (p, true) ∈ dir ->
                 passes_filter (filename p) filter = true -> OpenedForReading p ∈ ops s') /\
      (forall p, filter_compiles filter = true -> (p, true) ∈ dir ->
                 passes_filter (filename p) filter = false ->
                 (WARN, "File MisMatch: " +:+ filename p +:+ " does not match filter: "
                        +:+ filter) ∈ log s') /\
      (forall p, filter_compiles filter = true -> (p, false) ∈ dir ->
                 (WARN, "Skipping non-regular file: " +:+ p) ∈ log s').
  Proof.
    revert s. induction dir as [| [p regular] dir IH]; intros s.
    - exists s. simpl. rewrite orb_true_r. split; [done |].
      repeat split; intros p _ Hin; by apply elem_of_nil in Hin.
    - cbn [for_each existsb snd]. rewrite run_bind.
      destruct (run_convertEntry mapped src filter p regular s)
        as (s1 & Hrun & Hop & Hlg & Hnr).
      rewrite Hrun.
      destruct (IH s1) as (s2 & Hrun2 & Hop2 & Hlg2 & Hnr2).
      destruct (filter_compiles filter) eqn:Ec.
      + rewrite orb_true_r. cbn [orb] in *. exists s2. rewrite Hrun2. split; [done |].
        destruct (run_log_ops_grow (for_each dir (convertEntry mapped src filter)) s1 [])
          as [[lg Hlg'] [op Hop']].
        rewrite Hrun2 in Hlg', Hop'. simpl in Hlg', Hop'.
        repeat split.
        * intros q _ Hin Hq. apply elem_of_cons in Hin as [[= -> <-] | Hin]; [| by apply Hop2].
          rewrite Hop'. apply elem_of_app. left. by apply Hop.
        * intros q _ Hin Hq. apply elem_of_cons in Hin as [[= -> <-] | Hin]; [| by apply Hlg2].
          rewrite Hlg'. apply elem_of_app. left. by apply Hlg.
        * intros q _ Hin. apply elem_of_cons in Hin as [[= -> <-] | Hin]; [| by apply Hnr2].
          rewrite Hlg'. apply elem_of_app. left. by apply Hnr.
      + cbn [orb] in *. destruct regular; cbn [negb orb andb] in *.
        * exists s1. split; [done |]. repeat split; intros q [=].
        * exists s2. rewrite Hrun2. split; [done |]. repeat split; intros q [=].
  Qed.

  (** Under a file filter that does not compile, the sequential loop stops at
      the first regular file, with nothing done but logging. *)
Lemma run_for_each_blocked mapped src filter dir s :
    filter_compiles filter = false ->
    run (for_each dir (convertEntry mapped src filter)) s [] =
    (if existsb snd dir then Raised (runtime_error ("Invalid regex filter: " +:+ filter))
     else Returned tt, add_lines (loop_lines filter dir) s, []).
  Proof.
    intros Hc. revert s. induction dir as [| [p regular] dir IH]; intros s.
    - simpl. by rewrite add_lines_nil.
    - cbn [for_each existsb snd loop_lines]. rewrite run_bind. unfold convertEntry at 1.
      cbn [fst snd]. destruct regular; cbn [orb].
      + rewrite run_bind, run_shouldProcessFile, Hc. by rewrite app_nil_r.
      + rewrite run_logMessage, IH. by rewrite add_lines_cons.
  Qed.

Lemma run_convertSingleFile path mapped src filter s :
    exists s',
      run (convertSingleFile path mapped src filter) s [] =
      (if filter_compiles filter then Returned tt
       else Raised (runtime_error ("Invalid regex filter: " +:+ filter)), s', []).
  Proof.
    unfold convertSingleFile. rewrite run_bind, run_shouldProcessFile.
    destruct (filter_compiles filter); [| by eexists].
    destruct (passes_filter (filename path) filter).
    - rewrite run_bind, run_logMessage.
      destruct (run_guardedConvertFile path mapped src
                  (add_log (INFO, "Processing single file: " +:+ path)
                     (add_lines (filter_lines filter (filename path)) s)) []) as [s2 Hg].
      rewrite Hg. by eexists.
    - rewrite run_logMessage. by eexists.
  Qed.

  (** How [convert_single] ends, whatever the files hold. *)
Lemma outcome_convert_single path to src filter s :
    outcome (convert_single path to src filter) s = request_outcome path to filter.
  Proof.
    unfold outcome, exec, convert_single, request_outcome.
    rewrite run_bind, run_checkTarget.
    destruct (empty to) eqn:Eto; [done |].
    rewrite run_bind, run_is_directory.
    destruct (status path) as [| what | file r w | r | o rd w] eqn:Est; cbn [is_dir];
      try done.
    - rewrite run_bind, run_is_regular_file, Est. cbn [is_regular].
      by rewrite run_bind, run_logMessage.
    - rewrite run_bind, run_is_regular_file, Est. cbn [is_regular].
      destruct (run_convertSingleFile path (normalize to) src filter (after_checkTarget to s))
        as [s2 Hrun].
      by rewrite Hrun.
    - rewrite run_bind, run_logMessage. unfold for_each_entry. rewrite run_bind.
      destruct (run_for_each_convertEntry (normalize to) src filter (walk path).1
                  (add_log (INFO, "Processing directory: " +:+ path) (after_checkTarget to s)))
        as (s2 & Hrun & _).
      rewrite Hrun. destruct (_ || _); [| done]. by rewrite run_walk_end.
    - rewrite run_bind, run_is_regular_file, Est. cbn [is_regular].
      by rewrite run_bind, run_logMessage.
  Qed.

  (** *** The calling thread of [convert] taken alone *)

Lemma selected_cons_regular filter p dir :
    selected filter ((p, true) :: dir) =
    (if passes_filter (filename p) filter then [p] else []) ++ selected filter dir.
  Proof. unfold selected. simpl. by destruct (passes_filter (filename p) filter). Qed.

Lemma selected_cons_other filter p dir :
    selected filter ((p, false) :: dir) = selected filter dir.
  Proof. reflexivity. Qed.

Lemma selected_blocked filter dir :
    filter_compiles filter = false -> selected filter dir = [].
  Proof.
    intros Hc. induction dir as [| [p []] dir IH].
    - done.
    - by rewrite selected_cons_regular, not_compiles_not_passes.
    - by rewrite selected_cons_other.
  Qed.

Lemma elem_of_selected filter dir p :
    p ∈ selected filter dir <-> (p, true) ∈ dir /\ passes_filter (filename p) filter = true.
  Proof.
    induction dir as [| [q []] dir IH].
    - split; [by intros ?%elem_of_nil | by intros [?%elem_of_nil _]].
    - rewrite selected_cons_regular, elem_of_app, IH, elem_of_cons. split.
      + intros [Hp | [Hin Hp]]; [| by auto].
        destruct (passes_filter (filename q) filter) eqn:Eq; [| by apply elem_of_nil in Hp].
        apply list_elem_of_singleton in Hp as ->. by auto.
      + intros [[[= -> ] | Hin] Hp]; [| by auto].
        left. rewrite Hp. apply list_elem_of_here.
    - rewrite selected_cons_other, IH, elem_of_cons. split; [by intros [? ?]; auto |].
      intros [[[=] | Hin] Hp]. by auto.
  Qed.

Lemma alone_launch_loop mapped src filter dir :
    forall futures s lch,
      alone (for_each_with dir (launchEntry mapped src filter) futures) s lch =
      (if filter_compiles filter || negb (existsb snd dir)
       then Returned (futures ++ seq (length lch) (length (selected filter dir)))
       else Raised (runtime_error ("Invalid regex filter: " +:+ filter)),
       add_lines (loop_lines filter dir) s,
       lch ++ ((fun p => guardedConvertFile p mapped src) <$> selected filter dir)).
  Proof.
    induction dir as [| [p regular] dir IH]; intros futures s lch.
    - simpl. by rewrite orb_true_r, add_lines_nil, !app_nil_r.
    - cbn [for_each_with existsb snd loop_lines]. rewrite alone_bind.
      unfold launchEntry at 1. cbn [fst snd]. destruct regular; cbn [negb orb].
      + rewrite alone_bind, alone_logs_only by apply logs_only_shouldProcessFile.
        rewrite run_shouldProcessFile. cbn [fst snd].
        rewrite selected_cons_regular.
        destruct (filter_compiles filter) eqn:Ec.
        * cbn [orb]. destruct (passes_filter (filename p) filter) eqn:Ep.
          -- cbn [alone]. rewrite IH, ?Ec. cbn [orb]. rewrite add_lines_app.
             rewrite !length_app. cbn [length app fmap list_fmap].
             rewrite <- !app_assoc. cbn [app].
             replace (length lch + 1) with (S (length lch)) by lia. done.
          -- cbn [alone]. rewrite IH, ?Ec. cbn [orb]. by rewrite add_lines_app.
        * cbn [orb]. rewrite (selected_blocked filter dir Ec).
          rewrite not_compiles_not_passes by done. by rewrite !app_nil_r.
      + rewrite alone_bind, alone_logMessage. cbn [alone]. rewrite IH.
        rewrite selected_cons_other. by rewrite <- add_lines_cons.
  Qed.

Lemma alone_joinAll futures s lch : alone (joinAll futures) s lch = (Returned tt, s, lch).
  Proof. unfold joinAll. induction futures as [| i futures IH]; simpl; [done | exact IH]. Qed.

Lemma alone_walk_end {A : Type} root (a : A) s lch :
    alone (walk_end root a) s lch =
    (match (walk root).2 with
     | Some what => Raised (filesystem_error what)
     | None => Returned a
     end, s, lch).
  Proof. unfold walk_end. by destruct (walk root).2. Qed.

  (** In a directory run the calling thread logs the entries it skips and
      launches one job for each selected entry, in the order of the walk. *)
Lemma alone_convert_directory path to src filter s :
    empty to = false -> is_dir (status path) = true ->
    alone (convert path to src filter) s [] =
    (request_outcome path to filter, after_loop path to filter s, jobs path to src filter).
  Proof.
    intros Hto Hdir. unfold convert, request_outcome, after_loop, jobs, selected_paths.
    rewrite Hto.
    rewrite alone_bind, alone_logs_only by apply logs_only_checkTarget.
    rewrite run_checkTarget, Hto. cbn [fst snd].
    rewrite alone_bind, alone_logs_only by apply logs_only_is_directory.
    rewrite run_is_directory.
    destruct (status path) as [| what | file r w | r | o rd w]; try discriminate Hdir.
    cbn [fst snd is_dir]. rewrite !alone_bind, alone_logMessage.
    unfold for_each_entry_with. rewrite alone_bind, alone_launch_loop.
    rewrite add_lines_cons. cbn [app length].
    destruct (_ || _); [| done].
    rewrite alone_walk_end. destruct (walk path).2; [done |].
    by rewrite alone_joinAll.
  Qed.

  (** Out of a directory run, [convert] launches no task and does what
      [convert_single] does. *)
Lemma alone_convert_file path to src filter s :
    empty to = true \/ is_dir (status path) = false ->
    alone (convert path to src filter) s [] = (exec (convert_single path to src filter) s, []).
  Proof.
    intros Hcase. unfold convert, convert_single, exec.
    rewrite alone_bind, alone_logs_only by apply logs_only_checkTarget.
    rewrite run_bind, run_checkTarget.
    destruct (empty to) eqn:Eto; [done |]. destruct Hcase as [[=] | Hdir]. cbn [fst snd].
    rewrite alone_bind, alone_logs_only by apply logs_only_is_directory.
    rewrite run_bind, run_is_directory.
    destruct (status path) as [| what | file r w | r | o rd w] eqn:Est;
      try discriminate Hdir; cbn [fst snd is_dir]; try done.
    - rewrite !alone_bind, alone_logs_only by apply logs_only_is_regular_file.
      rewrite run_bind, run_is_regular_file, Est. cbn [fst snd is_regular].
      by rewrite alone_bind, alone_logMessage, run_bind, run_logMessage.
    - rewrite !alone_bind, alone_logs_only by apply logs_only_is_regular_file.
      rewrite run_bind, run_is_regular_file, Est. cbn [fst snd is_regular].
      rewrite alone_bind, (alone_confined path) by apply confined_convertSingleFile.
      destruct (run (convertSingleFile path (normalize to) src filter)
                  (after_checkTarget to s) []) as [[[[] | e] s2] pool2]; cbn [fst snd];
        [| done].
      cbn [alone]. by rewrite alone_joinAll.
    - rewrite !alone_bind, alone_logs_only by apply logs_only_is_regular_file.
      rewrite run_bind, run_is_regular_file, Est. cbn [fst snd is_regular].
      by rewrite alone_bind, alone_logMessage, run_bind, run_logMessage.
  Qed.

  (** The calling thread of [convert] ends as [convert_single] does. *)
Lemma alone_convert_outcome path to src filter s :
    (alone (convert path to src filter) s []).1.1 = request_outcome path to filter.
  Proof.
    destruct (empty to) eqn:Eto.
    - rewrite alone_convert_file by (by left). cbn [fst].
      apply (outcome_convert_single path to src filter s).
    - destruct (is_dir (status path)) eqn:Edir.
      + by rewrite alone_convert_directory.
      + rewrite alone_convert_file by (by right). cbn [fst].
        apply (outcome_convert_single path to src filter s).
  Qed.

Lemma alone_convert_launched path to src filter s :
    (alone (convert path to src filter) s []).2 =
    if negb (empty to) && is_dir (status path) then jobs path to src filter else [].
  Proof.
    destruct (empty to) eqn:Eto; cbn [negb andb].
    - by rewrite alone_convert_file by (by left).
    - destruct (is_dir (status path)) eqn:Edir.
      + by rewrite alone_convert_directory.
      + by rewrite alone_convert_file by (by right).
  Qed.

End Outcomes.

(** ** The target encoding *)

Section Target.

Context `{L : Libraries} `{T : Tree}.

Lemma convert_empty_target path src filter :
    convert path EmptyString src filter =
    Do (LogMessage ERROR "Unsupported target encoding: ")
       (fun _ => Throw (runtime_error "Unsupported target encoding: ")).
  Proof. reflexivity. Qed.

  (** C1, amended: when the target encoding is the empty string,
      [convert_single] and [convert] (however its threads are scheduled)
      log one error and throw "Unsupported target encoding" before anything
      else happens: no file is changed, none is opened, read or written, and
      no task is launched, at any point of the run. *)
Theorem empty_target_aborts :
    forall path src filter s,
      exec (convert_single path EmptyString src filter) s =
        (Raised (runtime_error "Unsupported target encoding: "),
         mkState (files s) (log s ++ [(ERROR, "Unsupported target encoding: ")]) (ops s)) /\
      interleave [0] (start (convert path EmptyString src filter) s) =
        Some (mkConfig (Throw (runtime_error "Unsupported target encoding: ")) []
                (mkState (files s) (log s ++ [(ERROR, "Unsupported target encoding: ")])
                   (ops s))) /\
      (forall schedule c',
          interleave schedule (start (convert path EmptyString src filter) s) = Some c' ->
          tasks c' = [] /\ files (shared c') = files s /\ ops (shared c') = ops s) /\
      (forall schedule c',
          interleave schedule (start (convert path EmptyString src filter) s) = Some c' ->
          terminated c' = true ->
          c' = mkConfig (Throw (runtime_error "Unsupported target encoding: ")) []
                 (mkState (files s) (log s ++ [(ERROR, "Unsupported target encoding: ")])
                    (ops s))).
  Proof.
    intros path src filter s. split; [reflexivity |]. split; [reflexivity |]. split.
    - intros schedule c'. rewrite convert_empty_target.
      destruct schedule as [| [| j] rest]; simpl.
      + by intros [= <-].
      + destruct rest as [| [| j] rest]; simpl; [by intros [= <-] | discriminate | discriminate].
      + discriminate.
    - intros schedule c'. rewrite convert_empty_target.
      destruct schedule as [| [| j] rest]; simpl.
      + intros [= <-]. discriminate.
      + destruct rest as [| [| j] rest]; simpl; [by intros [= <-] | discriminate | discriminate].
      + discriminate.
  Qed.

Lemma request_outcome_unsupported path to filter :
    request_outcome path to filter
      = Raised (runtime_error ("Unsupported target encoding: " +:+ to)) <-> to = EmptyString.
  Proof.
    unfold request_outcome. destruct (empty to) eqn:Eto.
    - apply empty_true in Eto. by split.
    - split; [| intros ->; discriminate Eto].
      destruct (status path); try discriminate;
        repeat match goal with |- context [if ?b then _ else _] => destruct b end;
        try discriminate.
      destruct (walk path).2; discriminate.
  Qed.

  (** C10: [mapEncodingName] returns the empty string exactly for the empty
      input (every other input, recognised or not, gives a non-empty name),
      so the unsupported-target error of [convert_single] and of [convert]
      (under every schedule) is raised exactly when the requested target
      encoding is the empty string. *)
Theorem unsupported_target_iff_empty :
    (forall raw s, outcome (mapEncodingName raw) s = Returned EmptyString <-> raw = EmptyString) /\
    (forall raw s, raw <> EmptyString ->
                   exists name, outcome (mapEncodingName raw) s = Returned name /\
                                name <> EmptyString) /\
    (forall path to src filter s,
        outcome (convert_single path to src filter) s
          = Raised (runtime_error ("Unsupported target encoding: " +:+ to))
        <-> to = EmptyString) /\
    (forall path to src filter s schedule c',
        interleave schedule (start (convert path to src filter) s) = Some c' ->
        terminated c' = true ->
        (ended (main_thread c')
           = Some (Raised (runtime_error ("Unsupported target encoding: " +:+ to)))
         <-> to = EmptyString)).
  Proof.
    assert (Hmap : forall raw s,
               outcome (mapEncodingName raw) s = Returned EmptyString <-> raw = EmptyString).
    { intros raw s. unfold outcome. rewrite exec_mapEncodingName. simpl.
      rewrite <- normalize_empty_iff. split; [by intros [= ->] | by intros ->]. }
    split; [exact Hmap |]. split; [| split].
    - intros raw s Hraw. exists (normalize raw). unfold outcome.
      rewrite exec_mapEncodingName. split; [done |]. by rewrite normalize_empty_iff.
    - intros path to src filter s. rewrite outcome_convert_single.
      apply request_outcome_unsupported.
    - intros path to src filter s schedule c' Hrun Hterm.
      unfold terminated in Hterm. apply andb_true_iff in Hterm as [Hmain _].
      unfold is_ended in Hmain.
      destruct (ended (main_thread c')) as [res |] eqn:Hres; [| done].
      destruct (interleave_ended _ s schedule c' res (caller_convert path to src filter)
                  Hrun Hres) as [Hout _].
      rewrite alone_convert_outcome in Hout. rewrite <- Hout.
      rewrite <- (request_outcome_unsupported path to filter).
      split; [by intros [= ->] | by intros ->].
  Qed.

  (** X21: when no two entries that a directory run selects are one file,
      [convert] can always be run to its end, from its start and from any
      point reached, and however its threads are scheduled it ends as
      [convert_single] does (returning, or throwing the same exception),
      leaves the same files, and has logged the same lines and opened, read
      and written the same files, up to their order. *)
Theorem convert_equivalent_to_convert_single :
    forall path to src filter s,
      (is_dir (status path) = true -> alias_free path filter) ->
      (exists schedule c',
          interleave schedule (start (convert path to src filter) s) = Some c' /\
          terminated c' = true) /\
      (forall schedule c,
          interleave schedule (start (convert path to src filter) s) = Some c ->
          exists schedule' c', interleave schedule' c = Some c' /\ terminated c' = true) /\
      (forall schedule c',
          interleave schedule (start (convert path to src filter) s) = Some c' ->
          terminated c' = true ->
          ended (main_thread c') = Some (outcome (convert_single path to src filter) s) /\
          files (shared c') = files (final (convert_single path to src filter) s) /\
          Permutation (log (shared c')) (log (final (convert_single path to src filter) s)) /\
          Permutation (ops (shared c')) (ops (final (convert_single path to src filter) s))).
  Proof.
    intros path to src filter s Hfree. split; [apply convert_terminates |].
    split; [apply convert_completes |].
    intros schedule c' Hrun Hterm.
    destruct (convert_interleaving path to src filter s schedule c' Hfree Hrun Hterm)
      as (Hmain & (Hf & Hl & Ho) & _).
    split; [done |]. split; [done |]. split; by symmetry.
  Qed.

End Target.

(** ** What [convertFile] comes to, step by step *)

Section PerFile.

Context `{L : Libraries} `{T : Tree}.

Lemma run_detectEncoding data filter s pool :
    run (detectEncoding data filter) s pool =
    match uchardet data with
    | NewFailed =>
        (Raised (runtime_error "Failed to initialize uchardet."),
         add_log (ERROR, "Failed to initialize uchardet.") s, pool)
    | HandleDataFailed =>
        (Raised (runtime_error "Failed to handle data with uchardet."),
         add_log (ERROR, "Failed to handle data with uchardet.") s, pool)
    | Charset c =>
        let result := match c with Some n => n | None => "UNKNOWN" end in
        if negb (empty filter) && negb (String.eqb result "UNKNOWN") then
          match regex_icase ("^(" +:+ filter +:+ ")$") with
          | Compiled re =>
              if regex_match result re then (Returned result, s, pool)
              else (Returned "MISMATCH",
                    add_log (WARN, "Detected encoding '" +:+ result
                                   +:+ "' does not match filter: '" +:+ filter +:+ "'.") s,
                    pool)
          | RegexError what =>
              (Raised (runtime_error ("Invalid regex filter: " +:+ filter)),
               add_log (ERROR, "Invalid regex filter: " +:+ filter +:+ " | Error: " +:+ what) s,
               pool)
          end
        else (Returned result, s, pool)
    end.
  Proof.
    unfold detectEncoding. destruct (uchardet data) as [| | c]; try reflexivity.
    cbn zeta. destruct (_ && _); [| reflexivity].
    destruct (regex_icase _) as [re | what]; [| reflexivity].
    by destruct (regex_match _ re).
  Qed.

Lemma targetCapacity_in_range input :
    (Z.of_nat (String.length input) < 2 ^ 29)%Z ->
    targetCapacity input = (4 * Z.of_nat (String.length input) + 1)%Z.
  Proof.
    intros H. unfold targetCapacity, int32.
    rewrite (Z.mod_small (Z.of_nat (String.length input) + 2 ^ 31)) by lia.
    rewrite Z.mod_small by lia. lia.
  Qed.

Lemma run_convertEncoding input from to s pool :
    run (convertEncoding input from to) s pool =
    if (targetCapacity input <? 0)%Z then
      (Raised (length_error "cannot create std::vector larger than max_size()"), s, pool)
    else
      match ucnv_convert to from (targetCapacity input) input with
      | Failure errorName =>
          (Raised (runtime_error ("ICU conversion failed: " +:+ errorName)),
           add_log (ERROR, "ICU conversion failed: " +:+ errorName) s, pool)
      | Converted output => (Returned output, s, pool)
      end.
  Proof.
    unfold convertEncoding, targetCapacity. destruct (_ <? _)%Z; [reflexivity |].
    by destruct (ucnv_convert _ _ _ _).
  Qed.

Lemma empty_normalize detected : empty (normalize detected) = empty detected.
  Proof.
    destruct (empty detected) eqn:E.
    - apply empty_true in E as ->. reflexivity.
    - destruct (empty (normalize detected)) eqn:E'; [| done].
      apply empty_true in E'. apply (proj1 (normalize_empty_iff detected)) in E'.
      rewrite E' in E. discriminate E.
  Qed.

Lemma files_after_mapEncodingName raw s : files (after_mapEncodingName raw s) = files s.
  Proof.
    unfold after_mapEncodingName. destruct (empty raw); [done |].
    by destruct (lookup_alias (transform tolower raw) alias_table).
  Qed.

Lemma ops_after_mapEncodingName raw s : ops (after_mapEncodingName raw s) = ops s.
  Proof.
    unfold after_mapEncodingName. destruct (empty raw); [done |].
    by destruct (lookup_alias (transform tolower raw) alias_table).
  Qed.

Lemma files_add_log e s : files (add_log e s) = files s.
  Proof. reflexivity. Qed.

Lemma ops_add_log e s : ops (add_log e s) = ops s.
  Proof. reflexivity. Qed.

Lemma act_IfstreamOpen p s :
    act (IfstreamOpen p) s =
    (opens_for_reading (status p), mkState (files s) (log s) (ops s ++ [OpenedForReading p])).
  Proof. reflexivity. Qed.

Lemma act_ReadAll p s :
    act (ReadAll p) (mkState (files s) (log s) (ops s ++ [OpenedForReading p])) =
    (read_result p s, after_reading p s).
  Proof. unfold read_result, after_reading. simpl. by rewrite <- app_assoc. Qed.

  (** The steps of [convertFile] on a path that could not be opened. *)
Lemma run_convertFile_closed p to src s :
    opens_for_reading (status p) = false ->
    run (convertFile p to src) s [] =
    (Raised (runtime_error ("Failed to open file: " +:+ p)),
     mkState (files s) (log s ++ [(ERROR, "Failed to open file: " +:+ p)])
             (ops s ++ [OpenedForReading p]), []).
  Proof.
    intros Hp. unfold convertFile.
    rewrite run_bind, run_perform. cbn [fst snd act]. rewrite Hp. cbn [negb].
    by rewrite run_bind, run_logMessage.
  Qed.

  (** The steps of [convertFile] on a path that could be opened. *)
Lemma run_convertFile_opened p to src s :
    opens_for_reading (status p) = true ->
    run (convertFile p to src) s [] =
    match read_result p s with
    | Raised e => (Raised e, after_reading p s, [])
    | Returned data =>
    match run (detectEncoding data src) (after_reading p s) [] with
    | (Raised e, s1, _) => (Raised e, s1, [])
    | (Returned detected, s1, _) =>
        if String.eqb detected "UNKNOWN" || String.eqb detected "MISMATCH" then
          (Returned tt,
           add_log (WARN, "Skipping file due to encoding issues: " +:+ p) s1, [])
        else if empty detected then
          (Returned tt,
           add_log (WARN, "Unsupported detected encoding '" +:+ detected
                          +:+ "' for file: " +:+ p) s1, [])
        else
          let s2 := after_mapEncodingName detected s1 in
          match run (convertEncoding data (normalize detected) to) s2 [] with
          | (Raised e, s3, _) =>
              (Raised e,
               add_log (ERROR, "Conversion failed for file: " +:+ p +:+ " | Error: "
                               +:+ e_what e) s3, [])
          | (Returned converted, s3, _) =>
              if (act (OfstreamOpenTrunc p) s3).1 then
                (Returned tt,
                 add_log (INFO, p +:+ " | " +:+ normalize detected +:+ " -> " +:+ to)
                   (act (WriteClose p converted) (act (OfstreamOpenTrunc p) s3).2).2, [])
              else
                (Raised (runtime_error ("Failed to open file for writing: " +:+ p)),
                 add_log (ERROR, "Failed to open file for writing: " +:+ p)
                   (act (OfstreamOpenTrunc p) s3).2, [])
          end
    end
    end.
  Proof.
    intros Hp. unfold convertFile.
    rewrite run_bind, run_perform, act_IfstreamOpen. cbn [fst snd]. rewrite Hp. cbn [negb].
    rewrite run_bind. unfold read_all. rewrite run_bind, run_perform, act_ReadAll.
    cbn [fst snd].
    destruct (read_result p s) as [data | e]; [| reflexivity].
    cbn [run]. rewrite run_bind.
    pose proof (run_logs_only _ (logs_only_detectEncoding data src) (after_reading p s) [])
      as (_ & _ & Hp1).
    destruct (run (detectEncoding data src) (after_reading p s) [])
      as [[[detected | e] s1] pool1]; simpl in Hp1; subst pool1; [| reflexivity].
    destruct (_ || _); [by rewrite run_logMessage |].
    rewrite run_bind, run_mapEncodingName, empty_normalize.
    destruct (empty detected) eqn:Ed.
    { apply empty_true in Ed as ->. by rewrite run_logMessage. }
    cbn zeta. rewrite run_bind, run_try_catch.
    pose proof (run_logs_only _ (logs_only_convertEncoding data (normalize detected) to)
                  (after_mapEncodingName detected s1) []) as (_ & _ & Hp3).
    destruct (run (convertEncoding data (normalize detected) to)
                (after_mapEncodingName detected s1) [])
      as [[[converted | e] s3] pool3]; simpl in Hp3; subst pool3.
    - rewrite run_bind, run_perform.
      destruct (act (OfstreamOpenTrunc p) s3) as [[] s4]; cbn [negb fst snd].
      + rewrite run_bind, run_perform. cbn [fst snd]. by rewrite run_logMessage.
      + by rewrite run_bind, run_logMessage.
    - by rewrite run_bind, run_logMessage.
  Qed.

Lemma read_result_regular p s file w :
    status p = Regular file true w -> read_result p s = Returned (content s file).
  Proof. intros Hp. unfold read_result. simpl. by rewrite Hp. Qed.

Lemma read_result_directory p s :
    status p = Dir true -> read_result p s = Raised (ios_failure read_directory_what).
  Proof. intros Hp. unfold read_result. simpl. by rewrite Hp. Qed.

  (** The steps of [convertFile] on a regular file that can be read. *)
Lemma run_convertFile_readable p to src s file w :
    status p = Regular file true w ->
    run (convertFile p to src) s [] =
    match run (detectEncoding (content s file) src) (after_reading p s) [] with
    | (Raised e, s1, _) => (Raised e, s1, [])
    | (Returned detected, s1, _) =>
        if String.eqb detected "UNKNOWN" || String.eqb detected "MISMATCH" then
          (Returned tt,
           add_log (WARN, "Skipping file due to encoding issues: " +:+ p) s1, [])
        else if empty detected then
          (Returned tt,
           add_log (WARN, "Unsupported detected encoding '" +:+ detected
                          +:+ "' for file: " +:+ p) s1, [])
        else
          let s2 := after_mapEncodingName detected s1 in
          match run (convertEncoding (content s file) (normalize detected) to) s2 [] with
          | (Raised e, s3, _) =>
              (Raised e,
               add_log (ERROR, "Conversion failed for file: " +:+ p +:+ " | Error: "
                               +:+ e_what e) s3, [])
          | (Returned converted, s3, _) =>
              if w then
                (Returned tt,
                 mkState (<[file := converted]> (files s3))
                   (log s3 ++ [(INFO, p +:+ " | " +:+ normalize detected +:+ " -> " +:+ to)])
                   (ops s3 ++ [OpenedForWriting p; WrittenTo p]), [])
              else
                (Raised (runtime_error ("Failed to open file for writing: " +:+ p)),
                 mkState (files s3)
                   (log s3 ++ [(ERROR, "Failed to open file for writing: " +:+ p)])
                   (ops s3 ++ [OpenedForWriting p]), [])
          end
    end.
  Proof.
    intros Hp. rewrite run_convertFile_opened by (by rewrite Hp).
    rewrite (read_result_regular p s file w Hp).
    destruct (run (detectEncoding (content s file) src) (after_reading p s) [])
      as [[[detected | e] s1] pool1]; [| done].
    destruct (_ || _); [done |]. destruct (empty detected); [done |]. cbn zeta.
    destruct (run (convertEncoding (content s file) (normalize detected) to)
                (after_mapEncodingName detected s1) [])
      as [[[converted | e] s3] pool3]; [| done].
    cbn [act]. rewrite Hp. destruct w; cbn [fst snd]; [| done].
    unfold add_log. cbn [files log ops]. by rewrite insert_insert_eq, <- app_assoc.
  Qed.

Lemma goes_through_spec src detected :
    goes_through src detected = true <->
    String.eqb detected "UNKNOWN" = false /\ String.eqb detected "MISMATCH" = false /\
    source_filter_accepts src detected = true /\ empty detected = false.
  Proof.
    unfold goes_through. rewrite !andb_true_iff, !negb_true_iff. tauto.
  Qed.

Lemma run_detectEncoding_accepted data src detected s :
    uchardet data = Charset (Some detected) ->
    source_filter_accepts src detected = true ->
    run (detectEncoding data src) s [] = (Returned detected, s, []).
  Proof.
    intros Hu Hacc. rewrite run_detectEncoding, Hu. cbn zeta.
    unfold source_filter_accepts in Hacc. destruct (empty src); [done |]. cbn [negb andb orb] in *.
    destruct (negb (String.eqb detected "UNKNOWN")); [| done].
    destruct (regex_icase _) as [re | what]; [| done]. by rewrite Hacc.
  Qed.

  (** What [detectEncoding] returns is what takes [convertFile] to the
      transcoding only if uchardet named it and the filter let it through. *)
Lemma run_detectEncoding_goes_through data src detected s s1 pool1 :
    run (detectEncoding data src) s [] = (Returned detected, s1, pool1) ->
    String.eqb detected "UNKNOWN" || String.eqb detected "MISMATCH" = false ->
    empty detected = false ->
    uchardet data = Charset (Some detected) /\ goes_through src detected = true /\ s1 = s.
  Proof.
    rewrite run_detectEncoding. intros Hrun Hskip Hne.
    apply orb_false_iff in Hskip as [Hunk Hmis].
    destruct (uchardet data) as [| | [name |]]; try discriminate Hrun; cbn zeta in Hrun.
    - assert (Hgoal : name = detected -> s1 = s ->
                      source_filter_accepts src detected = true ->
                      Charset (Some name) = Charset (Some detected) /\
                      goes_through src detected = true /\ s1 = s).
      { intros -> -> Hacc. split; [done |]. split; [| done].
        apply goes_through_spec. done. }
      destruct (empty src) eqn:Es; cbn [negb andb orb] in Hrun.
      { injection Hrun as -> ->. apply Hgoal; [done | done |].
        unfold source_filter_accepts. by rewrite Es. }
      destruct (String.eqb name "UNKNOWN") eqn:En; cbn [negb] in Hrun.
      { injection Hrun as -> ->. congruence. }
      destruct (regex_icase _) as [re | what] eqn:Ere; [| discriminate Hrun].
      destruct (regex_match name re) eqn:Em.
      + injection Hrun as -> ->. apply Hgoal; [done | done |].
        unfold source_filter_accepts. by rewrite Es, Ere.
      + injection Hrun as <- <-. discriminate Hmis.
    - rewrite andb_false_r in Hrun. injection Hrun as <- <-. discriminate Hunk.
  Qed.

  (** What happens on a regular file once the detected name has gone
      through. *)
Lemma run_convertFile_transcoding p to src s file w detected :
    status p = Regular file true w ->
    uchardet (content s file) = Charset (Some detected) ->
    goes_through src detected = true ->
    run (convertFile p to src) s [] =
    if (targetCapacity (content s file) <? 0)%Z then
      (Raised (length_error "cannot create std::vector larger than max_size()"),
       mkState (files s)
         (log (after_mapEncodingName detected s)
            ++ [(ERROR, "Conversion failed for file: " +:+ p +:+ " | Error: "
                        +:+ "cannot create std::vector larger than max_size()")])
         (ops s ++ [OpenedForReading p; ReadFrom p]), [])
    else
      match ucnv_convert to (normalize detected) (targetCapacity (content s file))
                         (content s file) with
      | Failure errorName =>
          (Raised (runtime_error ("ICU conversion failed: " +:+ errorName)),
           mkState (files s)
             (log (after_mapEncodingName detected s)
                ++ [(ERROR, "ICU conversion failed: " +:+ errorName);
                    (ERROR, "Conversion failed for file: " +:+ p +:+ " | Error: "
                            +:+ "ICU conversion failed: " +:+ errorName)])
             (ops s ++ [OpenedForReading p; ReadFrom p]), [])
      | Converted converted =>
          if w then
            (Returned tt,
             mkState (<[file := converted]> (files s))
               (log (after_mapEncodingName detected s)
                  ++ [(INFO, p +:+ " | " +:+ normalize detected +:+ " -> " +:+ to)])
               (ops s ++ [OpenedForReading p; ReadFrom p; OpenedForWriting p; WrittenTo p]),
             [])
          else
            (Raised (runtime_error ("Failed to open file for writing: " +:+ p)),
             mkState (files s)
               (log (after_mapEncodingName detected s)
                  ++ [(ERROR, "Failed to open file for writing: " +:+ p)])
               (ops s ++ [OpenedForReading p; ReadFrom p; OpenedForWriting p]), [])
      end.
  Proof.
    intros Hp Hu Hgo. apply goes_through_spec in Hgo as (Hunk & Hmis & Hacc & Hne).
    rewrite (run_convertFile_readable p to src s file w Hp).
    rewrite (run_detectEncoding_accepted _ src detected _ Hu Hacc).
    rewrite Hunk, Hmis, Hne. cbn [orb]. cbn zeta.
    rewrite run_convertEncoding.
    assert (Hl : log (after_mapEncodingName detected (after_reading p s))
                 = log (after_mapEncodingName detected s)).
    { unfold after_mapEncodingName. rewrite Hne.
      by destruct (lookup_alias (transform tolower detected) alias_table). }
    assert (Hf : files (after_mapEncodingName detected (after_reading p s)) = files s).
    { by rewrite files_after_mapEncodingName. }
    assert (Ho : ops (after_mapEncodingName detected (after_reading p s))
                 = ops s ++ [OpenedForReading p; ReadFrom p]).
    { by rewrite ops_after_mapEncodingName. }
    destruct (_ <? _)%Z.
    { unfold add_log. by rewrite Hl, Hf, Ho. }
    destruct (ucnv_convert _ _ _ _) as [converted | errorName].
    - destruct w; rewrite Hl, Hf, Ho, <- app_assoc; reflexivity.
    - unfold add_log. cbn [files log ops]. by rewrite Hl, Hf, Ho, <- app_assoc.
  Qed.

End PerFile.

Section Rewriting.

Context `{L : Libraries} `{T : Tree}.

Lemma run_convertEncoding_outcome input from to s s' :
    (run (convertEncoding input from to) s' []).1.1 = outcome (convertEncoding input from to) s /\
    files (run (convertEncoding input from to) s' []).1.2 = files s' /\
    ops (run (convertEncoding input from to) s' []).1.2 = ops s'.
  Proof.
    unfold outcome, exec. rewrite !run_convertEncoding.
    destruct (_ <? _)%Z; [done |]. by destruct (ucnv_convert _ _ _ _).
  Qed.

Lemma act_OfstreamOpenTrunc p s :
    (act (OfstreamOpenTrunc p) s).1 = opens_for_writing (status p) /\
    log (act (OfstreamOpenTrunc p) s).2 = log s /\
    ops (act (OfstreamOpenTrunc p) s).2 = ops s ++ [OpenedForWriting p] /\
    (opens_for_writing (status p) = false -> files (act (OfstreamOpenTrunc p) s).2 = files s).
  Proof.
    simpl. destruct (status p) as [| what | file r [] | r | o rd w]; by simpl.
  Qed.

Lemma act_WriteClose p data s :
    opens_for_writing (status p) = true ->
    files (act (WriteClose p data) (act (OfstreamOpenTrunc p) s).2).2
      = rewritten p data (files s) /\
    log (act (WriteClose p data) (act (OfstreamOpenTrunc p) s).2).2 = log s /\
    ops (act (WriteClose p data) (act (OfstreamOpenTrunc p) s).2).2
      = ops s ++ [OpenedForWriting p; WrittenTo p].
  Proof.
    unfold rewritten. simpl.
    destruct (status p) as [| what | file r [] | r | o rd w]; simpl; try done; intros _;
      rewrite <- ?app_assoc; try done.
    by rewrite insert_insert_eq.
  Qed.

  (** What [convertFile] has done when it ends: nothing to the files, with
      the file opened for reading and at most read; or the transcoding has
      succeeded, and then the file is opened for writing and, if that
      succeeds, written. *)
Lemma convertFile_cases p to src s :
    (files (final (convertFile p to src) s) = files s /\
     (ops (final (convertFile p to src) s) = ops s ++ [OpenedForReading p] \/
      ops (final (convertFile p to src) s) = ops s ++ [OpenedForReading p; ReadFrom p]))
    \/
    (exists data detected converted,
        opens_for_reading (status p) = true /\
        read_result p s = Returned data /\
        uchardet data = Charset (Some detected) /\
        goes_through src detected = true /\
        outcome (convertEncoding data (normalize detected) to) s = Returned converted /\
        ops (final (convertFile p to src) s) =
          ops s ++ [OpenedForReading p; ReadFrom p; OpenedForWriting p]
                ++ (if opens_for_writing (status p) then [WrittenTo p] else []) /\
        files (final (convertFile p to src) s) =
          (if opens_for_writing (status p) then rewritten p converted (files s)
           else files s) /\
        outcome (convertFile p to src) s =
          (if opens_for_writing (status p) then Returned tt
           else Raised (runtime_error ("Failed to open file for writing: " +:+ p)))).
  Proof.
    unfold final, outcome, exec.
    destruct (opens_for_reading (status p)) eqn:Hopen;
      [| left; rewrite run_convertFile_closed by done; cbn; auto].
    rewrite run_convertFile_opened by done.
    destruct (read_result p s) as [data | e] eqn:Hread;
      [| left; cbn; auto].
    pose proof (run_logs_only _ (logs_only_detectEncoding data src) (after_reading p s) [])
      as (Hf1 & Ho1 & _).
    destruct (run (detectEncoding data src) (after_reading p s) [])
      as [[[detected | e] s1] pool1] eqn:Hdet; cbn [fst snd] in Hf1, Ho1;
      [| left; cbn [fst snd]; rewrite Hf1, Ho1; cbn; auto].
    destruct (String.eqb detected "UNKNOWN" || String.eqb detected "MISMATCH") eqn:Hskip;
      [left; cbn [fst snd]; rewrite files_add_log, ops_add_log, Hf1, Ho1; cbn; auto |].
    destruct (empty detected) eqn:Hne;
      [left; cbn [fst snd]; rewrite files_add_log, ops_add_log, Hf1, Ho1; cbn; auto |].
    destruct (run_detectEncoding_goes_through data src detected _ _ _ Hdet Hskip Hne)
      as (Hu & Hgo & ->).
    cbn zeta.
    destruct (run_convertEncoding_outcome data (normalize detected) to s
                (after_mapEncodingName detected (after_reading p s))) as (Hout & Hf3 & Ho3).
    rewrite files_after_mapEncodingName in Hf3. rewrite ops_after_mapEncodingName in Ho3.
    destruct (run (convertEncoding data (normalize detected) to)
                (after_mapEncodingName detected (after_reading p s)) [])
      as [[[converted | e] s3] pool3]; cbn [fst snd] in Hout, Hf3, Ho3;
      [| left; cbn [fst snd]; rewrite files_add_log, ops_add_log, Hf3, Ho3; cbn; auto].
    right. exists data, detected, converted.
    split; [done |]. split; [done |]. split; [done |]. split; [done |]. split; [done |].
    destruct (act_OfstreamOpenTrunc p s3) as (Hans & _ & Hops & Hfiles). rewrite Hans.
    destruct (opens_for_writing (status p)) eqn:Hw; cbn [fst snd].
    - destruct (act_WriteClose p converted s3 Hw) as (Hf5 & _ & Ho5).
      rewrite files_add_log, ops_add_log, Hf5, Ho5, Hf3, Ho3. cbn.
      by rewrite <- app_assoc.
    - rewrite files_add_log, ops_add_log, Hops, (Hfiles eq_refl), Hf3, Ho3. cbn.
      by rewrite <- app_assoc.
  Qed.

  (** C9: [convertFile] opens the file for writing only once
      [convertEncoding] has returned the converted content.  On a file that
      can be read, each skip (nothing detected, a detected name that the
      source filter rejects, an empty detected name) returns with the files
      as they were and the file only opened for reading and read; a failed
      transcoding throws with the files as they were and the file only
      opened for reading and read; a successful transcoding is followed by
      the opening for writing and, if that succeeds, by the write of the
      converted content.  For every path: either the files are as they were
      and nothing was opened for writing, or the transcoding has succeeded. *)
Theorem convertFile_writes_after_transcoding :
    forall p to src s,
      (forall file w,
          status p = Regular file true w ->
          (uchardet (content s file) = Charset None ->
           exec (convertFile p to src) s =
           (Returned tt,
            mkState (files s)
              (log s ++ [(WARN, "Skipping file due to encoding issues: " +:+ p)])
              (ops s ++ [OpenedForReading p; ReadFrom p]))) /\
          (forall detected re,
              uchardet (content s file) = Charset (Some detected) ->
              String.eqb detected "UNKNOWN" = false ->
              empty src = false ->
              regex_icase ("^(" +:+ src +:+ ")$") = Compiled re ->
              regex_match detected re = false ->
              exec (convertFile p to src) s =
              (Returned tt,
               mkState (files s)
                 (log s ++ [(WARN, "Detected encoding '" +:+ detected
                                   +:+ "' does not match filter: '" +:+ src +:+ "'.");
                            (WARN, "Skipping file due to encoding issues: " +:+ p)])
                 (ops s ++ [OpenedForReading p; ReadFrom p]))) /\
          (uchardet (content s file) = Charset (Some EmptyString) ->
           source_filter_accepts src EmptyString = true ->
           exec (convertFile p to src) s =
           (Returned tt,
            mkState (files s)
              (log s ++ [(WARN, "Unsupported detected encoding '" +:+ EmptyString
                                +:+ "' for file: " +:+ p)])
              (ops s ++ [OpenedForReading p; ReadFrom p]))) /\
          (forall detected e,
              uchardet (content s file) = Charset (Some detected) ->
              goes_through src detected = true ->
              outcome (convertEncoding (content s file) (normalize detected) to) s = Raised e ->
              outcome (convertFile p to src) s = Raised e /\
              files (final (convertFile p to src) s) = files s /\
              ops (final (convertFile p to src) s) = ops s ++ [OpenedForReading p; ReadFrom p]) /\
          (forall detected converted,
              uchardet (content s file) = Charset (Some detected) ->
              goes_through src detected = true ->
              outcome (convertEncoding (content s file) (normalize detected) to) s
                = Returned converted ->
              outcome (convertFile p to src) s =
                (if w then Returned tt
                 else Raised (runtime_error ("Failed to open file for writing: " +:+ p))) /\
              files (final (convertFile p to src) s) =
                (if w then <[file := converted]> (files s) else files s) /\
              ops (final (convertFile p to src) s) =
                ops s ++ [OpenedForReading p; ReadFrom p; OpenedForWriting p]
                      ++ (if w then [WrittenTo p] else []))) /\
      ((files (final (convertFile p to src) s) = files s /\
        (ops (final (convertFile p to src) s) = ops s ++ [OpenedForReading p] \/
         ops (final (convertFile p to src) s) = ops s ++ [OpenedForReading p; ReadFrom p]))
       \/
       (exists data detected converted,
           opens_for_reading (status p) = true /\
           read_result p s = Returned data /\
           uchardet data = Charset (Some detected) /\
           goes_through src detected = true /\
           outcome (convertEncoding data (normalize detected) to) s = Returned converted /\
           ops (final (convertFile p to src) s) =
             ops s ++ [OpenedForReading p; ReadFrom p; OpenedForWriting p]
                   ++ (if opens_for_writing (status p) then [WrittenTo p] else []) /\
           files (final (convertFile p to src) s) =
             (if opens_for_writing (status p) then rewritten p converted (files s)
              else files s) /\
           outcome (convertFile p to src) s =
             (if opens_for_writing (status p) then Returned tt
              else Raised (runtime_error ("Failed to open file for writing: " +:+ p))))).
  Proof.
    intros p to src s. split; [| apply convertFile_cases].
    intros file w Hp. split; [| split; [| split; [| split]]].
    - intros Hu. unfold exec. rewrite (run_convertFile_readable p to src s file w Hp).
      rewrite run_detectEncoding, Hu. cbn zeta.
      cbn [String.eqb Ascii.eqb Bool.eqb negb andb]. rewrite andb_false_r. reflexivity.
    - intros detected re Hu Hunk Hsrc Hre Hm. unfold exec.
      rewrite (run_convertFile_readable p to src s file w Hp).
      rewrite run_detectEncoding, Hu. cbn zeta. rewrite Hsrc, Hunk, Hre, Hm.
      cbn [negb andb String.eqb Ascii.eqb Bool.eqb orb fst].
      unfold add_log, after_reading. cbn. by rewrite <- app_assoc.
    - intros Hu Hacc. unfold exec. rewrite (run_convertFile_readable p to src s file w Hp).
      by rewrite (run_detectEncoding_accepted _ src EmptyString _ Hu Hacc).
    - intros detected e Hu Hgo. unfold outcome, final, exec.
      rewrite (run_convertFile_transcoding p to src s file w detected Hp Hu Hgo).
      rewrite run_convertEncoding.
      destruct (_ <? _)%Z; [by intros [= <-] |].
      destruct (ucnv_convert _ _ _ _) as [converted | errorName]; [done |].
      by intros [= <-].
    - intros detected converted Hu Hgo. unfold outcome, final, exec.
      rewrite (run_convertFile_transcoding p to src s file w detected Hp Hu Hgo).
      rewrite run_convertEncoding.
      destruct (_ <? _)%Z; [done |].
      destruct (ucnv_convert _ _ _ _) as [converted' | errorName]; [| done].
      intros [= <-]. by destruct w.
  Qed.

End Rewriting.

(** ** What [convertFile] comes to, case by case *)

Section ExtraConvertFile.

Context `{L : Libraries} `{T : Tree}.

Lemma goes_through_intro src detected :
    empty detected = false ->
    String.eqb detected "UNKNOWN" = false -> String.eqb detected "MISMATCH" = false ->
    source_filter_accepts src detected = true ->
    goes_through src detected = true.
  Proof. intros. by apply goes_through_spec. Qed.

Lemma capacity_not_negative input :
    (Z.of_nat (String.length input) < 2 ^ 29)%Z -> (targetCapacity input <? 0)%Z = false.
  Proof. intros H. rewrite (targetCapacity_in_range input H). apply Z.ltb_ge. lia. Qed.

  (** X1: the successful path of [convertFile]. *)
Theorem convertFile_converts :
    forall p to src s file detected converted,
      status p = Regular file true true ->
      uchardet (content s file) = Charset (Some detected) ->
      empty detected = false ->
      String.eqb detected "UNKNOWN" = false -> String.eqb detected "MISMATCH" = false ->
      source_filter_accepts src detected = true ->
      (Z.of_nat (String.length (content s file)) < 2 ^ 29)%Z ->
      ucnv_convert to (normalize detected) (4 * Z.of_nat (String.length (content s file)) + 1)
                   (content s file) = Converted converted ->
      exec (convertFile p to src) s =
      (Returned tt,
       mkState (<[file := converted]> (files s))
         (log (after_mapEncodingName detected s)
            ++ [(INFO, p +:+ " | " +:+ normalize detected +:+ " -> " +:+ to)])
         (ops s ++ [OpenedForReading p; ReadFrom p; OpenedForWriting p; WrittenTo p])).
  Proof.
    intros p to src s file detected converted Hp Hu Hne Hunk Hmis Hacc Hlen Hicu.
    unfold exec.
    rewrite (run_convertFile_transcoding p to src s file true detected Hp Hu)
      by (by apply goes_through_intro).
    by rewrite capacity_not_negative, (targetCapacity_in_range _ Hlen), Hicu.
  Qed.

  (** X2: a path that [std::ifstream] cannot open (nothing there, a status
      that cannot be read, no permission to read) is an error of its own; a
      directory is opened like a file, and it is reading it that throws, so
      the guarded job reports the failure of the stream. *)
Theorem convertFile_cannot_open :
    forall p to src s,
      (opens_for_reading (status p) = false ->
       exec (convertFile p to src) s =
       (Raised (runtime_error ("Failed to open file: " +:+ p)),
        mkState (files s) (log s ++ [(ERROR, "Failed to open file: " +:+ p)])
                (ops s ++ [OpenedForReading p]))) /\
      (status p = Dir true ->
       exec (convertFile p to src) s =
       (Raised (ios_failure read_directory_what),
        mkState (files s) (log s) (ops s ++ [OpenedForReading p; ReadFrom p])) /\
       exec (guardedConvertFile p to src) s =
       (Returned tt,
        mkState (files s)
          (log s ++ [(ERROR, "Error converting " +:+ p +:+ ": " +:+ read_directory_what)])
          (ops s ++ [OpenedForReading p; ReadFrom p]))).
  Proof.
    intros p to src s. split.
    - intros Hp. unfold exec. by rewrite run_convertFile_closed.
    - intros Hp.
      assert (Hrun : run (convertFile p to src) s [] =
                     (Raised (ios_failure read_directory_what), after_reading p s, [])).
      { rewrite run_convertFile_opened by (by rewrite Hp).
        by rewrite (read_result_directory p s Hp). }
      unfold exec, guardedConvertFile. rewrite run_try_catch, Hrun. split; [done |].
      by rewrite run_logMessage.
  Qed.

  (** X3: a file uchardet cannot name is skipped, whatever the source
      filter. *)
Theorem convertFile_skips_undetected :
    forall p to src s file w,
      status p = Regular file true w ->
      uchardet (content s file) = Charset None ->
      exec (convertFile p to src) s =
      (Returned tt,
       mkState (files s)
         (log s ++ [(WARN, "Skipping file due to encoding issues: " +:+ p)])
         (ops s ++ [OpenedForReading p; ReadFrom p])).
  Proof.
    intros p to src s file w Hp Hu. unfold exec.
    rewrite (run_convertFile_readable p to src s file w Hp).
    rewrite run_detectEncoding, Hu. cbn zeta. cbn [String.eqb Ascii.eqb Bool.eqb negb andb].
    rewrite andb_false_r. reflexivity.
  Qed.

  (** X4: a failure of uchardet itself is an error, not a skip: the guarded
      job logs it twice, once where it happens and once at the job
      boundary. *)
Theorem guardedConvertFile_detector_failure :
    forall p to src s file w what,
      status p = Regular file true w ->
      uchardet (content s file) = NewFailed /\ what = "Failed to initialize uchardet." \/
      uchardet (content s file) = HandleDataFailed /\
        what = "Failed to handle data with uchardet." ->
      outcome (convertFile p to src) s = Raised (runtime_error what) /\
      exec (guardedConvertFile p to src) s =
      (Returned tt,
       mkState (files s)
         (log s ++ [(ERROR, what); (ERROR, "Error converting " +:+ p +:+ ": " +:+ what)])
         (ops s ++ [OpenedForReading p; ReadFrom p])).
  Proof.
    intros p to src s file w what Hp Hu.
    unfold outcome, exec, guardedConvertFile. rewrite run_try_catch.
    rewrite (run_convertFile_readable p to src s file w Hp), run_detectEncoding.
    destruct Hu as [[-> ->] | [-> ->]]; rewrite run_logMessage; split; try reflexivity;
      unfold add_log, after_reading; cbn; by rewrite <- app_assoc.
  Qed.

  (** X5: a failing transcoding is logged by [convertEncoding] and by
      [convertFile], which throws the same exception again; the file is not
      opened for writing. *)
Theorem convertFile_transcoding_failure :
    forall p to src s file w detected errorName,
      status p = Regular file true w ->
      uchardet (content s file) = Charset (Some detected) ->
      empty detected = false ->
      String.eqb detected "UNKNOWN" = false -> String.eqb detected "MISMATCH" = false ->
      source_filter_accepts src detected = true ->
      (Z.of_nat (String.length (content s file)) < 2 ^ 29)%Z ->
      ucnv_convert to (normalize detected) (4 * Z.of_nat (String.length (content s file)) + 1)
                   (content s file) = Failure errorName ->
      exec (convertFile p to src) s =
      (Raised (runtime_error ("ICU conversion failed: " +:+ errorName)),
       mkState (files s)
         (log (after_mapEncodingName detected s)
            ++ [(ERROR, "ICU conversion failed: " +:+ errorName);
                (ERROR, "Conversion failed for file: " +:+ p +:+ " | Error: "
                        +:+ "ICU conversion failed: " +:+ errorName)])
         (ops s ++ [OpenedForReading p; ReadFrom p])).
  Proof.
    intros p to src s file w detected errorName Hp Hu Hne Hunk Hmis Hacc Hlen Hicu.
    unfold exec.
    rewrite (run_convertFile_transcoding p to src s file w detected Hp Hu)
      by (by apply goes_through_intro).
    by rewrite capacity_not_negative, (targetCapacity_in_range _ Hlen), Hicu.
  Qed.

  (** X6: a file that can be read but not written is transcoded in memory
      and then left as it was. *)
Theorem convertFile_cannot_write :
    forall p to src s file detected converted,
      status p = Regular file true false ->
      uchardet (content s file) = Charset (Some detected) ->
      empty detected = false ->
      String.eqb detected "UNKNOWN" = false -> String.eqb detected "MISMATCH" = false ->
      source_filter_accepts src detected = true ->
      (Z.of_nat (String.length (content s file)) < 2 ^ 29)%Z ->
      ucnv_convert to (normalize detected) (4 * Z.of_nat (String.length (content s file)) + 1)
                   (content s file) = Converted converted ->
      exec (convertFile p to src) s =
      (Raised (runtime_error ("Failed to open file for writing: " +:+ p)),
       mkState (files s)
         (log (after_mapEncodingName detected s)
            ++ [(ERROR, "Failed to open file for writing: " +:+ p)])
         (ops s ++ [OpenedForReading p; ReadFrom p; OpenedForWriting p])).
  Proof.
    intros p to src s file detected converted Hp Hu Hne Hunk Hmis Hacc Hlen Hicu.
    unfold exec.
    rewrite (run_convertFile_transcoding p to src s file false detected Hp Hu)
      by (by apply goes_through_intro).
    by rewrite capacity_not_negative, (targetCapacity_in_range _ Hlen), Hicu.
  Qed.

  (** X7: a detected name that the source filter compiles but does not match
      is a skip, with two warnings. *)
Theorem convertFile_skips_mismatch :
    forall p to src s file w detected re,
      status p = Regular file true w ->
      uchardet (content s file) = Charset (Some detected) ->
      String.eqb detected "UNKNOWN" = false ->
      empty src = false ->
      regex_icase ("^(" +:+ src +:+ ")$") = Compiled re ->
      regex_match detected re = false ->
      exec (convertFile p to src) s =
      (Returned tt,
       mkState (files s)
         (log s ++ [(WARN, "Detected encoding '" +:+ detected
                           +:+ "' does not match filter: '" +:+ src +:+ "'.");
                    (WARN, "Skipping file due to encoding issues: " +:+ p)])
         (ops s ++ [OpenedForReading p; ReadFrom p])).
  Proof.
    intros p to src s file w detected re Hp Hu Hunk Hsrc Hre Hm.
    unfold exec. rewrite (run_convertFile_readable p to src s file w Hp).
    rewrite run_detectEncoding, Hu. cbn zeta. rewrite Hsrc, Hunk, Hre, Hm.
    cbn [negb andb String.eqb Ascii.eqb Bool.eqb orb fst].
    unfold add_log, after_reading. cbn. by rewrite <- app_assoc.
  Qed.

  (** X8: when uchardet answers with the empty name, and the source filter
      lets it through, the file is skipped as unsupported. *)
Theorem convertFile_skips_empty_name :
    forall p to src s file w,
      status p = Regular file true w ->
      uchardet (content s file) = Charset (Some EmptyString) ->
      source_filter_accepts src EmptyString = true ->
      exec (convertFile p to src) s =
      (Returned tt,
       mkState (files s)
         (log s ++ [(WARN, "Unsupported detected encoding '" +:+ EmptyString
                           +:+ "' for file: " +:+ p)])
         (ops s ++ [OpenedForReading p; ReadFrom p])).
  Proof.
    intros p to src s file w Hp Hu Hacc.
    unfold exec. rewrite (run_convertFile_readable p to src s file w Hp).
    rewrite (run_detectEncoding_accepted _ src EmptyString _ Hu Hacc). reflexivity.
  Qed.

End ExtraConvertFile.

(** ** Runs of [convert] and [convert_single] *)

Section Locality.

Context `{T : Tree}.

(** What a job confined to one path returns, logs and does to the file that
    the path names depends on that file only. *)
Lemma run_local {A : Type} p (t : prog A) :
  confined p t ->
  forall s1 s2,
    (forall file, file_of p = Some file -> files s1 !! file = files s2 !! file) ->
    exists lg op,
      (run t s1 []).1.1 = (run t s2 []).1.1 /\
      log (run t s1 []).1.2 = log s1 ++ lg /\ log (run t s2 []).1.2 = log s2 ++ lg /\
      ops (run t s1 []).1.2 = ops s1 ++ op /\ ops (run t s2 []).1.2 = ops s2 ++ op /\
      (forall file, file_of p = Some file ->
                    files (run t s1 []).1.2 !! file = files (run t s2 []).1.2 !! file).
Proof.
  induction t as [A a | A w | A X a k IH | A t IHt k IH | A i k IH];
    intros Ht s1 s2 Hp; simpl in Ht; try done.
  - exists [], []. simpl. by rewrite !app_nil_r.
  - exists [], []. simpl. by rewrite !app_nil_r.
  - destruct Ht as [Ha Hk]. cbn [run]. rewrite !act_decompose.
    rewrite (answer_local a p _ _ Ha Hp).
    destruct (IH (answer a (files s2)) (Hk _)
                 (mkState (effect a (files s1)) (log s1 ++ logged a) (ops s1 ++ recorded a))
                 (mkState (effect a (files s2)) (log s2 ++ logged a) (ops s2 ++ recorded a)))
      as (lg & op & H1 & H2 & H3 & H4 & H5 & H6).
    { simpl. by apply effect_local. }
    exists (logged a ++ lg), (recorded a ++ op). simpl in *.
    rewrite H2, H3, H4, H5, !app_assoc. done.
Qed.

Lemma run_for_each_app {E : Type} (l1 l2 : list E) (body : E -> prog unit) s pool :
  run (for_each (l1 ++ l2) body) s pool =
  match run (for_each l1 body) s pool with
  | (Returned _, s', pool') => run (for_each l2 body) s' pool'
  | (Raised w, s', pool') => (Raised w, s', pool')
  end.
Proof.
  revert s pool. induction l1 as [| e l1 IH]; intros s pool; [done |].
  cbn [for_each app]. rewrite !run_bind.
  destruct (run (body e) s pool) as [[[[] | w] s1] pool1]; [apply IH | done].
Qed.

Lemma separate_after l1 p l2 : separate (l1 ++ p :: l2) -> Forall (independent p) l2.
Proof.
  induction l1 as [| q l1 IH]; simpl; [by intros [H _] |]. intros [_ H]. by apply IH.
Qed.

Lemma alone_extends {A : Type} (m : prog A) s lch :
  exists more, (alone m s lch).2 = lch ++ more.
Proof.
  revert s lch. induction m as [A a | A w | A X a k IH | A t IHt k IH | A i k IH];
    intros s lch; simpl.
  - exists []. by rewrite app_nil_r.
  - exists []. by rewrite app_nil_r.
  - destruct (act a s) as [x s']. apply IH.
  - destruct (IH (length lch) s (lch ++ [t])) as [more ->].
    exists (t :: more). by rewrite <- app_assoc.
  - apply IH.
Qed.

(** At no point of an interleaving are there more tasks than the calling
    thread launches alone. *)
Lemma interleave_launched (m : prog unit) s schedule c' :
  caller 0 [] m ->
  interleave schedule (start m s) = Some c' ->
  length (tasks c') <= length (alone m s []).2.
Proof.
  intros Hm Hrun.
  destruct (interleave_alone m s schedule c' Hm Hrun)
    as (_ & sm & lch & Halone & Hlen & _).
  rewrite <- Halone, <- Hlen.
  destruct (alone_extends (main_thread c') sm lch) as [more ->].
  rewrite length_app. lia.
Qed.

End Locality.

Section Runs.

Context `{L : Libraries} `{T : Tree}.

  (** [convert_single] past the target check. *)
Lemma exec_convert_single path to src filter s :
    empty to = false ->
    exec (convert_single path to src filter) s =
    match status path with
    | StatusError what => (Raised (filesystem_error what), after_checkTarget to s)
    | Dir _ =>
        exec (for_each_entry path (convertEntry (normalize to) src filter))
             (add_log (INFO, "Processing directory: " +:+ path) (after_checkTarget to s))
    | Regular _ _ _ =>
        exec (convertSingleFile path (normalize to) src filter) (after_checkTarget to s)
    | _ =>
        (Raised (runtime_error ("Invalid path: " +:+ path)),
         add_log (ERROR, "Invalid path: " +:+ path) (after_checkTarget to s))
    end.
  Proof.
    intros Hto. unfold exec, convert_single. rewrite run_bind, run_checkTarget, Hto.
    rewrite run_bind, run_is_directory.
    destruct (status path) as [| what | file r w | r | o rd w] eqn:Est; cbn [is_dir];
      try done.
    - rewrite run_bind, run_is_regular_file, Est. cbn [is_regular].
      by rewrite run_bind, run_logMessage.
    - by rewrite run_bind, run_is_regular_file, Est.
    - rewrite run_bind, run_is_regular_file, Est. cbn [is_regular].
      by rewrite run_bind, run_logMessage.
  Qed.

  (** The end of the walk changes nothing to the environment. *)
Lemma final_for_each_entry root body s :
    final (for_each_entry root body) s = final (for_each (walk root).1 body) s.
  Proof.
    unfold final, exec, for_each_entry. rewrite run_bind.
    destruct (run (for_each (walk root).1 body) s []) as [[[[] | e] s1] pool1]; [| done].
    by rewrite run_walk_end.
  Qed.

Lemma final_convert_single_directory path to src filter s :
    empty to = false -> is_dir (status path) = true ->
    final (convert_single path to src filter) s =
    final (for_each (walk path).1 (convertEntry (normalize to) src filter))
          (add_log (INFO, "Processing directory: " +:+ path) (after_checkTarget to s)).
  Proof.
    intros Hto Hdir. unfold final at 1. rewrite exec_convert_single by done.
    destruct (status path); try discriminate Hdir. apply final_for_each_entry.
  Qed.

Lemma within_convertEntries mapped src filter dir :
    within (fun q => q ∈ selected filter dir) (for_each dir (convertEntry mapped src filter)).
  Proof.
    apply within_for_each. intros [p regular] Hin. apply within_convertEntry.
    intros -> Hp. by apply elem_of_selected.
  Qed.

Lemma within_launchEntries mapped src filter dir futures :
    within (fun q => q ∈ selected filter dir)
           (for_each_with dir (launchEntry mapped src filter) futures).
  Proof.
    apply within_for_each_with. intros [p regular] futures' Hin. apply within_launchEntry.
    intros -> Hp. by apply elem_of_selected.
  Qed.

  (** A directory run works on the selected entries only. *)
Lemma within_convert_single_directory path to src filter :
    is_dir (status path) = true ->
    within (fun q => q ∈ selected_paths path filter) (convert_single path to src filter).
  Proof.
    intros Hdir. unfold convert_single.
    apply within_bind; [apply logs_only_within, logs_only_checkTarget |].
    intros mapped _.
    apply within_bind; [apply logs_only_within, logs_only_is_directory |].
    intros isdir Hret. apply may_return_is_directory in Hret. rewrite Hdir in Hret.
    subst isdir.
    apply within_bind; [by simpl |]. intros _ _. unfold for_each_entry.
    apply within_bind; [| intros; apply logs_only_within, logs_only_walk_end].
    apply within_convertEntries.
  Qed.

Lemma within_convert_directory path to src filter :
    is_dir (status path) = true ->
    within (fun q => q ∈ selected_paths path filter) (convert path to src filter).
  Proof.
    intros Hdir. unfold convert.
    apply within_bind; [apply logs_only_within, logs_only_checkTarget |].
    intros mapped _.
    apply within_bind; [apply logs_only_within, logs_only_is_directory |].
    intros isdir Hret. apply may_return_is_directory in Hret. rewrite Hdir in Hret.
    subst isdir.
    apply within_bind; [| intros; apply within_joinAll].
    apply within_bind; [by simpl |]. intros _ _. unfold for_each_entry_with.
    apply within_bind; [| intros; apply logs_only_within, logs_only_walk_end].
    apply within_launchEntries.
  Qed.

Lemma selected_app filter l1 l2 :
    selected filter (l1 ++ l2) = selected filter l1 ++ selected filter l2.
  Proof. unfold selected. by rewrite List.filter_app, fmap_app. Qed.

  (** The loop of [convert_single] around one of its entries, when the file
      filter compiles. *)
Lemma run_convertEntries_split mapped src filter pre e post s :
    filter_compiles filter = true ->
    exists s1 s2 s3,
      run (for_each pre (convertEntry mapped src filter)) s [] = (Returned tt, s1, []) /\
      run (convertEntry mapped src filter e) s1 [] = (Returned tt, s2, []) /\
      run (for_each post (convertEntry mapped src filter)) s2 [] = (Returned tt, s3, []) /\
      run (for_each (pre ++ e :: post) (convertEntry mapped src filter)) s [] =
        (Returned tt, s3, []).
  Proof.
    intros Hc.
    destruct (run_for_each_convertEntry mapped src filter pre s) as (s1 & H1 & _).
    destruct e as [p regular].
    destruct (run_convertEntry mapped src filter p regular s1) as (s2 & H2 & _).
    destruct (run_for_each_convertEntry mapped src filter post s2) as (s3 & H3 & _).
    rewrite Hc in H1, H2, H3. rewrite orb_true_r in H2. cbn [orb] in H1, H3.
    exists s1, s2, s3. split; [done |]. split; [done |]. split; [done |].
    rewrite run_for_each_app, H1. cbn [for_each]. by rewrite run_bind, H2.
  Qed.

  (** In the sequential loop over entries no two of which are one file, a
      selected entry fares as its job does alone on the initial files. *)
Lemma run_selected_alone mapped src filter dir s p :
    separate (selected filter dir) ->
    p ∈ selected filter dir ->
    (forall file, file_of p = Some file ->
       files (final (for_each dir (convertEntry mapped src filter)) s) !! file =
       files (final (guardedConvertFile p mapped src) (fresh (files s))) !! file) /\
    (forall line,
        line ∈ log (final (guardedConvertFile p mapped src) (fresh (files s))) ->
        line ∈ log (final (for_each dir (convertEntry mapped src filter)) s)) /\
    (forall o,
        o ∈ ops (final (guardedConvertFile p mapped src) (fresh (files s))) ->
        o ∈ ops (final (for_each dir (convertEntry mapped src filter)) s)).
  Proof.
    intros Hsep Hsel. apply elem_of_selected in Hsel as [Hin Hpass].
    pose proof (passes_filter_compiles _ _ Hpass) as Hc.
    apply list_elem_of_split in Hin as (pre & post & ->).
    rewrite selected_app, selected_cons_regular, Hpass in Hsep. cbn [app] in Hsep.
    pose proof (separate_before _ _ _ Hsep) as Hpre.
    pose proof (separate_after _ _ _ Hsep) as Hpost.
    destruct (run_convertEntries_split mapped src filter pre (p, true) post s Hc)
      as (s1 & s2 & s3 & H1 & H2 & H3 & Hall).
    assert (Hs1 : forall file, file_of p = Some file -> files s1 !! file = files s !! file).
    { intros file Hfile.
      destruct (run_within _ _ (within_convertEntries mapped src filter pre) s [])
        as [_ Hfiles]. rewrite H1 in Hfiles. cbn [fst snd] in Hfiles. apply Hfiles.
      intros q Hq. rewrite Forall_forall in Hpre. by apply (Hpre q Hq). }
    assert (Hs3 : forall file, file_of p = Some file -> files s3 !! file = files s2 !! file).
    { intros file Hfile.
      destruct (run_within _ _ (within_convertEntries mapped src filter post) s2 [])
        as [_ Hfiles]. rewrite H3 in Hfiles. cbn [fst snd] in Hfiles. apply Hfiles.
      intros q Hq. rewrite Forall_forall in Hpost. by apply (Hpost q Hq). }
    destruct (run_log_ops_grow (for_each post (convertEntry mapped src filter)) s2 [])
      as [[lg3 Hlg3] [op3 Hop3]]. rewrite H3 in Hlg3, Hop3. cbn [fst snd] in Hlg3, Hop3.
    assert (Hjob : run (guardedConvertFile p mapped src) s1 [] = (Returned tt, s2, [])).
    { revert H2. unfold convertEntry. cbn [fst snd].
      rewrite run_bind, run_shouldProcessFile, Hc, Hpass.
      by rewrite filter_lines_passes, add_lines_nil. }
    destruct (run_local p _ (confined_guardedConvertFile p mapped src)
                s1 (fresh (files s)) Hs1) as (lg & op & _ & Hl1 & Hl2 & Ho1 & Ho2 & Hf).
    rewrite Hjob in Hl1, Ho1, Hf. cbn [fst snd] in Hl1, Ho1, Hf.
    assert (Hfin : final (for_each (pre ++ (p, true) :: post) (convertEntry mapped src filter)) s
                   = s3).
    { unfold final, exec. by rewrite Hall. }
    rewrite Hfin. unfold final, exec. rewrite Hl2, Ho2. cbn [fresh log ops app].
    split; [| split].
    - intros file Hfile. rewrite (Hs3 file Hfile). by apply Hf.
    - intros line Hline. rewrite Hlg3, Hl1. apply elem_of_app. left.
      apply elem_of_app. by right.
    - intros o Ho. rewrite Hop3, Ho1. apply elem_of_app. left.
      apply elem_of_app. by right.
  Qed.

Lemma loop_lines_mismatch filter dir p :
    filter_compiles filter = true -> (p, true) ∈ dir ->
    passes_filter (filename p) filter = false ->
    (WARN, "File MisMatch: " +:+ filename p +:+ " does not match filter: " +:+ filter)
      ∈ loop_lines filter dir.
  Proof.
    intros Hc Hin Hp. induction dir as [| [q []] dir IH].
    - by apply elem_of_nil in Hin.
    - cbn [loop_lines]. rewrite Hc. apply elem_of_app.
      apply elem_of_cons in Hin as [[= <-] | Hin]; [left | right; by apply IH].
      rewrite filter_lines_mismatch by done. apply list_elem_of_here.
    - cbn [loop_lines]. apply elem_of_cons in Hin as [[=] | Hin].
      apply list_elem_of_further. by apply IH.
  Qed.

Lemma loop_lines_other filter dir p :
    filter_compiles filter = true -> (p, false) ∈ dir ->
    (WARN, "Skipping non-regular file: " +:+ p) ∈ loop_lines filter dir.
  Proof.
    intros Hc Hin. induction dir as [| [q []] dir IH].
    - by apply elem_of_nil in Hin.
    - cbn [loop_lines]. rewrite Hc. apply elem_of_app.
      apply elem_of_cons in Hin as [[=] | Hin]. right. by apply IH.
    - cbn [loop_lines]. apply elem_of_cons in Hin as [[= <-] | Hin];
        [apply list_elem_of_here | apply list_elem_of_further; by apply IH].
  Qed.

  (** What an interleaving of [convert] has reached once the calling thread
      has ended, in a directory run. *)
Lemma convert_directory_ended path to src filter s schedule c' res :
    empty to = false -> is_dir (status path) = true ->
    interleave schedule (start (convert path to src filter) s) = Some c' ->
    ended (main_thread c') = Some res ->
    res = request_outcome path to filter /\
    Forall2 (fun p t => t = guardedConvertFile p (normalize to) src \/
                        OpenedForReading p ∈ ops (shared c'))
            (selected_paths path filter) (tasks c') /\
    (forall line, line ∈ log (after_loop path to filter s) -> line ∈ log (shared c')).
  Proof.
    intros Hto Hdir Hrun Hend.
    destruct (interleave_ended _ s schedule c' res (caller_convert path to src filter)
                Hrun Hend) as (Hres & Hstarted & Hlog & _).
    rewrite alone_convert_directory in Hres, Hstarted, Hlog by done.
    cbn [fst snd] in Hres, Hstarted, Hlog. split; [done |]. split; [| done].
    unfold jobs in Hstarted. rewrite Forall2_fmap_l in Hstarted.
    eapply Forall2_impl; [exact Hstarted |]. intros p t [-> | Hop]; [by left | right].
    apply Hop. apply list_elem_of_here.
  Qed.

  (** The same once the calling thread has returned: every task has
      returned, and every selected entry has been opened. *)
Lemma convert_directory_returned path to src filter s schedule c' :
    empty to = false -> is_dir (status path) = true ->
    interleave schedule (start (convert path to src filter) s) = Some c' ->
    main_thread c' = Ret tt ->
    tasks c' = replicate (length (selected_paths path filter)) (Ret tt) /\
    forall p, p ∈ selected_paths path filter -> OpenedForReading p ∈ ops (shared c').
  Proof.
    intros Hto Hdir Hrun Hret.
    destruct (convert_directory_ended path to src filter s schedule c' (Returned tt)
                Hto Hdir Hrun) as (_ & Hstarted & _); [by rewrite Hret |].
    pose proof (orderly_returned c' tt
                  (interleave_orderly _ _ _ Hrun (orderly_start _ s
                     (caller_convert path to src filter))) Hret) as Hall.
    split.
    - rewrite (Forall2_length _ _ _ Hstarted).
      apply list_eq_same_length with (length (tasks c')); [by rewrite length_replicate | done |].
      intros i t t' Hi Ht Ht'. apply lookup_replicate in Ht' as [-> _].
      rewrite Forall_forall in Hall. apply Hall. by eapply list_elem_of_lookup_2.
    - intros p Hp. apply list_elem_of_lookup_1 in Hp as [i Hi].
      destruct (Forall2_lookup_l _ _ _ _ _ Hstarted Hi) as (t & Ht & [-> | Hop]); [| done].
      rewrite Forall_forall in Hall.
      specialize (Hall _ (list_elem_of_lookup_2 _ _ _ Ht)). discriminate Hall.
  Qed.

  (** Out of a directory run no task is ever launched, and the call ends as
      [convert_single] does, in the same environment. *)
Lemma convert_without_task path to src filter s schedule c' :
    empty to = true \/ is_dir (status path) = false ->
    interleave schedule (start (convert path to src filter) s) = Some c' ->
    tasks c' = [] /\
    forall res, ended (main_thread c') = Some res ->
                (res, shared c') = exec (convert_single path to src filter) s.
  Proof.
    intros Hcase Hrun.
    pose proof (interleave_launched _ s schedule c' (caller_convert path to src filter) Hrun)
      as Hlen.
    rewrite alone_convert_file in Hlen by done. cbn [snd length] in Hlen.
    assert (Hts : tasks c' = []) by (destruct (tasks c'); [done | simpl in Hlen; lia]).
    split; [done |]. intros res Hend.
    destruct (interleave_ended _ s schedule c' res (caller_convert path to src filter)
                Hrun Hend) as (Hres & _ & _ & Hsame).
    rewrite alone_convert_file in Hres, Hsame by done. cbn [fst snd] in Hres, Hsame.
    rewrite (Hsame Hts), <- Hres. by destruct (exec (convert_single path to src filter) s).
  Qed.

End Runs.

Section FilenameFilter.

Context `{L : Libraries} `{T : Tree}.

Lemma log_convertSingleFile_mismatch path mapped src filter s :
    filter_compiles filter = true -> passes_filter (filename path) filter = false ->
    log (final (convertSingleFile path mapped src filter) s) =
    log s ++ [(WARN, "File MisMatch: " +:+ filename path +:+ " does not match filter: "
                     +:+ filter);
              (WARN, "File does not match filter and will be skipped: " +:+ path)].
  Proof.
    intros Hc Hp. unfold final, exec, convertSingleFile.
    rewrite run_bind, run_shouldProcessFile, Hc, Hp, run_logMessage.
    rewrite filter_lines_mismatch by done. cbn. by rewrite <- app_assoc.
  Qed.

  (** C8: a file whose name fails the file filter is never opened, read or
      written through its path, by [convert_single] or at any point of any
      interleaving of [convert], and what it holds stays as it was unless an
      entry whose name passes the filter is the same file.  In a directory
      run (and in a single-file run) that reaches it, the file is skipped
      with the "File MisMatch" warning. *)
Theorem filtered_out_file_never_opened :
    forall path to src filter s p,
      passes_filter (filename p) filter = false ->
      ((forall o, o ∈ ops (final (convert_single path to src filter) s) ->
                  op_path o = p -> o ∈ ops s) /\
       (forall file,
           file_of p = Some file ->
           (forall q, passes_filter (filename q) filter = true -> file_of q <> Some file) ->
           files (final (convert_single path to src filter) s) !! file = files s !! file)) /\
      (forall schedule c',
          interleave schedule (start (convert path to src filter) s) = Some c' ->
          (forall o, o ∈ ops (shared c') -> op_path o = p -> o ∈ ops s) /\
          (forall file,
              file_of p = Some file ->
              (forall q, passes_filter (filename q) filter = true -> file_of q <> Some file) ->
              files (shared c') !! file = files s !! file)) /\
      (empty to = false -> filter_compiles filter = true ->
       (is_dir (status path) = true /\ (p, true) ∈ (walk path).1) \/
       (is_regular (status path) = true /\ p = path) ->
       (WARN, "File MisMatch: " +:+ filename p +:+ " does not match filter: " +:+ filter)
         ∈ log (final (convert_single path to src filter) s) /\
       (forall schedule c' res,
          interleave schedule (start (convert path to src filter) s) = Some c' ->
          ended (main_thread c') = Some res ->
          (WARN, "File MisMatch: " +:+ filename p +:+ " does not match filter: " +:+ filter)
            ∈ log (shared c'))).
  Proof.
    intros path to src filter s p Hp.
    assert (Hframe : forall s',
               ((exists extra, ops s' = ops s ++ extra /\
                   Forall (fun o => passes_filter (filename (op_path o)) filter = true) extra) /\
                (forall file,
                    (forall q, passes_filter (filename q) filter = true ->
                               file_of q <> Some file) ->
                    files s' !! file = files s !! file)) ->
               (forall o, o ∈ ops s' -> op_path o = p -> o ∈ ops s) /\
               (forall file,
                   file_of p = Some file ->
                   (forall q, passes_filter (filename q) filter = true ->
                              file_of q <> Some file) ->
                   files s' !! file = files s !! file)).
    { intros s' [(extra & Hops & Hall) Hfiles]. split.
      - intros o Ho Hpath. rewrite Hops in Ho. apply elem_of_app in Ho as [Ho | Ho]; [done |].
        rewrite Forall_forall in Hall. specialize (Hall o Ho). cbn beta in Hall.
        rewrite Hpath, Hp in Hall. discriminate Hall.
      - intros file _ Hno. by apply Hfiles. }
    split; [| split].
    - apply Hframe. apply (run_within _ _ (within_convert_single path to src filter) s []).
    - intros schedule c' Hrun. apply Hframe.
      apply (interleave_within _ _ s schedule c' (within_convert path to src filter) Hrun).
    - intros Hto Hc Hroot.
      destruct Hroot as [[Hdir Hin] | [Hreg ->]].
      + split.
        * rewrite final_convert_single_directory by done.
          destruct (run_for_each_convertEntry (normalize to) src filter (walk path).1
                      (add_log (INFO, "Processing directory: " +:+ path)
                               (after_checkTarget to s)))
            as (s2 & Hrun & _ & Hlg & _).
          unfold final, exec. rewrite Hrun. cbn [fst snd]. by apply Hlg.
        * intros schedule c' res Hrun Hend.
          destruct (convert_directory_ended path to src filter s schedule c' res
                      Hto Hdir Hrun Hend) as (_ & _ & Hlog).
          apply Hlog. unfold after_loop, add_lines. cbn [log].
          apply elem_of_app. right. apply list_elem_of_further.
          by apply loop_lines_mismatch.
      + assert (Hseq : (WARN, "File MisMatch: " +:+ filename path
                              +:+ " does not match filter: " +:+ filter)
                         ∈ log (final (convert_single path to src filter) s)).
        { unfold final. rewrite exec_convert_single by done.
          destruct (status path) as [| what | file r w | r | o rd w];
            try discriminate Hreg.
          fold (final (convertSingleFile path (normalize to) src filter)
                  (after_checkTarget to s)).
          rewrite log_convertSingleFile_mismatch by done.
          apply elem_of_app. right. apply list_elem_of_here. }
        split; [exact Hseq |]. intros schedule c' res Hrun Hend.
        destruct (convert_without_task path to src filter s schedule c') as [_ Hsame];
          [right; by destruct (status path) | done |].
        specialize (Hsame res Hend). unfold final in Hseq. rewrite <- Hsame in Hseq.
        exact Hseq.
  Qed.

End FilenameFilter.

Section Containment.

Context `{L : Libraries} `{T : Tree}.

  (** C3: whatever goes wrong inside [convertFile] (the file cannot be read,
      uchardet fails, the transcoding fails, the file cannot be written) is
      caught at the job boundary and logged: the guarded job returns, with
      one more line in the log when [convertFile] threw.  In every run of
      [convert], at every point: no task is left with an exception, the
      calling thread has returned only if every task has returned, and the
      run can be brought to its end.  A directory run whose file filter
      compiles and whose walk comes to its end returns normally, under
      [convert_single] and under every schedule of [convert]: the calling
      thread never throws, and once it has returned there is one returned
      task for each selected entry, each of which has been opened whatever
      happened to the others.  When no two selected entries are one file,
      each selected file ends as its job alone leaves it. *)
Theorem file_failures_stay_in_their_job :
    (forall p to src s,
        outcome (guardedConvertFile p to src) s = Returned tt /\
        (outcome (convertFile p to src) s = Returned tt ->
         final (guardedConvertFile p to src) s = final (convertFile p to src) s) /\
        forall e,
          outcome (convertFile p to src) s = Raised e ->
          final (guardedConvertFile p to src) s =
          add_log (ERROR, "Error converting " +:+ p +:+ ": " +:+ e_what e)
                  (final (convertFile p to src) s)) /\
    (forall path to src filter s schedule c,
        interleave schedule (start (convert path to src filter) s) = Some c ->
        Forall (fun t => forall e, t <> Throw e) (tasks c) /\
        (main_thread c = Ret tt -> Forall (fun t => t = Ret tt) (tasks c)) /\
        exists schedule' c', interleave schedule' c = Some c' /\ terminated c' = true) /\
    (forall path to src filter s,
        empty to = false -> is_dir (status path) = true ->
        filter_compiles filter = true -> (walk path).2 = None ->
        outcome (convert_single path to src filter) s = Returned tt /\
        (forall p, p ∈ selected_paths path filter ->
                   OpenedForReading p ∈ ops (final (convert_single path to src filter) s)) /\
        (forall schedule c,
            interleave schedule (start (convert path to src filter) s) = Some c ->
            (forall e, main_thread c <> Throw e) /\
            (main_thread c = Ret tt ->
             tasks c = replicate (length (selected_paths path filter)) (Ret tt) /\
             forall p, p ∈ selected_paths path filter ->
                       OpenedForReading p ∈ ops (shared c))) /\
        (alias_free path filter ->
         forall p file,
           p ∈ selected_paths path filter -> file_of p = Some file ->
           files (final (convert_single path to src filter) s) !! file =
             files (final (guardedConvertFile p (normalize to) src) (fresh (files s))) !! file /\
           forall schedule c',
             interleave schedule (start (convert path to src filter) s) = Some c' ->
             terminated c' = true ->
             files (shared c') !! file =
               files (final (guardedConvertFile p (normalize to) src) (fresh (files s)))
                 !! file)).
  Proof.
    split; [| split].
    - intros p to src s. unfold outcome, final, exec, guardedConvertFile.
      rewrite run_try_catch.
      destruct (run (convertFile p to src) s []) as [[[[] | e] s1] pool1]; simpl.
      + split; [done |]. split; [done | discriminate].
      + split; [done |]. split; [discriminate |]. by intros e' [= ->].
    - intros path to src filter s schedule c Hrun.
      pose proof (interleave_orderly _ _ _ Hrun
                    (orderly_start _ s (caller_convert path to src filter))) as Hc.
      split; [by apply orderly_no_exception |]. split.
      + intros Hret. by apply (orderly_returned c tt).
      + by apply orderly_completes.
    - intros path to src filter s Hto Hdir Hc Hwalk.
      assert (Hreq : request_outcome path to filter = Returned tt).
      { unfold request_outcome. rewrite Hto, Hc, Hwalk.
        by destruct (status path). }
      split; [by rewrite outcome_convert_single |]. split; [| split].
      + intros p Hp. apply elem_of_selected in Hp as [Hin Hpass].
        rewrite final_convert_single_directory by done.
        destruct (run_for_each_convertEntry (normalize to) src filter (walk path).1
                    (add_log (INFO, "Processing directory: " +:+ path)
                             (after_checkTarget to s)))
          as (s2 & Hrun & Hop & _).
        unfold final, exec. rewrite Hrun. cbn [fst snd]. by apply Hop.
      + intros schedule c Hrun. split.
        * apply (interleave_no_exception _ s schedule c
                   (caller_convert path to src filter) Hrun).
          by rewrite alone_convert_outcome.
        * intros Hret. by apply (convert_directory_returned path to src filter s schedule c).
      + intros Hfree p file Hp Hfile.
        assert (Hseq : files (final (convert_single path to src filter) s) !! file =
                       files (final (guardedConvertFile p (normalize to) src)
                                (fresh (files s))) !! file).
        { rewrite final_convert_single_directory by done.
          destruct (run_selected_alone (normalize to) src filter (walk path).1
                      (add_log (INFO, "Processing directory: " +:+ path)
                               (after_checkTarget to s)) p Hfree Hp) as (Hf & _ & _).
          rewrite (Hf file Hfile). by rewrite files_add_log, files_after_checkTarget. }
        split; [exact Hseq |]. intros schedule c' Hrun Hterm.
        destruct (convert_interleaving path to src filter s schedule c' (fun _ => Hfree)
                    Hrun Hterm) as (_ & (Hfs & _ & _) & _).
        by rewrite <- Hfs.
  Qed.

End Containment.

(** ** Further properties of the runs *)

Section ExtraRuns.

Context `{L : Libraries} `{T : Tree}.

  (** X9: a root path that is neither a directory nor a regular file: once
      the target name is mapped, the call logs one error and throws; the
      file filter is not even compiled, no task is launched and nothing is
      opened.  A root path whose status cannot be read makes
      [fs::is_directory] throw, with nothing more logged. *)
Theorem invalid_path_aborts :
    forall path to src filter s,
      empty to = false ->
      (is_dir (status path) = false -> is_regular (status path) = false ->
       (forall what, status path <> StatusError what) ->
       exec (convert_single path to src filter) s =
         (Raised (runtime_error ("Invalid path: " +:+ path)),
          add_log (ERROR, "Invalid path: " +:+ path) (after_checkTarget to s)) /\
       forall schedule c',
         interleave schedule (start (convert path to src filter) s) = Some c' ->
         tasks c' = [] /\
         files (shared c') = files s /\ ops (shared c') = ops s /\
         (terminated c' = true ->
          c' = mkConfig (Throw (runtime_error ("Invalid path: " +:+ path))) []
                 (add_log (ERROR, "Invalid path: " +:+ path) (after_checkTarget to s)))) /\
      (forall what,
          status path = StatusError what ->
          exec (convert_single path to src filter) s =
            (Raised (filesystem_error what), after_checkTarget to s) /\
          forall schedule c',
            interleave schedule (start (convert path to src filter) s) = Some c' ->
            terminated c' = true ->
            c' = mkConfig (Throw (filesystem_error what)) [] (after_checkTarget to s)).
  Proof.
    intros path to src filter s Hto.
    assert (Hend : forall schedule c' e s',
               is_dir (status path) = false ->
               exec (convert_single path to src filter) s = (Raised e, s') ->
               interleave schedule (start (convert path to src filter) s) = Some c' ->
               terminated c' = true -> c' = mkConfig (Throw e) [] s').
    { intros schedule c' e s' Hdir Hexec Hrun Hterm.
      destruct (convert_without_task path to src filter s schedule c' (or_intror Hdir) Hrun)
        as [Hts Hsame].
      apply andb_true_iff in Hterm as [Hmain _]. unfold is_ended in Hmain.
      destruct (ended (main_thread c')) as [res |] eqn:Hres; [| done].
      specialize (Hsame res eq_refl). rewrite Hexec in Hsame. injection Hsame as Hr Hsh.
      destruct c' as [m ts sh]. cbn in *. subst ts sh res.
      destruct m as [[] | e' | | |]; try discriminate Hres. by injection Hres as ->. }
    split.
    - intros Hdir Hreg Hstat.
      assert (Hexec : exec (convert_single path to src filter) s =
                      (Raised (runtime_error ("Invalid path: " +:+ path)),
                       add_log (ERROR, "Invalid path: " +:+ path) (after_checkTarget to s))).
      { rewrite exec_convert_single by done.
        destruct (status path) as [| what | file r w | r | o rd w]; try done.
        by destruct (Hstat what). }
      split; [exact Hexec |]. intros schedule c' Hrun.
      destruct (convert_without_task path to src filter s schedule c' (or_intror Hdir) Hrun)
        as [Hts _].
      split; [done |].
      assert (Hw : within (fun _ => False) (convert path to src filter)).
      { unfold convert.
        apply within_bind; [apply logs_only_within, logs_only_checkTarget |].
        intros mapped _.
        apply within_bind; [apply logs_only_within, logs_only_is_directory |].
        intros isdir Hret. apply may_return_is_directory in Hret. rewrite Hdir in Hret.
        subst isdir.
        apply within_bind; [| intros; apply within_joinAll].
        apply within_bind; [apply logs_only_within, logs_only_is_regular_file |].
        intros isreg Hret. unfold is_regular_file in Hret.
        destruct (status path) as [| what | file r w | r | o rd w]; try done;
          simpl in Hret; subst isreg; by simpl. }
      destruct (interleave_within _ _ s schedule c' Hw Hrun) as [(ex & Ho & Ha) Hf].
      split; [| split].
      + apply map_eq. intros file. apply Hf. by intros q [].
      + destruct ex as [| o ex]; [by rewrite Ho, app_nil_r |].
        by apply Forall_cons in Ha as [[] _].
      + intros Hterm. by apply (Hend schedule c' _ _ Hdir Hexec Hrun Hterm).
    - intros what Hstat.
      assert (Hexec : exec (convert_single path to src filter) s =
                      (Raised (filesystem_error what), after_checkTarget to s)).
      { rewrite exec_convert_single by done. by rewrite Hstat. }
      split; [exact Hexec |]. intros schedule c' Hrun Hterm.
      apply (Hend schedule c' _ _ ltac:(by rewrite Hstat) Hexec Hrun Hterm).
  Qed.

  (** X10: a root path that is a regular file whose name passes the file
      filter is converted on the calling thread: [convert_single] logs the
      mapped target and the file, and then is the guarded [convertFile] with
      the mapped target name; [convert] launches no task for it and ends in
      the same environment. *)
Theorem single_file_run :
    forall path to src filter s,
      empty to = false ->
      is_regular (status path) = true ->
      passes_filter (filename path) filter = true ->
      exec (convert_single path to src filter) s =
        exec (guardedConvertFile path (normalize to) src)
             (add_log (INFO, "Processing single file: " +:+ path) (after_checkTarget to s)) /\
      forall schedule c',
        interleave schedule (start (convert path to src filter) s) = Some c' ->
        tasks c' = [] /\
        forall res,
          ended (main_thread c') = Some res ->
          res = Returned tt /\
          shared c' =
            final (guardedConvertFile path (normalize to) src)
                  (add_log (INFO, "Processing single file: " +:+ path)
                           (after_checkTarget to s)).
  Proof.
    intros path to src filter s Hto Hreg Hpass.
    assert (Hdir : is_dir (status path) = false) by (by destruct (status path)).
    assert (Hexec : exec (convert_single path to src filter) s =
                    exec (guardedConvertFile path (normalize to) src)
                      (add_log (INFO, "Processing single file: " +:+ path)
                               (after_checkTarget to s))).
    { rewrite exec_convert_single by done.
      destruct (status path) as [| what | file r w | r | o rd w]; try discriminate Hreg.
      unfold exec, convertSingleFile.
      rewrite run_bind, run_shouldProcessFile, (passes_filter_compiles _ _ Hpass), Hpass.
      rewrite filter_lines_passes, add_lines_nil by done.
      by rewrite run_bind, run_logMessage. }
    split; [exact Hexec |]. intros schedule c' Hrun.
    destruct (convert_without_task path to src filter s schedule c' (or_intror Hdir) Hrun)
      as [Hts Hsame].
    split; [done |]. intros res Hend. specialize (Hsame res Hend).
    rewrite Hexec in Hsame. unfold final.
    destruct (run_guardedConvertFile path (normalize to) src
                (add_log (INFO, "Processing single file: " +:+ path)
                         (after_checkTarget to s)) []) as [s2 Hg].
    unfold exec in *. rewrite Hg in *. cbn [fst snd] in *. by injection Hsame as -> <-.
  Qed.

Lemma length_launched path to src filter s :
    length (alone (convert path to src filter) s []).2 = launched path to filter.
  Proof.
    rewrite alone_convert_launched. unfold launched, jobs.
    destruct (empty to); [done |]. cbn [negb andb].
    destruct (is_dir (status path)); [| done]. by rewrite length_fmap.
  Qed.

  (** X11: at every point of every interleaving, [convert] has launched at
      most one task for each entry that the walk yields as a regular file
      and whose name passes the file filter, and none when the root is not a
      directory or the target is refused.  Once the calling thread has ended
      there is exactly one task for each such entry, in the order of the
      walk, which is the guarded job on that entry or what has become of it;
      once it has returned every task has returned. *)
Theorem one_task_per_selected_file :
    forall path to src filter s schedule c',
      interleave schedule (start (convert path to src filter) s) = Some c' ->
      length (tasks c') <= launched path to filter /\
      (forall res,
          ended (main_thread c') = Some res ->
          length (tasks c') = launched path to filter /\
          (empty to = false -> is_dir (status path) = true ->
           Forall2 (fun p t => t = guardedConvertFile p (normalize to) src \/
                               OpenedForReading p ∈ ops (shared c'))
                   (selected_paths path filter) (tasks c'))) /\
      (main_thread c' = Ret tt ->
       tasks c' = replicate (launched path to filter) (Ret tt)).
  Proof.
    intros path to src filter s schedule c' Hrun.
    pose proof (interleave_launched _ s schedule c' (caller_convert path to src filter) Hrun)
      as Hle.
    rewrite length_launched in Hle. split; [done |]. split.
    - intros res Hend.
      destruct (interleave_ended _ s schedule c' res (caller_convert path to src filter)
                  Hrun Hend) as (_ & Hstarted & _).
      split.
      + rewrite <- (Forall2_length _ _ _ Hstarted). apply length_launched.
      + intros Hto Hdir.
        by destruct (convert_directory_ended path to src filter s schedule c' res
                       Hto Hdir Hrun Hend) as (_ & H & _).
    - intros Hret. unfold launched in *.
      destruct (empty to) eqn:Hto.
      { by destruct (convert_without_task path to src filter s schedule c'
                       (or_introl Hto) Hrun) as [-> _]. }
      destruct (is_dir (status path)) eqn:Hdir.
      + by destruct (convert_directory_returned path to src filter s schedule c'
                       Hto Hdir Hrun Hret) as [-> _].
      + by destruct (convert_without_task path to src filter s schedule c'
                       (or_intror Hdir) Hrun) as [-> _].
  Qed.

  (** X12: a run on a directory opens, reads and writes only through the
      paths of the entries it selects (those the walk yields as regular
      files and whose name passes the file filter); every file that no
      selected entry names is left as it was.  The same holds at every point
      of every interleaving of [convert]. *)
Theorem directory_run_touches_selected_only :
    forall path to src filter s,
      is_dir (status path) = true ->
      ((exists extra,
           ops (final (convert_single path to src filter) s) = ops s ++ extra /\
           Forall (fun o => op_path o ∈ selected_paths path filter) extra) /\
       (forall file,
           (forall q, q ∈ selected_paths path filter -> file_of q <> Some file) ->
           files (final (convert_single path to src filter) s) !! file = files s !! file)) /\
      (forall schedule c',
          interleave schedule (start (convert path to src filter) s) = Some c' ->
          (exists extra,
              ops (shared c') = ops s ++ extra /\
              Forall (fun o => op_path o ∈ selected_paths path filter) extra) /\
          (forall file,
              (forall q, q ∈ selected_paths path filter -> file_of q <> Some file) ->
              files (shared c') !! file = files s !! file)).
  Proof.
    intros path to src filter s Hdir. split.
    - apply (run_within _ _ (within_convert_single_directory path to src filter Hdir) s []).
    - intros schedule c' Hrun.
      apply (interleave_within _ _ s schedule c'
               (within_convert_directory path to src filter Hdir) Hrun).
  Qed.

  (** X13: in a run on a directory no two selected entries of which are one
      file, each selected entry fares as it would alone: the file it names
      ends with the content the guarded [convertFile] gives it on the
      initial files, and everything that job logs and does on its own is in
      the log and the record of the run, whatever happens to the other files
      and however the threads of [convert] are scheduled. *)
Theorem selected_file_fares_as_alone :
    forall path to src filter s p,
      empty to = false ->
      is_dir (status path) = true ->
      alias_free path filter ->
      p ∈ selected_paths path filter ->
      ((forall file,
           file_of p = Some file ->
           files (final (convert_single path to src filter) s) !! file =
           files (final (guardedConvertFile p (normalize to) src) (fresh (files s))) !! file) /\
       (forall line,
           line ∈ log (final (guardedConvertFile p (normalize to) src) (fresh (files s))) ->
           line ∈ log (final (convert_single path to src filter) s)) /\
       (forall o,
           o ∈ ops (final (guardedConvertFile p (normalize to) src) (fresh (files s))) ->
           o ∈ ops (final (convert_single path to src filter) s))) /\
      (forall schedule c',
          interleave schedule (start (convert path to src filter) s) = Some c' ->
          terminated c' = true ->
          (forall file,
              file_of p = Some file ->
              files (shared c') !! file =
              files (final (guardedConvertFile p (normalize to) src) (fresh (files s)))
                !! file) /\
          (forall line,
              line ∈ log (final (guardedConvertFile p (normalize to) src) (fresh (files s))) ->
              line ∈ log (shared c')) /\
          (forall o,
              o ∈ ops (final (guardedConvertFile p (normalize to) src) (fresh (files s))) ->
              o ∈ ops (shared c'))).
  Proof.
    intros path to src filter s p Hto Hdir Hfree Hsel.
    destruct (run_selected_alone (normalize to) src filter (walk path).1
                (add_log (INFO, "Processing directory: " +:+ path)
                         (after_checkTarget to s)) p Hfree Hsel) as (Hq1 & Hq2 & Hq3).
    rewrite <- (final_convert_single_directory path to src filter s Hto Hdir) in Hq1, Hq2, Hq3.
    rewrite files_add_log, files_after_checkTarget in Hq1, Hq2, Hq3.
    split; [done |]. intros schedule c' Hrun Hterm.
    destruct (convert_interleaving path to src filter s schedule c' (fun _ => Hfree)
                Hrun Hterm) as (_ & (Hfs & Hls & Hos) & _).
    split; [| split].
    - intros file Hfile. rewrite <- Hfs. by apply Hq1.
    - intros line Hline. rewrite <- Hls. by apply Hq2.
    - intros o Ho. rewrite <- Hos. by apply Hq3.
  Qed.

  (** X14: in a run on a directory whose file filter compiles, every entry
      that the walk yields and that is not a regular file, each subdirectory
      among them, is reported with a warning, by [convert_single] and by
      [convert] once its calling thread has ended, even if the walk fails
      further on. *)
Theorem non_regular_entries_reported :
    forall path to src filter s p,
      empty to = false ->
      is_dir (status path) = true ->
      filter_compiles filter = true ->
      (p, false) ∈ (walk path).1 ->
      (WARN, "Skipping non-regular file: " +:+ p)
        ∈ log (final (convert_single path to src filter) s) /\
      (forall schedule c' res,
          interleave schedule (start (convert path to src filter) s) = Some c' ->
          ended (main_thread c') = Some res ->
          (WARN, "Skipping non-regular file: " +:+ p) ∈ log (shared c')).
  Proof.
    intros path to src filter s p Hto Hdir Hc Hin. split.
    - rewrite final_convert_single_directory by done.
      destruct (run_for_each_convertEntry (normalize to) src filter (walk path).1
                  (add_log (INFO, "Processing directory: " +:+ path)
                           (after_checkTarget to s)))
        as (s2 & Hrun & _ & _ & Hnr).
      unfold final, exec. rewrite Hrun. cbn [fst snd]. by apply Hnr.
    - intros schedule c' res Hrun Hend.
      destruct (convert_directory_ended path to src filter s schedule c' res
                  Hto Hdir Hrun Hend) as (_ & _ & Hlog).
      apply Hlog. unfold after_loop, add_lines. cbn [log].
      apply elem_of_app. right. apply list_elem_of_further.
      by apply loop_lines_other.
  Qed.

End ExtraRuns.

(** ** Filters that do not compile *)

Section ReadOnly.

Context `{T : Tree}.

Lemma read_only_bind {A B : Type} (m : prog A) (f : A -> prog B) :
  read_only m -> (forall a, may_return m a -> read_only (f a)) -> read_only (bind m f).
Proof.
  intros Hm Hf. induction m as [A a | A w | A X a k IH | A t IHt k IH | A i k IH];
    simpl in *; try done.
  - by apply Hf.
  - destruct Hm as [Ha Hk]. split; [done |]. intros x. apply IH; [done |].
    intros v Hv. apply Hf. by exists x.
  - destruct Hm as [Ht Hk]. split; [done |]. intros i. apply IH; [done |].
    intros v Hv. apply Hf. by exists i.
  - intros r. apply IH; [done |]. intros v Hv. apply Hf. by exists r.
Qed.

Lemma read_only_try_catch {A : Type} (m : prog A) (h : exn -> prog A) :
  read_only m -> (forall e, read_only (h e)) -> read_only (try_catch m h).
Proof.
  intros Hm Hh. induction m as [A a | A w | A X a k IH | A t IHt k IH | A i k IH];
    simpl in *; try done.
  - destruct Hm as [Ha Hk]. split; [done |]. intros x. by apply IH.
  - destruct Hm as [Ht Hk]. split; [done |]. intros i. by apply IH.
  - intros r. by apply IH.
Qed.

Lemma logs_only_read_only {A : Type} (m : prog A) : logs_only m -> read_only m.
Proof.
  induction m as [A a | A w | A X a k IH | A t IHt k IH | A i k IH]; simpl; try done.
  intros [Ha Hk]. split; [by destruct a |]. intros x. by apply IH.
Qed.

Lemma read_only_for_each {E : Type} (l : list E) (body : E -> prog unit) :
  (forall e, read_only (body e)) -> read_only (for_each l body).
Proof.
  intros H. induction l as [| e l IH]; simpl; [done |].
  apply read_only_bind; [apply H |]. intros _ _. exact IH.
Qed.

Lemma read_only_for_each_with {E S : Type} (l : list E) (body : E -> S -> prog S) (s : S) :
  (forall e s', read_only (body e s')) -> read_only (for_each_with l body s).
Proof.
  intros H. revert s. induction l as [| e l IH]; intros s; simpl; [done |].
  apply read_only_bind; [apply H |]. intros s' _. apply IH.
Qed.

(** A read-only program leaves every file as it was, and only opens files
    for reading and reads them. *)
Lemma run_read_only {A : Type} (m : prog A) :
  read_only m ->
  forall s pool,
    files (run m s pool).1.2 = files s /\
    exists extra, ops (run m s pool).1.2 = ops s ++ extra /\ forallb is_read extra = true.
Proof.
  induction m as [A a | A w | A X a k IH | A t IHt k IH | A i k IH];
    intros Hm s pool; simpl in *.
  - split; [done |]. exists []. by rewrite app_nil_r.
  - split; [done |]. exists []. by rewrite app_nil_r.
  - destruct Hm as [Ha Hk]. destruct (act_writes_nothing a s Ha) as (Hf & e1 & Ho1 & He1).
    destruct (act a s) as [x s1]. simpl in *.
    destruct (IH x (Hk x) s1 pool) as (Hf2 & e2 & Ho2 & He2). split; [congruence |].
    exists (e1 ++ e2). rewrite Ho2, Ho1, app_assoc, forallb_app, He1, He2. done.
  - destruct Hm as [Ht Hk]. destruct (IHt Ht s []) as (Hf & e1 & Ho1 & He1).
    destruct (run t s []) as [[r s1] pool1]. simpl in *.
    destruct (IH (length pool) (Hk _) s1 (pool ++ [r])) as (Hf2 & e2 & Ho2 & He2).
    split; [congruence |].
    exists (e1 ++ e2). rewrite Ho2, Ho1, app_assoc, forallb_app, He1, He2. done.
  - destruct (pool !! i) as [[u | w] |]; by apply IH.
Qed.

End ReadOnly.

Section MalformedFilters.

Context `{L : Libraries} `{T : Tree}.

Lemma may_return_detectEncoding_malformed data src what v :
    empty src = false -> regex_icase ("^(" +:+ src +:+ ")$") = RegexError what ->
    may_return (detectEncoding data src) v -> v = "UNKNOWN".
  Proof.
    intros Hsrc Hre. unfold detectEncoding.
    destruct (uchardet data) as [| | [c |]]; simpl; try by intros [_ []].
    - rewrite Hsrc, Hre. simpl. destruct (String.eqb_spec c "UNKNOWN") as [-> | Hne]; simpl.
      + by intros <-.
      + by intros [_ []].
    - rewrite Hsrc. simpl. by intros <-.
  Qed.

Lemma read_only_convertFile_malformed p to src what :
    empty src = false -> regex_icase ("^(" +:+ src +:+ ")$") = RegexError what ->
    read_only (convertFile p to src).
  Proof.
    intros Hsrc Hre. unfold convertFile. simpl. split; [done |]. intros is_open.
    destruct (negb is_open); [by simpl |]. simpl. split; [done |]. intros [data | e];
      [| by simpl].
    cbn [bind].
    apply read_only_bind; [apply logs_only_read_only, logs_only_detectEncoding |].
    intros v Hv. rewrite (may_return_detectEncoding_malformed data src what v Hsrc Hre Hv).
    by simpl.
  Qed.

Lemma read_only_guardedConvertFile_malformed p to src what :
    empty src = false -> regex_icase ("^(" +:+ src +:+ ")$") = RegexError what ->
    read_only (guardedConvertFile p to src).
  Proof.
    intros Hsrc Hre. apply read_only_try_catch; [by eapply read_only_convertFile_malformed |].
    intros w. by simpl.
  Qed.

Lemma read_only_convertSingleFile_malformed path mapped src filter what :
    empty src = false -> regex_icase ("^(" +:+ src +:+ ")$") = RegexError what ->
    read_only (convertSingleFile path mapped src filter).
  Proof.
    intros Hsrc Hre. unfold convertSingleFile.
    apply read_only_bind; [apply logs_only_read_only, logs_only_shouldProcessFile |].
    intros [] _; [| by simpl].
    apply read_only_bind; [by simpl |]. intros _ _.
    by eapply read_only_guardedConvertFile_malformed.
  Qed.

Lemma read_only_convert_single_malformed path to src filter what :
    empty src = false -> regex_icase ("^(" +:+ src +:+ ")$") = RegexError what ->
    read_only (convert_single path to src filter).
  Proof.
    intros Hsrc Hre. unfold convert_single.
    apply read_only_bind; [apply logs_only_read_only, logs_only_checkTarget |].
    intros mapped _.
    apply read_only_bind; [apply logs_only_read_only, logs_only_is_directory |].
    intros [] _.
    - apply read_only_bind; [by simpl |]. intros _ _. unfold for_each_entry.
      apply read_only_bind; [| intros; apply logs_only_read_only, logs_only_walk_end].
      apply read_only_for_each. intros [p regular]. unfold convertEntry. simpl.
      destruct regular; [| by simpl].
      apply read_only_bind; [apply logs_only_read_only, logs_only_shouldProcessFile |].
      intros [] _; [| by simpl]. by eapply read_only_guardedConvertFile_malformed.
    - apply read_only_bind; [apply logs_only_read_only, logs_only_is_regular_file |].
      intros [] _; [| by simpl].
      by eapply read_only_convertSingleFile_malformed.
  Qed.

Lemma read_only_convert_malformed path to src filter what :
    empty src = false -> regex_icase ("^(" +:+ src +:+ ")$") = RegexError what ->
    read_only (convert path to src filter).
  Proof.
    intros Hsrc Hre. unfold convert.
    apply read_only_bind; [apply logs_only_read_only, logs_only_checkTarget |].
    intros mapped _.
    apply read_only_bind; [apply logs_only_read_only, logs_only_is_directory |].
    intros isdir _.
    apply read_only_bind.
    - destruct isdir.
      + apply read_only_bind; [by simpl |]. intros _ _. unfold for_each_entry_with.
        apply read_only_bind; [| intros; apply logs_only_read_only, logs_only_walk_end].
        apply read_only_for_each_with. intros [p regular] futures. unfold launchEntry. simpl.
        destruct regular; [| by simpl].
        apply read_only_bind; [apply logs_only_read_only, logs_only_shouldProcessFile |].
        intros [] _; [| by simpl]. cbn [read_only]. split; [| done].
        by eapply read_only_guardedConvertFile_malformed.
      + apply read_only_bind; [apply logs_only_read_only, logs_only_is_regular_file |].
        intros [] _; [| by simpl].
        apply read_only_bind; [| by simpl].
        by eapply read_only_convertSingleFile_malformed.
    - intros futures _. unfold joinAll. apply read_only_for_each. intros fut. simpl.
      intros [e |]; by simpl.
  Qed.

Lemma loop_lines_blocked filter what dir :
    empty filter = false ->
    regex_icase ("^.*\.(" +:+ filter +:+ ")$") = RegexError what ->
    loop_lines filter dir =
    ((fun p => (WARN, "Skipping non-regular file: " +:+ p)) <$> before_regular dir)
    ++ (if existsb snd dir
        then [(ERROR, "Invalid regex filter: " +:+ filter +:+ " | Error: " +:+ what)]
        else []).
  Proof.
    intros Hf Hre. induction dir as [| [p []] dir IH]; [done | |].
    - cbn [loop_lines before_regular existsb snd orb fmap list_fmap app].
      destruct (filter_lines_error (filename p) filter what Hf Hre) as (-> & -> & _).
      done.
    - cbn [loop_lines before_regular existsb snd orb fmap list_fmap app]. by rewrite IH.
  Qed.

  (** Under a file filter that does not compile nothing is ever launched,
      opened or changed. *)
Lemma blocked_run_touches_nothing path to src filter s schedule c' :
    filter_compiles filter = false ->
    interleave schedule (start (convert path to src filter) s) = Some c' ->
    tasks c' = [] /\ files (shared c') = files s /\ ops (shared c') = ops s.
  Proof.
    intros Hc Hrun.
    pose proof (interleave_launched _ s schedule c' (caller_convert path to src filter) Hrun)
      as Hle.
    rewrite length_launched in Hle.
    assert (H0 : launched path to filter = 0).
    { unfold launched, selected_paths. rewrite selected_blocked by done.
      by repeat match goal with |- context [if ?b then _ else _] => destruct b end. }
    split; [destruct (tasks c'); [done | simpl in Hle; lia] |].
    destruct (interleave_within _ _ s schedule c' (within_convert path to src filter) Hrun)
      as [(extra & Hops & Hall) Hfiles].
    split.
    - apply map_eq. intros file. apply Hfiles. intros q Hq.
      apply passes_filter_compiles in Hq. congruence.
    - destruct extra as [| o extra]; [by rewrite Hops, app_nil_r |].
      apply Forall_cons in Hall as [Ho _]. cbn beta in Ho.
      apply passes_filter_compiles in Ho. congruence.
  Qed.

  (** C4, amended.  A file filter whose pattern does not compile makes
      [shouldProcessFile] log the error and throw at the first regular file
      examined: when the root is a regular file, and when it is a directory
      whose walk yields a regular file, the run throws "Invalid regex
      filter" after the warnings for the entries that come before; nothing
      is thrown for a directory without regular files.  In every case no
      task is launched and no file is opened or changed, at any point of any
      schedule of [convert].
      A source-encoding filter whose pattern does not compile is only met
      inside [convertFile], after the file has been read and its encoding
      detected: the error is logged, thrown, caught at the job boundary and
      logged again, and the file is left as it was, only opened for reading
      and read.  The run does not abort: it returns normally, files are
      opened for reading, and no file is opened for writing or changed, at
      any point of any schedule of [convert]. *)
Theorem malformed_filter_patterns :
    (forall path to src filter what s,
        empty to = false -> empty filter = false ->
        regex_icase ("^.*\.(" +:+ filter +:+ ")$") = RegexError what ->
        (is_regular (status path) = true ->
         exec (convert_single path to src filter) s =
           (Raised (runtime_error ("Invalid regex filter: " +:+ filter)),
            add_log (ERROR, "Invalid regex filter: " +:+ filter +:+ " | Error: " +:+ what)
                    (after_checkTarget to s)) /\
         forall schedule c',
           interleave schedule (start (convert path to src filter) s) = Some c' ->
           tasks c' = [] /\ files (shared c') = files s /\ ops (shared c') = ops s /\
           (terminated c' = true ->
            c' = mkConfig (Throw (runtime_error ("Invalid regex filter: " +:+ filter))) []
                   (add_log (ERROR, "Invalid regex filter: " +:+ filter +:+ " | Error: "
                                    +:+ what) (after_checkTarget to s)))) /\
        (is_dir (status path) = true ->
         exec (convert_single path to src filter) s =
           (if existsb snd (walk path).1
            then Raised (runtime_error ("Invalid regex filter: " +:+ filter))
            else match (walk path).2 with
                 | Some what' => Raised (filesystem_error what')
                 | None => Returned tt
                 end,
            mkState (files s)
              (log (after_checkTarget to s)
               ++ (INFO, "Processing directory: " +:+ path)
               :: ((fun p => (WARN, "Skipping non-regular file: " +:+ p))
                     <$> before_regular (walk path).1)
               ++ (if existsb snd (walk path).1
                   then [(ERROR, "Invalid regex filter: " +:+ filter +:+ " | Error: "
                                 +:+ what)]
                   else []))
              (ops s)) /\
         forall schedule c',
           interleave schedule (start (convert path to src filter) s) = Some c' ->
           tasks c' = [] /\ files (shared c') = files s /\ ops (shared c') = ops s /\
           forall res,
             ended (main_thread c') = Some res ->
             (res, shared c') = exec (convert_single path to src filter) s)) /\
    (forall p to src what s file w detected,
        empty src = false -> regex_icase ("^(" +:+ src +:+ ")$") = RegexError what ->
        status p = Regular file true w ->
        uchardet (content s file) = Charset (Some detected) ->
        String.eqb detected "UNKNOWN" = false ->
        exec (convertFile p to src) s =
          (Raised (runtime_error ("Invalid regex filter: " +:+ src)),
           mkState (files s)
             (log s ++ [(ERROR, "Invalid regex filter: " +:+ src +:+ " | Error: " +:+ what)])
             (ops s ++ [OpenedForReading p; ReadFrom p])) /\
        exec (guardedConvertFile p to src) s =
          (Returned tt,
           mkState (files s)
             (log s ++ [(ERROR, "Invalid regex filter: " +:+ src +:+ " | Error: " +:+ what);
                        (ERROR, "Error converting " +:+ p +:+ ": "
                                +:+ "Invalid regex filter: " +:+ src)])
             (ops s ++ [OpenedForReading p; ReadFrom p]))) /\
    (forall path to src filter what s,
        empty src = false -> regex_icase ("^(" +:+ src +:+ ")$") = RegexError what ->
        (files (final (convert_single path to src filter) s) = files s /\
         exists extra,
           ops (final (convert_single path to src filter) s) = ops s ++ extra /\
           forallb is_read extra = true) /\
        (forall schedule c',
            interleave schedule (start (convert path to src filter) s) = Some c' ->
            files (shared c') = files s /\
            exists extra, ops (shared c') = ops s ++ extra /\ forallb is_read extra = true) /\
        (empty to = false -> filter_compiles filter = true ->
         is_dir (status path) = true /\ (walk path).2 = None \/
         is_regular (status path) = true ->
         outcome (convert_single path to src filter) s = Returned tt /\
         forall schedule c',
           interleave schedule (start (convert path to src filter) s) = Some c' ->
           (forall e, main_thread c' <> Throw e) /\
           (terminated c' = true -> main_thread c' = Ret tt) /\
           (is_dir (status path) = true -> main_thread c' = Ret tt ->
            forall q, q ∈ selected_paths path filter ->
                      OpenedForReading q ∈ ops (shared c')))).
  Proof.
    split; [| split].
    - intros path to src filter what s Hto Hf Hre.
      destruct (filter_lines_error (filename path) filter what Hf Hre) as (Hlines & Hc & _).
      split.
      + intros Hreg.
        assert (Hdir : is_dir (status path) = false) by (by destruct (status path)).
        assert (Hexec : exec (convert_single path to src filter) s =
                  (Raised (runtime_error ("Invalid regex filter: " +:+ filter)),
                   add_log (ERROR, "Invalid regex filter: " +:+ filter +:+ " | Error: "
                                   +:+ what) (after_checkTarget to s))).
        { rewrite exec_convert_single by done.
          destruct (status path) as [| what' | file r w | r | o rd w];
            try discriminate Hreg.
          unfold exec, convertSingleFile.
          by rewrite run_bind, run_shouldProcessFile, Hc, Hlines. }
        split; [exact Hexec |]. intros schedule c' Hrun.
        destruct (blocked_run_touches_nothing path to src filter s schedule c' Hc Hrun)
          as (Hts & Hfs & Hos).
        split; [done |]. split; [done |]. split; [done |]. intros Hterm.
        destruct (convert_without_task path to src filter s schedule c' (or_intror Hdir) Hrun)
          as [_ Hsame].
        apply andb_true_iff in Hterm as [Hmain _]. unfold is_ended in Hmain.
        destruct (ended (main_thread c')) as [res |] eqn:Hres; [| done].
        specialize (Hsame res eq_refl). rewrite Hexec in Hsame. injection Hsame as Hr Hsh.
        destruct c' as [m ts sh]. cbn in *. subst ts sh res.
        destruct m as [[] | e' | | |]; try discriminate Hres. by injection Hres as ->.
      + intros Hdir.
        assert (Hexec : exec (convert_single path to src filter) s =
                        (request_outcome path to filter, after_loop path to filter s)).
        { rewrite exec_convert_single by done. unfold request_outcome. rewrite Hto, Hc.
          destruct (status path) as [| what' | file r w | r | o rd w]; try discriminate Hdir.
          unfold exec, for_each_entry. rewrite run_bind, run_for_each_blocked by done.
          unfold after_loop. rewrite add_lines_cons. cbn [orb].
          destruct (existsb snd (walk path).1); [done |]. by rewrite run_walk_end. }
        assert (Hreq : request_outcome path to filter =
                       if existsb snd (walk path).1
                       then Raised (runtime_error ("Invalid regex filter: " +:+ filter))
                       else match (walk path).2 with
                            | Some what' => Raised (filesystem_error what')
                            | None => Returned tt
                            end).
        { unfold request_outcome. rewrite Hto, Hc.
          destruct (status path); try discriminate Hdir. cbn [orb].
          by destruct (existsb snd (walk path).1). }
        split.
        * rewrite Hexec, Hreq. f_equal. unfold after_loop, add_lines. cbn [files log ops].
          by rewrite (loop_lines_blocked filter what _ Hf Hre), files_after_checkTarget,
            ops_after_checkTarget.
        * intros schedule c' Hrun.
          destruct (blocked_run_touches_nothing path to src filter s schedule c' Hc Hrun)
            as (Hts & Hfs & Hos).
          split; [done |]. split; [done |]. split; [done |]. intros res Hend.
          destruct (interleave_ended _ s schedule c' res (caller_convert path to src filter)
                      Hrun Hend) as (Hres & _ & _ & Hsame).
          rewrite alone_convert_directory in Hres, Hsame by done.
          cbn [fst snd] in Hres, Hsame. by rewrite Hexec, (Hsame Hts), Hres.
    - intros p to src what s file w detected Hsrc Hre Hp Hu Hunk.
      assert (Hrun : run (convertFile p to src) s [] =
                (Raised (runtime_error ("Invalid regex filter: " +:+ src)),
                 mkState (files s)
                   (log s ++ [(ERROR, "Invalid regex filter: " +:+ src +:+ " | Error: "
                                      +:+ what)])
                   (ops s ++ [OpenedForReading p; ReadFrom p]), [])).
      { rewrite (run_convertFile_readable p to src s file w Hp).
        rewrite run_detectEncoding, Hu. cbn zeta. by rewrite Hsrc, Hunk, Hre. }
      unfold exec, guardedConvertFile. rewrite run_try_catch, Hrun. split; [done |].
      rewrite run_logMessage. unfold add_log. cbn. by rewrite <- app_assoc.
    - intros path to src filter what s Hsrc Hre. split; [| split].
      + apply (run_read_only _ (read_only_convert_single_malformed path to src filter what
                                  Hsrc Hre) s []).
      + intros schedule c' Hrun.
        apply (interleave_read_only _ s schedule c'
                 (read_only_convert_malformed path to src filter what Hsrc Hre) Hrun).
      + intros Hto Hc Hroot.
        assert (Hreq : request_outcome path to filter = Returned tt).
        { unfold request_outcome. rewrite Hto, Hc.
          destruct Hroot as [[Hdir ->] | Hreg]; destruct (status path); done. }
        split; [by rewrite outcome_convert_single |]. intros schedule c' Hrun.
        assert (Hno : forall e, main_thread c' <> Throw e).
        { apply (interleave_no_exception _ s schedule c'
                   (caller_convert path to src filter) Hrun).
          by rewrite alone_convert_outcome. }
        split; [exact Hno |]. split.
        * intros Hterm. apply andb_true_iff in Hterm as [Hmain _]. unfold is_ended in Hmain.
          destruct (main_thread c') as [[] | e | | |] eqn:Em; try done.
          by destruct (Hno e).
        * intros Hdir Hret q Hq.
          by destruct (convert_directory_returned path to src filter s schedule c'
                         Hto Hdir Hrun Hret) as [_ H]; apply H.
  Qed.

End MalformedFilters.

(** ** The reference engine on the patterns the class builds *)

Import ECMAScript.

Lemma append_cons c s t : String c s +:+ t = String c (s +:+ t).
Proof. reflexivity. Qed.

Lemma append_nil t : EmptyString +:+ t = t.
Proof. reflexivity. Qed.

Lemma parse_from_group_aux n :
  forall filter, String.length filter <= n ->
  forall cur inner r,
    parse_from filter cur inner = Parsed r ->
    forall rest outer stack,
      parse_from (filter +:+ String ")" rest) cur (inner ++ outer :: stack) =
      parse_from rest (push (Group r) outer) stack.
Proof.
  induction n as [| n IH]; intros filter Hlen cur inner r Hparse rest outer stack.
  - destruct filter; [| simpl in Hlen; lia]. rewrite append_nil. simpl in *.
    destruct inner; [| discriminate]. by injection Hparse as <-.
  - destruct filter as [| c filter].
    { rewrite append_nil. simpl in *. destruct inner; [| discriminate]. by injection Hparse as <-. }
    simpl in Hlen. rewrite append_cons. cbn [parse_from] in *.
    destruct (Ascii.eqb c "(").
    { destruct filter as [| d filter].
      - simpl in Hparse. discriminate.
      - rewrite append_cons. destruct (Ascii.eqb_spec d "?") as [-> | Hd].
        + discriminate.
        + assert (Hgo : forall X (a b : X), match d with "?"%char => a | _ => b end = b).
          { intros X a b. destruct d as [[] [] [] [] [] [] [] []]; try reflexivity.
            by destruct Hd. }
          rewrite Hgo in *. 
          apply (IH (String d filter) ltac:(simpl in *; lia) _ (cur :: inner) r Hparse). }
    destruct (Ascii.eqb c ")").
    { destruct inner as [| outer0 inner]; [discriminate |]. cbn [app].
      apply (IH filter ltac:(lia) _ inner r Hparse). }
    destruct (Ascii.eqb c "|"); [apply (IH filter ltac:(lia) _ inner r Hparse) |].
    destruct (Ascii.eqb c "*").
    { destruct (quantify Star cur); [| discriminate].
      apply (IH filter ltac:(lia) _ inner r Hparse). }
    destruct (Ascii.eqb c "+").
    { destruct (quantify Plus cur); [| discriminate].
      apply (IH filter ltac:(lia) _ inner r Hparse). }
    destruct (Ascii.eqb c "?").
    { destruct (quantify Opt cur); [| discriminate].
      apply (IH filter ltac:(lia) _ inner r Hparse). }
    destruct (Ascii.eqb c "^"); [apply (IH filter ltac:(lia) _ inner r Hparse) |].
    destruct (Ascii.eqb c "$"); [apply (IH filter ltac:(lia) _ inner r Hparse) |].
    destruct (Ascii.eqb c "."); [apply (IH filter ltac:(lia) _ inner r Hparse) |].
    destruct (Ascii.eqb c "\").
    { destruct filter as [| d filter]; [discriminate |]. rewrite append_cons.
      destruct (syntax_character d); [| discriminate].
      apply (IH filter ltac:(simpl in *; lia) _ inner r Hparse). }
    destruct (syntax_character c); [discriminate |].
    apply (IH filter ltac:(lia) _ inner r Hparse).
Qed.

(** The pattern [shouldProcessFile] builds around a filter that is itself a
    pattern of the fragment. *)
Lemma parse_filename_pattern filter r :
  parse filter = Parsed r ->
  parse ("^.*\.(" +:+ filter +:+ ")$") =
  Parsed (Cat LineStart (Cat (Star AnyChar) (Cat (Chr ".")
            (Cat (Group r) (Cat LineEnd Empty))))).
Proof.
  intros Hparse. unfold parse in *.
  rewrite !append_cons, append_nil.
  cbn [parse_from Ascii.eqb Bool.eqb quantify push fst snd quantifiable syntax_character
       existsb orb].
  assert (Hstart : forall X (a b : X),
             match filter +:+ ")$" with String "?"%char _ => a | _ => b end = b).
  { intros X a b. destruct filter as [| d filter]; [reflexivity |].
    rewrite append_cons. destruct (Ascii.eqb_spec d "?") as [-> | Hd].
    - simpl in Hparse. discriminate.
    - destruct d as [[] [] [] [] [] [] [] []]; try reflexivity. by destruct Hd. }
  rewrite Hstart.
  pose proof (parse_from_group_aux (String.length filter) filter (le_n _) ([], []) [] r
                Hparse "$" (push (Chr ".") ([], [Star AnyChar; LineStart])) []) as Hgroup.
  cbn [app] in Hgroup. rewrite Hgroup. reflexivity.
Qed.

Lemma repeat_matcher_ext round k k' :
  (forall k1 k2, (forall b s, k1 b s = k2 b s) -> forall b s, round k1 b s = round k2 b s) ->
  (forall b s, k b s = k' b s) ->
  forall n b s, repeat_matcher round k n b s = repeat_matcher round k' n b s.
Proof.
  intros Hround Hk. induction n as [| n IH]; intros b s; simpl; rewrite Hk; [done |].
  f_equal. apply Hround. intros b' s'. by rewrite IH.
Qed.

Lemma matcher_ext r :
  forall k k', (forall b s, k b s = k' b s) -> forall b s, matcher r k b s = matcher r k' b s.
Proof.
  induction r as [| c | | | | r1 IH1 r2 IH2 | r1 IH1 r2 IH2 | r IH | r IH | r IH | r IH];
    intros k k' Hk b s; cbn [matcher]; rewrite ?Hk; try done.
  - destruct s; [done |]. by rewrite Hk.
  - destruct s; [done |]. by rewrite Hk.
  - apply IH1. intros b' s'. by apply IH2.
  - by rewrite (IH1 k k' Hk), (IH2 k k' Hk).
  - by apply repeat_matcher_ext.
  - apply IH. intros b' s'. by apply repeat_matcher_ext.
  - by rewrite (IH k k' Hk).
  - by apply IH.
Qed.

Lemma star_any_char K :
  (forall b b' s, K b s = K b' s) ->
  forall s n b,
    String.length s < n ->
    repeat_matcher (matcher AnyChar) K n b s = true <->
    exists stem rest, s = stem +:+ rest /\ no_line_terminator stem = true /\ K false rest = true.
Proof.
  intros HK. induction s as [| x s IH]; intros n b Hn; (destruct n as [| n]; [simpl in Hn; lia |]).
  - simpl. rewrite orb_false_r. split.
    + intros H. exists EmptyString, EmptyString. by rewrite (HK false b).
    + intros (stem & rest & Hs & _ & Hk). destruct stem; [| discriminate].
      rewrite append_nil in Hs. subst rest. by rewrite (HK b false).
  - cbn [repeat_matcher matcher]. simpl in Hn.
    assert (Hlt : Nat.ltb (String.length s) (String.length (String x s)) = true)
      by (apply Nat.ltb_lt; simpl; lia).
    rewrite Hlt. cbn [andb]. rewrite orb_true_iff, andb_true_iff.
    rewrite (IH n false) by lia. split.
    + intros [Hk | [Hx (stem & rest & -> & Hstem & Hk)]].
      * exists EmptyString, (String x s). by rewrite (HK false b).
      * exists (String x stem), rest. rewrite append_cons. split; [done |].
        split; [| done]. unfold no_line_terminator in *. simpl. by rewrite Hx, Hstem.
    + intros (stem & rest & Hs & Hstem & Hk). destruct stem as [| y stem].
      * rewrite append_nil in Hs. subst rest. left. by rewrite (HK b false).
      * rewrite append_cons in Hs. injection Hs as <- ->. right.
        unfold no_line_terminator in *. simpl in Hstem.
        apply andb_true_iff in Hstem as [Hy Hstem]. split; [done |].
        by exists stem, rest.
Qed.

Lemma tolower_dot x : Ascii.eqb (tolower x) (tolower ".") = true <-> x = "."%char.
Proof.
  split; [| by intros ->].
  destruct x as [[] [] [] [] [] [] [] []]; vm_compute; congruence.
Qed.

(** What the pattern of [shouldProcessFile] accepts: a stem without line
    break, a dot, and an extension that the filter matches entirely. *)
Lemma matches_filename_pattern r name :
  matches name (Cat LineStart (Cat (Star AnyChar) (Cat (Chr ".")
                  (Cat (Group r) (Cat LineEnd Empty))))) = true <->
  exists stem ext,
    name = stem +:+ "." +:+ ext /\ no_line_terminator stem = true /\
    matches_inside ext r = true.
Proof.
  unfold matches. cbn [matcher andb].
  rewrite star_any_char; [| by intros b b' [| x s] | lia].
  split; intros (stem & rest & Hname & Hstem & Hk).
  - destruct rest as [| x ext]; [discriminate |].
    apply andb_true_iff in Hk as [Hx Hk]. apply tolower_dot in Hx as ->.
    exists stem, ext. split; [done |]. split; [done |].
    unfold matches_inside. rewrite <- Hk. apply matcher_ext.
    intros b s. by destruct (empty s).
  - exists stem, (String "." rest). split; [done |]. split; [done |].
    apply andb_true_iff. split; [done |].
    unfold matches_inside in Hk. rewrite <- Hk. apply matcher_ext.
    intros b s. by destruct (empty s).
Qed.

Lemma plain_char_tests c :
  syntax_character c = false ->
  Ascii.eqb c "(" = false /\ Ascii.eqb c ")" = false /\ Ascii.eqb c "|" = false /\
  Ascii.eqb c "*" = false /\ Ascii.eqb c "+" = false /\ Ascii.eqb c "?" = false /\
  Ascii.eqb c "^" = false /\ Ascii.eqb c "$" = false /\ Ascii.eqb c "." = false /\
  Ascii.eqb c "\" = false.
Proof.
  unfold syntax_character. cbn [existsb]. intros H.
  repeat (apply orb_false_iff in H as [? H]). by repeat split.
Qed.

Lemma parse_from_plain w :
  plain w = true ->
  forall rest alts terms stack,
    parse_from (w +:+ rest) (alts, terms) stack =
    parse_from rest (alts, rev (map Chr (list_ascii_of_string w)) ++ terms) stack.
Proof.
  induction w as [| c w IH]; intros Hw rest alts terms stack; [done |].
  unfold plain in *. simpl in Hw. apply andb_true_iff in Hw as [Hc Hw].
  apply negb_true_iff in Hc.
  destruct (plain_char_tests c Hc) as (H1 & H2 & H3 & H4 & H5 & H6 & H7 & H8 & H9 & H10).
  rewrite append_cons. cbn [parse_from].
  rewrite H1, H2, H3, H4, H5, H6, H7, H8, H9, H10, Hc.
  unfold push. cbn [fst snd]. rewrite (IH Hw). simpl. by rewrite <- app_assoc.
Qed.

Lemma fold_left_rev_Cat l :
  forall acc, fold_left (fun acc t => Cat t acc) (rev l) acc = fold_right Cat acc l.
Proof.
  induction l as [| t l IH]; intros acc; simpl; [done |].
  rewrite fold_left_app. simpl. by rewrite IH.
Qed.

Lemma sequence_literal w :
  sequence (rev (map Chr (list_ascii_of_string w))) = literal w.
Proof.
  unfold sequence. rewrite fold_left_rev_Cat.
  induction w as [| c w IH]; simpl; [done |]. by rewrite IH.
Qed.

Lemma append_empty w : w +:+ EmptyString = w.
Proof. induction w as [| c w IH]; [done |]. by rewrite append_cons, IH. Qed.

Lemma parse_from_alternatives ws :
  forall w alts,
    Forall (fun w => plain w = true) (w :: ws) ->
    parse_from (alternatives w ws) (alts, []) [] =
    Parsed (fold_left (fun acc a => Alt a acc) alts (any_of w ws)).
Proof.
  induction ws as [| w' ws IH]; intros w alts Hall; apply Forall_cons in Hall as [Hw Hall].
  - simpl. rewrite <- (append_empty w) at 1.
    rewrite (parse_from_plain w Hw). simpl. unfold close_frame. cbn [fst snd].
    by rewrite app_nil_r, sequence_literal.
  - cbn [alternatives any_of]. rewrite (parse_from_plain w Hw).
    rewrite append_cons, append_nil. cbn [parse_from Ascii.eqb Bool.eqb fst snd].
    rewrite app_nil_r, sequence_literal. rewrite (IH w' _ Hall). done.
Qed.

Lemma parse_alternatives w ws :
  Forall (fun w => plain w = true) (w :: ws) ->
  parse (alternatives w ws) = Parsed (any_of w ws).
Proof. intros H. unfold parse. by rewrite (parse_from_alternatives ws w [] H). Qed.

Lemma matches_inside_literal w :
  forall b ext,
    matcher (literal w) (fun _ rest => empty rest) b ext = true <->
    transform tolower ext = transform tolower w.
Proof.
  induction w as [| c w IH]; intros b ext; cbn [literal matcher].
  - rewrite empty_true. split; [by intros -> |]. by destruct ext.
  - destruct ext as [| x ext]; [by split |]. simpl.
    rewrite andb_true_iff, IH. split.
    + intros [Hx ->]. apply Ascii.eqb_eq in Hx. by rewrite Hx.
    + intros [= Hx ->]. split; [by apply Ascii.eqb_eq | done].
Qed.

Lemma matches_inside_any_of ws :
  forall w ext,
    matches_inside ext (any_of w ws) = true <->
    exists w', w' ∈ w :: ws /\ transform tolower ext = transform tolower w'.
Proof.
  unfold matches_inside. induction ws as [| w1 ws IH]; intros w ext; cbn [any_of matcher].
  - rewrite matches_inside_literal. split.
    + intros H. exists w. split; [apply list_elem_of_here | done].
    + intros (w' & Hin & H). apply list_elem_of_singleton in Hin as ->. done.
  - rewrite orb_true_iff, matches_inside_literal, IH. split.
    + intros [H | (w' & Hin & H)].
      * exists w. split; [apply list_elem_of_here | done].
      * exists w'. split; [by apply list_elem_of_further | done].
    + intros (w' & Hin & H). apply elem_of_cons in Hin as [-> | Hin]; [by left |].
      right. by exists w'.
Qed.

Lemma sample_engine_is_reference : ecmascript_engine sample_libraries.
Proof.
  intros pattern. simpl. unfold compile.
  destruct (parse pattern) as [r | |]; [by exists r | by eexists | done].
Qed.


Section FilenamePattern.

Context `{L : Libraries} `{T : Tree}.
Hypothesis engine : ecmascript_engine L.

Lemma exec_shouldProcessFile name filter R s :
    empty filter = false ->
    parse ("^.*\.(" +:+ filter +:+ ")$") = Parsed R ->
    exec (shouldProcessFile name filter) s =
    (Returned (matches name R),
     if matches name R then s
     else add_log (WARN, "File MisMatch: " +:+ name +:+ " does not match filter: "
                         +:+ filter) s).
  Proof.
    intros Hf Hparse. pose proof (engine ("^.*\.(" +:+ filter +:+ ")$")) as He.
    rewrite Hparse in He. destruct He as (re & Hre & Hmatch).
    unfold exec, shouldProcessFile. rewrite Hf, Hre, Hmatch.
    by destruct (matches name R).
  Qed.

Lemma outcome_shouldProcessFile name filter R s :
    empty filter = false ->
    parse ("^.*\.(" +:+ filter +:+ ")$") = Parsed R ->
    outcome (shouldProcessFile name filter) s = Returned (matches name R).
  Proof.
    intros Hf Hparse. unfold outcome. by rewrite (exec_shouldProcessFile name filter R).
  Qed.

  (** C5: [shouldProcessFile] on the names and filters of the examples, and
      where it departs from the rule they illustrate.  It lets every name
      through when the filter
      is empty, and with the filter ["txt|md"] it accepts ["a.txt"] and
      ["B.MD"] and rejects ["a.txt.bak"] and ["a.csv"], each with the "File
      MisMatch" warning.  But a name that ends with a dot and the extension
      is rejected when a line break comes before the dot: with the filter
      ["txt"] the name made of [a], a line feed and [b.txt] is rejected and
      the file is skipped.  And a filter can leave the group the pattern
      puts around it: the one written [txt], closing parenthesis, bar,
      opening parenthesis, [md] accepts the name ["md"], which has no dot,
      and rejects ["a.md"]. *)
Theorem shouldProcessFile_examples :
    (forall name s, exec (shouldProcessFile name EmptyString) s = (Returned true, s)) /\
    (forall s,
        exec (shouldProcessFile "a.txt" "txt|md") s = (Returned true, s) /\
        exec (shouldProcessFile "B.MD" "txt|md") s = (Returned true, s) /\
        exec (shouldProcessFile "a.txt.bak" "txt|md") s =
          (Returned false,
           add_log (WARN, "File MisMatch: a.txt.bak does not match filter: txt|md") s) /\
        exec (shouldProcessFile "a.csv" "txt|md") s =
          (Returned false,
           add_log (WARN, "File MisMatch: a.csv does not match filter: txt|md") s)) /\
    (forall s,
        exec (shouldProcessFile (String "a" (String "010" "b.txt")) "txt") s =
          (Returned false,
           add_log (WARN, "File MisMatch: " +:+ String "a" (String "010" "b.txt")
                          +:+ " does not match filter: txt") s)) /\
    (forall s,
        exec (shouldProcessFile "md" "txt)|(md") s = (Returned true, s) /\
        exec (shouldProcessFile "a.md" "txt)|(md") s =
          (Returned false,
           add_log (WARN, "File MisMatch: a.md does not match filter: txt)|(md") s)).
  Proof.
    split; [done |]. split; [| split].
    - intros s.
      assert (Hp : parse ("^.*\.(" +:+ "txt|md" +:+ ")$") =
                   Parsed (Cat LineStart (Cat (Star AnyChar) (Cat (Chr ".")
                     (Cat (Group (Alt (literal "txt") (literal "md")))
                        (Cat LineEnd Empty)))))) by reflexivity.
      repeat split; rewrite (exec_shouldProcessFile _ "txt|md" _ s eq_refl Hp); reflexivity.
    - intros s.
      assert (Hp : parse ("^.*\.(" +:+ "txt" +:+ ")$") =
                   Parsed (Cat LineStart (Cat (Star AnyChar) (Cat (Chr ".")
                     (Cat (Group (literal "txt")) (Cat LineEnd Empty))))))
        by reflexivity.
      rewrite (exec_shouldProcessFile _ "txt" _ s eq_refl Hp). reflexivity.
    - intros s.
      assert (Hp : parse ("^.*\.(" +:+ "txt)|(md" +:+ ")$") =
                   Parsed (Alt
                     (Cat LineStart (Cat (Star AnyChar) (Cat (Chr ".")
                        (Cat (Group (literal "txt")) Empty))))
                     (Cat (Group (literal "md")) (Cat LineEnd Empty))))
        by reflexivity.
      split; rewrite (exec_shouldProcessFile _ "txt)|(md" _ s eq_refl Hp); reflexivity.
  Qed.

  (** X20: what a file filter that stays inside its group accepts.  With a
      filter made of words without pattern syntax separated by bars,
      [shouldProcessFile] lets a name through exactly when the name is a
      stem without line terminator, a dot, and an extension equal to one of
      the words up to case; more generally, for a filter that is by itself a
      pattern of the fragment, when the extension is matched entirely by the
      filter. *)
Theorem shouldProcessFile_accepts :
    (forall w ws name s,
        Forall (fun w => plain w = true) (w :: ws) ->
        empty (alternatives w ws) = false ->
        exists accepted,
          outcome (shouldProcessFile name (alternatives w ws)) s = Returned accepted /\
          (accepted = true <->
           exists stem ext w',
             name = stem +:+ "." +:+ ext /\ no_line_terminator stem = true /\
             w' ∈ w :: ws /\ transform tolower ext = transform tolower w')) /\
    (forall filter r name s,
        empty filter = false -> parse filter = Parsed r ->
        exists accepted,
          outcome (shouldProcessFile name filter) s = Returned accepted /\
          (accepted = true <->
           exists stem ext,
             name = stem +:+ "." +:+ ext /\ no_line_terminator stem = true /\
             matches_inside ext r = true)).
  Proof.
    assert (Hgen : forall filter r name s,
               empty filter = false -> parse filter = Parsed r ->
               exists accepted,
                 outcome (shouldProcessFile name filter) s = Returned accepted /\
                 (accepted = true <->
                  exists stem ext,
                    name = stem +:+ "." +:+ ext /\ no_line_terminator stem = true /\
                    matches_inside ext r = true)).
    { intros filter r name s Hf Hparse. eexists. split.
      - apply outcome_shouldProcessFile; [done |]. by apply parse_filename_pattern.
      - apply matches_filename_pattern. }
    split; [| exact Hgen].
    intros w ws name s Hplain Hne.
    destruct (Hgen (alternatives w ws) (any_of w ws) name s Hne
                (parse_alternatives w ws Hplain)) as (accepted & Hout & Hiff).
    exists accepted. split; [done |]. rewrite Hiff. split.
    + intros (stem & ext & Hname & Hstem & Hm).
      apply matches_inside_any_of in Hm as (w' & Hin & Hw').
      by exists stem, ext, w'.
    + intros (stem & ext & w' & Hname & Hstem & Hin & Hw').
      exists stem, ext. split; [done |]. split; [done |].
      apply matches_inside_any_of. by exists w'.
  Qed.

End FilenamePattern.

(** ** The source-encoding filter *)

(** The pattern [detectEncoding] builds around a filter that is itself a
    pattern of the fragment. *)
Lemma parse_encoding_pattern filter r :
  parse filter = Parsed r ->
  parse ("^(" +:+ filter +:+ ")$") = Parsed (Cat LineStart (Cat (Group r) (Cat LineEnd Empty))).
Proof.
  intros Hparse. unfold parse in *.
  rewrite !append_cons, append_nil.
  cbn [parse_from Ascii.eqb Bool.eqb quantify push fst snd quantifiable syntax_character
       existsb orb].
  assert (Hstart : forall X (a b : X),
             match filter +:+ ")$" with String "?"%char _ => a | _ => b end = b).
  { intros X a b. destruct filter as [| d filter]; [reflexivity |].
    rewrite append_cons. destruct (Ascii.eqb_spec d "?") as [-> | Hd].
    - simpl in Hparse. discriminate.
    - destruct d as [[] [] [] [] [] [] [] []]; try reflexivity. by destruct Hd. }
  rewrite Hstart.
  pose proof (parse_from_group_aux (String.length filter) filter (le_n _) ([], []) [] r
                Hparse "$" ([], [LineStart]) []) as Hgroup.
  cbn [app] in Hgroup. unfold push at 1. cbn [fst snd]. rewrite Hgroup. reflexivity.
Qed.

(** What it accepts: the names the filter matches entirely. *)
Lemma matches_encoding_pattern r name :
  matches name (Cat LineStart (Cat (Group r) (Cat LineEnd Empty))) = matches name r.
Proof.
  unfold matches. cbn [matcher andb]. apply matcher_ext.
  intros b s. by destruct (empty s).
Qed.

Lemma matches_any_of ws :
  forall w name,
    matches name (any_of w ws) = true <->
    exists w', w' ∈ w :: ws /\ transform tolower name = transform tolower w'.
Proof.
  unfold matches. induction ws as [| w1 ws IH]; intros w name; cbn [any_of matcher].
  - rewrite matches_inside_literal. split.
    + intros H. exists w. split; [apply list_elem_of_here | done].
    + intros (w' & Hin & H). apply list_elem_of_singleton in Hin as ->. done.
  - rewrite orb_true_iff, matches_inside_literal, IH. split.
    + intros [H | (w' & Hin & H)].
      * exists w. split; [apply list_elem_of_here | done].
      * exists w'. split; [by apply list_elem_of_further | done].
    + intros (w' & Hin & H). apply elem_of_cons in Hin as [-> | Hin]; [by left |].
      right. by exists w'.
Qed.

Section EncodingPattern.

Context `{L : Libraries} `{T : Tree}.
Hypothesis engine : ecmascript_engine L.

Lemma exec_detectEncoding_filtered data filter r detected s :
    uchardet data = Charset (Some detected) ->
    String.eqb detected "UNKNOWN" = false ->
    empty filter = false ->
    parse filter = Parsed r ->
    exec (detectEncoding data filter) s =
    if matches detected r then (Returned detected, s)
    else (Returned "MISMATCH",
          add_log (WARN, "Detected encoding '" +:+ detected
                         +:+ "' does not match filter: '" +:+ filter +:+ "'.") s).
  Proof.
    intros Hu Hunk Hf Hparse.
    pose proof (engine ("^(" +:+ filter +:+ ")$")) as He.
    rewrite (parse_encoding_pattern filter r Hparse) in He.
    destruct He as (re & Hre & Hmatch).
    unfold exec. rewrite run_detectEncoding, Hu. cbn zeta.
    rewrite Hf, Hunk, Hre, Hmatch, matches_encoding_pattern. cbn [negb andb].
    by destruct (matches detected r).
  Qed.

  (** X15: the source-encoding filter of [detectEncoding].  No filter lets
      every detected name through.  A filter made of words separated by bars
      lets a name through exactly when it is one of the words up to case (the
      whole name, not a part of it); any other name is answered with
      "MISMATCH" and a warning.  More generally, a filter that is a pattern
      of the fragment must match the whole name. *)
Theorem detectEncoding_source_filter :
    (forall data detected s,
        uchardet data = Charset (Some detected) ->
        exec (detectEncoding data EmptyString) s = (Returned detected, s)) /\
    (forall data detected w ws s,
        uchardet data = Charset (Some detected) ->
        String.eqb detected "UNKNOWN" = false ->
        Forall (fun w => plain w = true) (w :: ws) ->
        empty (alternatives w ws) = false ->
        ((exists w', w' ∈ w :: ws /\ transform tolower detected = transform tolower w') ->
         exec (detectEncoding data (alternatives w ws)) s = (Returned detected, s)) /\
        (~ (exists w', w' ∈ w :: ws /\ transform tolower detected = transform tolower w') ->
         exec (detectEncoding data (alternatives w ws)) s =
         (Returned "MISMATCH",
          add_log (WARN, "Detected encoding '" +:+ detected +:+ "' does not match filter: '"
                         +:+ alternatives w ws +:+ "'.") s))) /\
    (forall data detected filter r s,
        uchardet data = Charset (Some detected) ->
        String.eqb detected "UNKNOWN" = false ->
        empty filter = false -> parse filter = Parsed r ->
        outcome (detectEncoding data filter) s =
        Returned (if matches detected r then detected else "MISMATCH")).
  Proof.
    split; [| split].
    - intros data detected s Hu. unfold exec. by rewrite run_detectEncoding, Hu.
    - intros data detected w ws s Hu Hunk Hplain Hne.
      rewrite (exec_detectEncoding_filtered data _ (any_of w ws) detected s Hu Hunk Hne
                 (parse_alternatives w ws Hplain)).
      destruct (matches detected (any_of w ws)) eqn:Hm.
      + split; [done |]. intros Hnot. destruct Hnot. by apply matches_any_of.
      + split; [| done]. intros Hex. apply matches_any_of in Hex. congruence.
    - intros data detected filter r s Hu Hunk Hf Hparse. unfold outcome.
      rewrite (exec_detectEncoding_filtered data filter r detected s Hu Hunk Hf Hparse).
      by destruct (matches detected r).
  Qed.

End EncodingPattern.

(** ** The transcoder and the name normalizer *)

Section ExtraNames.

Context `{L : Libraries} `{T : Tree}.

  (** X16: on an input shorter than 2^29 bytes the capacity computed in 32
      bits is four times the size plus one, without wrap-around;
      [convertEncoding] hands ICU the target name first, and either returns
      what ICU converted, leaving the environment as it was, or logs the ICU
      error name and throws it. *)
Theorem convertEncoding_in_range :
    forall input from to s,
      (Z.of_nat (String.length input) < 2 ^ 29)%Z ->
      exec (convertEncoding input from to) s =
      match ucnv_convert to from (4 * Z.of_nat (String.length input) + 1) input with
      | Converted output => (Returned output, s)
      | Failure errorName =>
          (Raised (runtime_error ("ICU conversion failed: " +:+ errorName)),
           add_log (ERROR, "ICU conversion failed: " +:+ errorName) s)
      end.
  Proof.
    intros input from to s Hlen. unfold exec.
    rewrite run_convertEncoding, (targetCapacity_in_range input Hlen).
    destruct (_ <? _)%Z eqn:Hneg; [apply Z.ltb_lt in Hneg; lia |].
    by destruct (ucnv_convert _ _ _ _).
  Qed.

  (** X17: [mapEncodingName] touches nothing but the log, and logs its one
      warning exactly for a name that is neither empty nor, up to case, an
      alias of the table. *)
Theorem mapEncodingName_warns_unknown_names :
    forall raw s,
      (final (mapEncodingName raw) s = s <->
       raw = EmptyString \/
       exists alias canonical,
         (alias, canonical) ∈ alias_table /\ transform tolower raw = alias) /\
      (final (mapEncodingName raw) s <> s ->
       final (mapEncodingName raw) s =
         add_log (WARN, "Unknown encoding name encountered: " +:+ raw) s).
  Proof.
    intros raw s. unfold final. rewrite exec_mapEncodingName. cbn [snd].
    unfold after_mapEncodingName. destruct (empty raw) eqn:Eraw.
    { apply empty_true in Eraw as ->. split; [| done]. split; [by left | done]. }
    destruct (lookup_alias (transform tolower raw) alias_table) as [canonical |] eqn:E.
    - split; [| done]. split; [| done]. intros _. right.
      exists (transform tolower raw), canonical. split; [| done].
      by apply lookup_alias_elem_of.
    - split; [| done]. split.
      + intros Hs. apply (f_equal (fun st => length (log st))) in Hs. simpl in Hs.
        rewrite length_app in Hs. simpl in Hs. lia.
      + intros [-> | (alias & canonical & Hin & Hlow)]; [discriminate Eraw |].
        apply alias_table_lookup in Hin as [Hfound _]. congruence.
  Qed.

End ExtraNames.

(** ** What is logged *)

Section Joined.

Context `{T : Tree}.

Lemma logs_satisfy_bind {A B : Type} Q (m : prog A) (f : A -> prog B) :
  logs_satisfy Q m -> (forall a, logs_satisfy Q (f a)) -> logs_satisfy Q (bind m f).
Proof.
  intros Hm Hf. induction m as [A a | A w | A X a k IH | A t IHt k IH | A i k IH];
    simpl in *; try done.
  - destruct Hm as [Ha Hk]. split; [done |]. intros x. by apply IH.
  - destruct Hm as [Ht Hk]. split; [done |]. intros i. by apply IH.
  - intros r. by apply IH.
Qed.

Lemma logs_satisfy_try_catch {A : Type} Q (m : prog A) (h : exn -> prog A) :
  logs_satisfy Q m -> (forall e, logs_satisfy Q (h e)) -> logs_satisfy Q (try_catch m h).
Proof.
  intros Hm Hh. induction m as [A a | A w | A X a k IH | A t IHt k IH | A i k IH];
    simpl in *; try done.
  - destruct Hm as [Ha Hk]. split; [done |]. intros x. by apply IH.
  - destruct Hm as [Ht Hk]. split; [done |]. intros i. by apply IH.
  - intros r. by apply IH.
Qed.

Lemma logs_satisfy_logMessage Q level message :
  Q (level, message) -> logs_satisfy Q (logMessage level message).
Proof. intros H. simpl. split; [by repeat constructor | done]. Qed.

Lemma prefix_append a b : String.prefix a (a +:+ b) = true.
Proof.
  induction a as [| c a IH]; [by destruct b |].
  rewrite append_cons. cbn [String.prefix].
  by destruct (ascii_dec c c).
Qed.

Lemma every_joined_bind {A B : Type} phi (m : prog A) (f : A -> prog B) :
  every_joined phi m -> (forall a, every_joined phi (f a)) -> every_joined phi (bind m f).
Proof.
  intros Hm Hf. induction m as [A a | A w | A X a k IH | A t IHt k IH | A i k IH];
    simpl in *; try done.
  - destruct Hm as [Ha Hk]. split; [done |]. intros x. by apply IH.
  - destruct Hm as [Ht Hk]. split; [done |]. intros i. by apply IH.
  - by apply IH.
Qed.

Lemma every_joined_thread_free {A : Type} phi p (m : prog A) :
  confined p m -> every phi m -> every_joined phi m.
Proof.
  induction m as [A a | A w | A X a k IH | A t IHt k IH | A i k IH]; simpl; try done.
  intros [_ Hc] [Ha Hk]. split; [done |]. intros x. by apply IH.
Qed.

Lemma every_joined_for_each_with {E S : Type} phi (l : list E) (body : E -> S -> prog S) s :
  (forall e s', every_joined phi (body e s')) -> every_joined phi (for_each_with l body s).
Proof.
  intros H. revert s. induction l as [| e l IH]; intros s; simpl; [done |].
  apply every_joined_bind; [apply H | apply IH].
Qed.

(** A relation between environments that every action in [phi] respects
    holds between the start and whatever an interleaving reaches, when the
    tasks catch whatever they throw. *)
Lemma interleave_every_joined (phi : forall X, action X -> Prop) (R : state -> state -> Prop) :
  (forall s, R s s) ->
  (forall s1 s2 s3, R s1 s2 -> R s2 s3 -> R s1 s3) ->
  (forall X (a : action X) s, phi X a -> R s (act a s).2) ->
  forall schedule c c',
    interleave schedule c = Some c' ->
    every_joined phi (main_thread c) ->
    Forall (fun t => every phi t /\ never_throws t) (tasks c) ->
    R (shared c) (shared c').
Proof.
  intros Hrefl Htrans Hact.
  induction schedule as [| who rest IH]; intros c c'; simpl.
  - intros [= <-] _ _. apply Hrefl.
  - destruct (step who c) as [c1 |] eqn:Es; [| done]. intros Hrest Hm Hts.
    assert (H1 : R (shared c) (shared c1) /\ every_joined phi (main_thread c1) /\
                 Forall (fun t => every phi t /\ never_throws t) (tasks c1)).
    { destruct c as [m ts s]. destruct who as [| j]; simpl in *.
      - destruct m as [v | w | X a k | t k | i k]; simpl in *; try done.
        + destruct (act a s) as [x s'] eqn:Ea. injection Es as <-. simpl.
          destruct Hm as [Ha Hk]. split; [| by split].
          replace s' with (act a s).2 by (by rewrite Ea). by apply Hact.
        + injection Es as <-. simpl. destruct Hm as [Ht Hk]. split; [apply Hrefl |].
          split; [done |]. apply Forall_app. split; [done |]. by constructor.
        + destruct (ts !! i) as [t' |] eqn:Ei; [| done].
          destruct (Forall_lookup_1 _ _ _ _ Hts Ei) as [_ Hnever].
          destruct (ended t') as [res |] eqn:Ee; [| done].
          destruct (ended_never_throws t' res Hnever Ee) as [_ ->].
          injection Es as <-. simpl. split; [apply Hrefl |]. by split.
      - destruct (ts !! j) as [t |] eqn:Ej; [| done].
        destruct (Forall_lookup_1 _ _ _ _ Hts Ej) as [Ht Hnever].
        destruct t as [v | w | X a k | t k | i k]; simpl in *; try done.
        destruct (act a s) as [x s'] eqn:Ea. injection Es as <-. simpl.
        destruct Ht as [Ha Hk]. split; [| split; [done |]].
        + replace s' with (act a s).2 by (by rewrite Ea). by apply Hact.
        + apply Forall_insert; [done |]. split; [apply Hk | apply Hnever]. }
    destruct H1 as (HR & Hm1 & Hts1). eapply Htrans; [exact HR |]. by apply (IH c1 c').
Qed.

End Joined.

Section ExtraLog.

Context `{L : Libraries} `{T : Tree}.

Lemma logs_convertFile p to src : logs_satisfy not_task_failure (convertFile p to src).
  Proof.
    unfold convertFile. simpl. split; [constructor |]. intros is_open.
    destruct (negb is_open); simpl; [by repeat constructor |].
    split; [constructor |]. intros [data | e]; [| done]. cbn [bind].
    apply logs_satisfy_bind.
    { unfold detectEncoding. destruct (uchardet data) as [| | c]; simpl;
        try (by repeat constructor).
      destruct (_ && _); [| done].
      destruct (regex_icase _) as [re | what]; simpl.
      - destruct (negb _); simpl; [| done]. split; [| done]. by repeat constructor.
      - split; [| done]. by repeat constructor. }
    intros detected. destruct (_ || _); [by repeat constructor |].
    apply logs_satisfy_bind.
    { unfold mapEncodingName. destruct (empty detected); [done |].
      repeat match goal with
             | |- logs_satisfy _ (if ?b then _ else _) => destruct b; [done |]
             end.
      simpl. split; [| done]. by repeat constructor. }
    intros mapped. destruct (empty mapped); [by repeat constructor |].
    apply logs_satisfy_bind.
    { apply logs_satisfy_try_catch.
      - unfold convertEncoding. destruct (_ <? _)%Z; [done |].
        destruct (ucnv_convert _ _ _ _); simpl; [done |].
        split; [| done]. by repeat constructor.
      - intros w. simpl. split; [| done]. by repeat constructor. }
    intros converted. simpl. split; [constructor |]. intros is_open'.
    destruct (negb is_open'); simpl.
    - split; [| done]. by repeat constructor.
    - split; [constructor |]. intros _. split; [| done]. by repeat constructor.
  Qed.

Lemma logs_mapEncodingName raw : logs_satisfy not_task_failure (mapEncodingName raw).
  Proof.
    unfold mapEncodingName. destruct (empty raw); [done |].
    repeat match goal with
           | |- logs_satisfy _ (if ?b then _ else _) => destruct b; [done |]
           end.
    simpl. split; [| done]. by repeat constructor.
  Qed.

Lemma logs_checkTarget to : logs_satisfy not_task_failure (checkTarget to).
  Proof.
    unfold checkTarget. apply logs_satisfy_bind; [apply logs_mapEncodingName |].
    intros mapped. apply logs_satisfy_bind; [| done].
    destruct (empty mapped); simpl; split; try done; by repeat constructor.
  Qed.

Lemma logs_shouldProcessFile name filter :
    logs_satisfy not_task_failure (shouldProcessFile name filter).
  Proof.
    unfold shouldProcessFile. destruct (empty filter); [done |].
    destruct (regex_icase _) as [re | what]; simpl.
    - destruct (negb _); simpl; [| done]. split; [| done]. by repeat constructor.
    - split; [| done]. by repeat constructor.
  Qed.

Lemma logs_guardedConvertFile p to src :
    logs_satisfy not_task_failure (guardedConvertFile p to src).
  Proof.
    apply logs_satisfy_try_catch; [apply logs_convertFile |].
    intros w. simpl. split; [| done]. by repeat constructor.
  Qed.

Lemma logs_convertSingleFile path mapped src filter :
    logs_satisfy not_task_failure (convertSingleFile path mapped src filter).
  Proof.
    unfold convertSingleFile. apply logs_satisfy_bind; [apply logs_shouldProcessFile |].
    intros []; simpl.
    - split; [by repeat constructor |]. intros _. apply logs_guardedConvertFile.
    - split; [by repeat constructor | done].
  Qed.

  (** The lines that [convert] and its tasks log, when no future throws. *)
Lemma logs_joined_convert path to src filter :
    every_joined (fun X a => Forall not_task_failure (logged a)) (convert path to src filter).
  Proof.
    unfold convert.
    apply every_joined_bind.
    { apply (every_joined_thread_free _ EmptyString);
        [apply logs_only_confined, logs_only_checkTarget |].
      apply logs_satisfy_every, logs_checkTarget. }
    intros mapped. apply every_joined_bind.
    { unfold is_directory. by destruct (status path). }
    intros isdir. apply every_joined_bind.
    - destruct isdir.
      + apply every_joined_bind; [simpl; split; [by repeat constructor | done] |].
        intros _. unfold for_each_entry_with. apply every_joined_bind.
        * apply every_joined_for_each_with. intros [p regular] futures.
          unfold launchEntry. cbn [fst snd]. destruct regular.
          -- apply every_joined_bind.
             { apply (every_joined_thread_free _ EmptyString);
                 [apply logs_only_confined, logs_only_shouldProcessFile |].
               apply logs_satisfy_every, logs_shouldProcessFile. }
             intros []; [| done]. cbn [every_joined]. split; [| done]. split.
             ++ apply logs_satisfy_every, logs_guardedConvertFile.
             ++ apply never_throws_guardedConvertFile.
          -- simpl. split; [by repeat constructor | done].
        * intros futures. unfold walk_end. by destruct (walk path).2.
      + apply every_joined_bind.
        { unfold is_regular_file. by destruct (status path). }
        intros [].
        * apply every_joined_bind; [| done].
          apply (every_joined_thread_free _ path); [apply confined_convertSingleFile |].
          apply logs_satisfy_every, logs_convertSingleFile.
        * simpl. split; [by repeat constructor | done].
    - intros futures. unfold joinAll.
      induction futures as [| fut futures IH]; simpl; [done | exact IH].
  Qed.

  (** X18: the report "Asynchronous task failed" of the last loop of
      [convert] is never written: a task catches whatever its file throws,
      so [future::get] never throws.  At every point of every interleaving,
      such a line is in the log only if it was there before the call. *)
Theorem join_never_reports_a_failed_task :
    forall path to src filter s schedule c' what,
      interleave schedule (start (convert path to src filter) s) = Some c' ->
      (ERROR, "Asynchronous task failed: " +:+ what) ∈ log (shared c') ->
      (ERROR, "Asynchronous task failed: " +:+ what) ∈ log s.
  Proof.
    intros path to src filter s schedule c' what Hrun Hin.
    assert (Hlog : exists extra, log (shared c') = log s ++ extra /\
                                 Forall not_task_failure extra).
    { apply (interleave_every_joined (fun X a => Forall not_task_failure (logged a))
               (fun s1 s2 => exists extra, log s2 = log s1 ++ extra /\
                                           Forall not_task_failure extra)
               ltac:(intros s0; exists []; by rewrite app_nil_r)
               ltac:(intros s1 s2 s3 (e1 & H1 & Ha1) (e2 & H2 & Ha2); exists (e1 ++ e2);
                     rewrite H2, H1, app_assoc; split; [done |]; by apply Forall_app)
               ltac:(intros X a s0 Ha; rewrite act_decompose; by exists (logged a))
               schedule (start (convert path to src filter) s) c' Hrun).
      - apply logs_joined_convert.
      - constructor. }
    destruct Hlog as (extra & Hlog & Hall).
    rewrite Hlog in Hin. apply elem_of_app in Hin as [Hin | Hin]; [done |].
    rewrite Forall_forall in Hall. specialize (Hall _ Hin eq_refl). cbn [snd] in Hall.
    rewrite prefix_append in Hall. discriminate Hall.
  Qed.

  (** X19: a root path that is a regular file whose name the file filter
      rejects is skipped with two warnings; nothing is opened. *)
Theorem single_file_filtered_out :
    forall path to src filter s,
      empty to = false ->
      is_regular (status path) = true ->
      filter_compiles filter = true ->
      passes_filter (filename path) filter = false ->
      exec (convert_single path to src filter) s =
      (Returned tt,
       add_log (WARN, "File does not match filter and will be skipped: " +:+ path)
         (add_log (WARN, "File MisMatch: " +:+ filename path +:+ " does not match filter: "
                         +:+ filter)
            (after_checkTarget to s))).
  Proof.
    intros path to src filter s Hto Hreg Hc Hpass.
    rewrite exec_convert_single by done.
    destruct (status path) as [| what | file r w | r | o rd w]; try discriminate Hreg.
    unfold exec, convertSingleFile.
    rewrite run_bind, run_shouldProcessFile, Hc, Hpass, run_logMessage.
    by rewrite filter_lines_mismatch.
  Qed.

End ExtraLog.

(** ** Statements that do not hold *)

(** C1 as stated fails: a target the alias table does not know, such as
    ["klingon"], is passed through; the run does not abort and files are
    opened. *)
Lemma unknown_target_not_aborted :
  ~ (forall (L : Libraries) (T : Tree) path to src filter fs,
        lookup_alias (transform tolower to) alias_table = None ->
        outcome (convert_single path to src filter) (fresh fs)
          = Raised (runtime_error ("Unsupported target encoding: " +:+ to)) /\
        ops (final (convert_single path to src filter) (fresh fs)) = []).
Proof.
  intros H.
  destruct (H sample_libraries sample_tree "docs" "klingon" EmptyString EmptyString
              sample_files eq_refl) as [Ho _].
  vm_compute in Ho. discriminate Ho.
Qed.

(** [convert] and [convert_single] do not always leave the same files: they
    do not on a directory two entries of which are one file. *)
Lemma aliased_entries_break_equivalence :
  ~ (forall (L : Libraries) (T : Tree) path to src filter fs schedule c',
        interleave schedule (start (convert path to src filter) (fresh fs)) = Some c' ->
        terminated c' = true ->
        files (shared c') = files (final (convert_single path to src filter) (fresh fs))).
Proof.
  intros H.
  destruct (@interleave sample_tree links_schedule
              (start (sample_convert "links" "utf-16le" EmptyString EmptyString)
                     (fresh sample_files))) as [c' |] eqn:E;
    [| vm_compute in E; discriminate E].
  assert (Hterm : terminated c' = true).
  { revert E. vm_compute. by intros [= <-]. }
  pose proof (H sample_libraries sample_tree "links" "utf-16le" EmptyString EmptyString
                sample_files links_schedule c' E Hterm) as Hf.
  apply (f_equal (fun fs => fs !! "links/one.txt")) in Hf.
  revert E Hf. vm_compute. intros [= <-] Hf. vm_compute in Hf. discriminate Hf.
Qed.

(** C4 as stated fails: with the malformed source-encoding filter ["("] the
    run is not aborted, and the files of the directory are opened and
    read. *)
Lemma malformed_source_filter_not_aborted :
  ~ (forall (L : Libraries) (T : Tree) path to src filter fs what,
        empty src = false -> regex_icase ("^(" +:+ src +:+ ")$") = RegexError what ->
        outcome (convert_single path to src filter) (fresh fs)
          = Raised (runtime_error ("Invalid regex filter: " +:+ src)) /\
        ops (final (convert_single path to src filter) (fresh fs)) = []).
Proof.
  intros H.
  destruct (H sample_libraries sample_tree "docs" "utf8" "(" EmptyString sample_files
              "regex_error" eq_refl eq_refl) as [Ho _].
  vm_compute in Ho. discriminate Ho.
Qed.

(** ** The theorems at work on the sample tree *)

#[local] Existing Instance sample_libraries.
#[local] Existing Instance sample_tree.

Lemma lookup_path_elem_of {A : Type} p (table : list (string * A)) a :
  lookup_path p table = Some a -> (p, a) ∈ table.
Proof.
  induction table as [| [q b] table IH]; simpl; [done |].
  destruct (String.eqb_spec p q) as [-> | Hne].
  - intros [= ->]. apply list_elem_of_here.
  - intros H. apply list_elem_of_further. by apply IH.
Qed.

(** In the sample tree a regular file has one name, but for the file of the
    directory [links]. *)
Lemma file_of_sample q file :
  file_of q = Some file -> file <> "links/one.txt" -> q = file.
Proof.
  unfold file_of. cbn [status sample_tree].
  destruct (lookup_path q sample_nodes) as [st |] eqn:E; [| discriminate].
  apply lookup_path_elem_of in E. unfold sample_nodes in E. cbn [default].
  repeat (apply elem_of_cons in E as [[= -> ->] | E];
          [first [discriminate | by intros [= <-]] |]).
  by apply elem_of_nil in E.
Qed.

(** C2: the two methods on a directory whose two entries [links/one.txt]
    and [links/two.txt] are one file (two hard links, or a file and a link
    to it) that holds [abc].  [convert_single] converts the file twice, the
    second time from what the first conversion wrote.  The two tasks of
    [convert] are not synchronised: under the schedule where both read the
    file before either writes it, the run ends with the file converted
    once.  The two methods do not leave the same files. *)
Theorem aliased_entries_race :
  files (final (convert_single "links" "utf-16le" EmptyString EmptyString)
               (fresh sample_files)) !! "links/one.txt" = Some (widen (widen "abc")) /\
  match interleave links_schedule
          (start (convert "links" "utf-16le" EmptyString EmptyString) (fresh sample_files)) with
  | Some c' =>
      terminated c' = true /\
      main_thread c' = Ret tt /\
      files (shared c') !! "links/one.txt" = Some (widen "abc")
  | None => False
  end.
Proof. vm_compute. repeat split; reflexivity. Qed.

Ltac separate_files :=
  match goal with
  | |- alias_free ?p ?f =>
      let l := eval vm_compute in (selected_paths p f) in change (separate l)
  end;
  cbn [separate]; repeat split; repeat constructor;
  intros file Hp Hq; vm_compute in Hp, Hq; congruence.

Lemma empty_target_aborts_witness :
  mkConfig (Throw (runtime_error "Unsupported target encoding: ")) []
    (mkState sample_files [(ERROR, "Unsupported target encoding: ")] []) =
  mkConfig (Throw (runtime_error "Unsupported target encoding: ")) []
    (mkState (files (fresh sample_files))
       (log (fresh sample_files) ++ [(ERROR, "Unsupported target encoding: ")])
       (ops (fresh sample_files))).
Proof.
  apply (proj2 (proj2 (proj2 (@empty_target_aborts sample_libraries sample_tree
                                "docs" EmptyString EmptyString (fresh sample_files)))) [0]).
  - reflexivity.
  - reflexivity.
Defined.

Lemma convert_equivalent_to_convert_single_witness :
  match interleave sample_schedule
          (start (convert "docs" "UTF-16LE" EmptyString EmptyString) (fresh sample_files)) with
  | Some c' =>
      ended (main_thread c')
        = Some (outcome (convert_single "docs" "UTF-16LE" EmptyString EmptyString)
                        (fresh sample_files)) /\
      files (shared c')
        = files (final (convert_single "docs" "UTF-16LE" EmptyString EmptyString)
                       (fresh sample_files)) /\
      Permutation (log (shared c'))
        (log (final (convert_single "docs" "UTF-16LE" EmptyString EmptyString)
                    (fresh sample_files))) /\
      Permutation (ops (shared c'))
        (ops (final (convert_single "docs" "UTF-16LE" EmptyString EmptyString)
                    (fresh sample_files)))
  | None => False
  end.
Proof.
  destruct (interleave sample_schedule
              (start (convert "docs" "UTF-16LE" EmptyString EmptyString)
                     (fresh sample_files))) as [c' |] eqn:E;
    [| vm_compute in E; discriminate E].
  apply (proj2 (proj2 (@convert_equivalent_to_convert_single sample_libraries sample_tree
                         "docs" "UTF-16LE" EmptyString EmptyString (fresh sample_files)
                         ltac:(intros _; separate_files)))
           sample_schedule c' E).
  revert E. vm_compute. intros [= <-]. reflexivity.
Defined.

(** On the directory [mixed] one file cannot be opened and one cannot be
    written: both failures are logged at the job boundary, the third file is
    converted, and the run returns. *)
Lemma file_failures_stay_in_their_job_witness :
  final (guardedConvertFile "mixed/secret.txt" "UTF-16LE" EmptyString) (fresh sample_files) =
    add_log (ERROR, "Error converting " +:+ "mixed/secret.txt" +:+ ": "
                    +:+ e_what (runtime_error "Failed to open file: mixed/secret.txt"))
      (final (convertFile "mixed/secret.txt" "UTF-16LE" EmptyString) (fresh sample_files)) /\
  outcome (convert_single "mixed" "utf-16le" EmptyString EmptyString) (fresh sample_files)
    = Returned tt /\
  match interleave mixed_schedule
          (start (convert "mixed" "utf-16le" EmptyString EmptyString) (fresh sample_files)) with
  | Some c =>
      tasks c = replicate (length (selected_paths "mixed" EmptyString)) (Ret tt) /\
      OpenedForReading "mixed/locked.txt" ∈ ops (shared c)
  | None => False
  end.
Proof.
  split; [| split].
  - apply (proj1 (@file_failures_stay_in_their_job sample_libraries sample_tree)
             "mixed/secret.txt" "UTF-16LE" EmptyString (fresh sample_files)).
    vm_compute. reflexivity.
  - apply (proj2 (proj2 (@file_failures_stay_in_their_job sample_libraries sample_tree))
             "mixed" "utf-16le" EmptyString EmptyString (fresh sample_files));
      vm_compute; reflexivity.
  - destruct (interleave mixed_schedule
                (start (convert "mixed" "utf-16le" EmptyString EmptyString)
                       (fresh sample_files))) as [c |] eqn:E;
      [| vm_compute in E; discriminate E].
    destruct (proj2 (proj2 (@file_failures_stay_in_their_job sample_libraries sample_tree))
                "mixed" "utf-16le" EmptyString EmptyString (fresh sample_files)
                eq_refl eq_refl eq_refl eq_refl) as (_ & _ & Hsched & _).
    destruct (Hsched mixed_schedule c E) as [_ Hret].
    destruct Hret as [Hts Hops].
    + revert E. vm_compute. by intros [= <-].
    + split; [exact Hts |]. apply Hops. vm_compute.
      apply list_elem_of_further, list_elem_of_further, list_elem_of_here.
Defined.

(** With the file filter ["("] the run on [docs] throws at its first file;
    with the source filter ["("] the job on a file logs the error twice and
    returns. *)
Lemma malformed_filter_patterns_witness :
  exec (convert_single "docs" "utf8" EmptyString "(") (fresh sample_files) =
    (Raised (runtime_error "Invalid regex filter: ("),
     mkState sample_files
       [(INFO, "Target Encoding Mapped: UTF-8"); (INFO, "Processing directory: docs");
        (ERROR, "Invalid regex filter: ( | Error: regex_error")] []) /\
  exec (guardedConvertFile "docs/a.txt" "UTF-8" "(") (fresh sample_files) =
    (Returned tt,
     mkState sample_files
       [(ERROR, "Invalid regex filter: ( | Error: regex_error");
        (ERROR, "Error converting docs/a.txt: Invalid regex filter: (")]
       [OpenedForReading "docs/a.txt"; ReadFrom "docs/a.txt"]).
Proof.
  split.
  - etransitivity.
    + apply (proj1 (@malformed_filter_patterns sample_libraries sample_tree)
               "docs" "utf8" EmptyString "(" "regex_error" (fresh sample_files));
        reflexivity.
    + vm_compute. reflexivity.
  - etransitivity.
    + apply (proj1 (proj2 (@malformed_filter_patterns sample_libraries sample_tree))
               "docs/a.txt" "UTF-8" "(" "regex_error" (fresh sample_files)
               "docs/a.txt" true "ASCII"); reflexivity.
    + vm_compute. reflexivity.
Defined.

Lemma shouldProcessFile_examples_witness :
  exec (shouldProcessFile (String "a" (String "010" "b.txt")) "txt") (fresh sample_files) =
  (Returned false,
   add_log (WARN, "File MisMatch: " +:+ String "a" (String "010" "b.txt")
                  +:+ " does not match filter: txt") (fresh sample_files)).
Proof.
  apply (proj1 (proj2 (proj2 (@shouldProcessFile_examples sample_libraries sample_tree
                                sample_engine_is_reference)))
           (fresh sample_files)).
Defined.

(** ["UtF8"] lower-cases to the alias ["utf8"]. *)
Lemma mapEncodingName_alias_table_witness :
  outcome (mapEncodingName "UtF8") (fresh ∅) = Returned "UTF-8".
Proof.
  apply (proj1 (proj2 (@mapEncodingName_alias_table sample_tree))
           "utf8" "UTF-8" "UtF8" (fresh ∅)).
  - unfold alias_table. apply list_elem_of_here.
  - reflexivity.
Defined.

(** In the sample tree the file [docs/b.md] has no other name. *)
Lemma filtered_out_file_never_opened_witness :
  files (final (convert_single "docs" "utf8" EmptyString "txt") (fresh sample_files))
    !! "docs/b.md" = files (fresh sample_files) !! "docs/b.md" /\
  (WARN, "File MisMatch: " +:+ filename "docs/b.md" +:+ " does not match filter: " +:+ "txt")
    ∈ log (final (convert_single "docs" "utf8" EmptyString "txt") (fresh sample_files)).
Proof.
  destruct (@filtered_out_file_never_opened sample_libraries sample_tree
              "docs" "utf8" EmptyString "txt" (fresh sample_files) "docs/b.md")
    as ((_ & Hfiles) & _ & Hlog).
  - vm_compute. reflexivity.
  - split.
    + apply Hfiles; [reflexivity |]. intros q Hq Hfile.
      apply file_of_sample in Hfile as ->; [| discriminate]. vm_compute in Hq.
      discriminate Hq.
    + apply Hlog.
      * reflexivity.
      * vm_compute. reflexivity.
      * left. split; [vm_compute; reflexivity |].
        vm_compute. apply list_elem_of_further, list_elem_of_here.
Defined.

Lemma convertFile_writes_after_transcoding_witness :
  exec (convertFile "empty.txt" "UTF-8" "(") (fresh sample_files) =
  (Returned tt,
   mkState (files (fresh sample_files))
     (log (fresh sample_files)
      ++ [(WARN, "Skipping file due to encoding issues: " +:+ "empty.txt")])
     (ops (fresh sample_files) ++ [OpenedForReading "empty.txt"; ReadFrom "empty.txt"])).
Proof.
  apply (proj1 (proj1 (@convertFile_writes_after_transcoding sample_libraries sample_tree
                         "empty.txt" "UTF-8" "(" (fresh sample_files))
                  "empty.txt" true eq_refl)).
  vm_compute. reflexivity.
Defined.

Lemma unsupported_target_iff_empty_witness :
  ended (Throw (runtime_error "Unsupported target encoding: "))
    = Some (Raised (runtime_error ("Unsupported target encoding: " +:+ EmptyString))) <->
  EmptyString = EmptyString.
Proof.
  apply (proj2 (proj2 (proj2 (@unsupported_target_iff_empty sample_libraries sample_tree)))
           "docs" EmptyString EmptyString EmptyString (fresh sample_files) [0]
           (mkConfig (Throw (runtime_error "Unsupported target encoding: ")) []
              (mkState sample_files [(ERROR, "Unsupported target encoding: ")] []))).
  - reflexivity.
  - reflexivity.
Defined.

Lemma convertFile_converts_witness :
  exec (convertFile "docs/a.txt" "UTF-16LE" "ascii|utf-8") (fresh sample_files) =
  (Returned tt,
   mkState (<["docs/a.txt" := widen "hello"]> sample_files)
     [(INFO, "docs/a.txt | ASCII -> UTF-16LE")]
     [OpenedForReading "docs/a.txt"; ReadFrom "docs/a.txt";
      OpenedForWriting "docs/a.txt"; WrittenTo "docs/a.txt"]).
Proof.
  etransitivity.
  - apply (@convertFile_converts sample_libraries sample_tree "docs/a.txt" "UTF-16LE"
             "ascii|utf-8" (fresh sample_files) "docs/a.txt" "ASCII" (widen "hello"));
      solve [reflexivity | vm_compute; reflexivity].
  - vm_compute; reflexivity.
Defined.

(** Nothing is at [docs/missing.txt]; [docs] is a directory. *)
Lemma convertFile_cannot_open_witness :
  exec (convertFile "docs/missing.txt" "UTF-8" EmptyString) (fresh sample_files) =
    (Raised (runtime_error "Failed to open file: docs/missing.txt"),
     mkState sample_files [(ERROR, "Failed to open file: docs/missing.txt")]
       [OpenedForReading "docs/missing.txt"]) /\
  exec (guardedConvertFile "docs" "UTF-8" EmptyString) (fresh sample_files) =
    (Returned tt,
     mkState sample_files
       [(ERROR, "Error converting docs: basic_filebuf::underflow error reading the file: "
                +:+ "Is a directory")]
       [OpenedForReading "docs"; ReadFrom "docs"]).
Proof.
  split.
  - etransitivity.
    + apply (proj1 (@convertFile_cannot_open sample_libraries sample_tree
                      "docs/missing.txt" "UTF-8" EmptyString (fresh sample_files))).
      vm_compute; reflexivity.
    + vm_compute; reflexivity.
  - etransitivity.
    + apply (proj2 (@convertFile_cannot_open sample_libraries sample_tree
                      "docs" "UTF-8" EmptyString (fresh sample_files))).
      vm_compute; reflexivity.
    + vm_compute; reflexivity.
Defined.

Lemma convertFile_skips_undetected_witness :
  exec (convertFile "empty.txt" "UTF-8" "(") (fresh sample_files) =
  (Returned tt,
   mkState sample_files
     [(WARN, "Skipping file due to encoding issues: empty.txt")]
     [OpenedForReading "empty.txt"; ReadFrom "empty.txt"]).
Proof.
  etransitivity.
  - apply (@convertFile_skips_undetected sample_libraries sample_tree "empty.txt" "UTF-8" "("
             (fresh sample_files) "empty.txt" true);
      vm_compute; reflexivity.
  - vm_compute; reflexivity.
Defined.

Lemma guardedConvertFile_detector_failure_witness :
  exec (@guardedConvertFile broken_detector "docs/a.txt" "UTF-8" EmptyString)
       (fresh sample_files) =
  (Returned tt,
   mkState sample_files
     [(ERROR, "Failed to handle data with uchardet.");
      (ERROR, "Error converting docs/a.txt: Failed to handle data with uchardet.")]
     [OpenedForReading "docs/a.txt"; ReadFrom "docs/a.txt"]).
Proof.
  etransitivity.
  - apply (@guardedConvertFile_detector_failure broken_detector sample_tree "docs/a.txt"
             "UTF-8" EmptyString (fresh sample_files) "docs/a.txt" true
             "Failed to handle data with uchardet.").
    + vm_compute; reflexivity.
    + right. split; reflexivity.
  - vm_compute; reflexivity.
Defined.

Lemma convertFile_transcoding_failure_witness :
  exec (convertFile "docs/a.txt" "GBK" EmptyString) (fresh sample_files) =
  (Raised (runtime_error "ICU conversion failed: U_FILE_ACCESS_ERROR"),
   mkState sample_files
     [(ERROR, "ICU conversion failed: U_FILE_ACCESS_ERROR");
      (ERROR, "Conversion failed for file: docs/a.txt | Error: ICU conversion failed: U_FILE_ACCESS_ERROR")]
     [OpenedForReading "docs/a.txt"; ReadFrom "docs/a.txt"]).
Proof.
  etransitivity.
  - apply (@convertFile_transcoding_failure sample_libraries sample_tree "docs/a.txt" "GBK"
             EmptyString (fresh sample_files) "docs/a.txt" true "ASCII"
             "U_FILE_ACCESS_ERROR");
      solve [reflexivity | vm_compute; reflexivity].
  - vm_compute; reflexivity.
Defined.

Lemma convertFile_cannot_write_witness :
  exec (convertFile "mixed/locked.txt" "UTF-16LE" EmptyString) (fresh sample_files) =
  (Raised (runtime_error "Failed to open file for writing: mixed/locked.txt"),
   mkState sample_files
     [(ERROR, "Failed to open file for writing: mixed/locked.txt")]
     [OpenedForReading "mixed/locked.txt"; ReadFrom "mixed/locked.txt";
      OpenedForWriting "mixed/locked.txt"]).
Proof.
  etransitivity.
  - apply (@convertFile_cannot_write sample_libraries sample_tree "mixed/locked.txt"
             "UTF-16LE" EmptyString (fresh sample_files) "mixed/locked.txt" "ASCII"
             (widen "hi"));
      solve [reflexivity | vm_compute; reflexivity].
  - vm_compute; reflexivity.
Defined.

Lemma convertFile_skips_mismatch_witness :
  exec (convertFile "docs/a.txt" "UTF-16LE" "gbk|big5") (fresh sample_files) =
  (Returned tt,
   mkState sample_files
     [(WARN, "Detected encoding 'ASCII' does not match filter: 'gbk|big5'.");
      (WARN, "Skipping file due to encoding issues: docs/a.txt")]
     [OpenedForReading "docs/a.txt"; ReadFrom "docs/a.txt"]).
Proof.
  etransitivity.
  - eapply (@convertFile_skips_mismatch sample_libraries sample_tree "docs/a.txt" "UTF-16LE"
              "gbk|big5" (fresh sample_files) "docs/a.txt" true "ASCII");
      solve [reflexivity | vm_compute; reflexivity].
  - vm_compute; reflexivity.
Defined.

Lemma convertFile_skips_empty_name_witness :
  exec (convertFile "binary.dat" "UTF-8" EmptyString) (fresh sample_files) =
  (Returned tt,
   mkState sample_files
     [(WARN, "Unsupported detected encoding '' for file: binary.dat")]
     [OpenedForReading "binary.dat"; ReadFrom "binary.dat"]).
Proof.
  etransitivity.
  - apply (@convertFile_skips_empty_name sample_libraries sample_tree "binary.dat" "UTF-8"
             EmptyString (fresh sample_files) "binary.dat" true);
      vm_compute; reflexivity.
  - vm_compute; reflexivity.
Defined.

(** A socket is not a valid root; the status of [far/away] cannot be
    read. *)
Lemma invalid_path_aborts_witness :
  exec (convert_single "docs/socket" "utf8" EmptyString "(") (fresh sample_files) =
    (Raised (runtime_error ("Invalid path: " +:+ "docs/socket")),
     add_log (ERROR, "Invalid path: " +:+ "docs/socket")
             (after_checkTarget "utf8" (fresh sample_files))) /\
  exec (convert_single "far/away" "utf8" EmptyString EmptyString) (fresh sample_files) =
    (Raised (filesystem_error "filesystem error: status: Permission denied [far/away]"),
     after_checkTarget "utf8" (fresh sample_files)).
Proof.
  split.
  - apply (proj1 (@invalid_path_aborts sample_libraries sample_tree "docs/socket" "utf8"
                    EmptyString "(" (fresh sample_files) eq_refl));
      [vm_compute; reflexivity | vm_compute; reflexivity |].
    intros what. vm_compute. discriminate.
  - apply (proj2 (@invalid_path_aborts sample_libraries sample_tree "far/away" "utf8"
                    EmptyString EmptyString (fresh sample_files) eq_refl)
             "filesystem error: status: Permission denied [far/away]").
    vm_compute. reflexivity.
Defined.

Lemma single_file_run_witness :
  exec (convert_single "docs/a.txt" "utf16le" EmptyString "txt") (fresh sample_files) =
  exec (guardedConvertFile "docs/a.txt" (normalize "utf16le") EmptyString)
       (add_log (INFO, "Processing single file: " +:+ "docs/a.txt")
                (after_checkTarget "utf16le" (fresh sample_files))).
Proof.
  apply (@single_file_run sample_libraries sample_tree "docs/a.txt" "utf16le" EmptyString
           "txt" (fresh sample_files)); vm_compute; reflexivity.
Defined.

(** The root is written [docs/], with its separator. *)
Lemma one_task_per_selected_file_witness :
  match interleave sample_schedule
          (start (convert "docs/" "UTF-16LE" EmptyString EmptyString) (fresh sample_files)) with
  | Some c' => tasks c' = replicate (launched "docs/" "UTF-16LE" EmptyString) (Ret tt)
  | None => False
  end.
Proof.
  destruct (interleave sample_schedule
              (start (convert "docs/" "UTF-16LE" EmptyString EmptyString)
                     (fresh sample_files))) as [c' |] eqn:E;
    [| vm_compute in E; discriminate E].
  apply (@one_task_per_selected_file sample_libraries sample_tree
           "docs/" "UTF-16LE" EmptyString EmptyString (fresh sample_files)
           sample_schedule c' E).
  revert E. vm_compute. intros [= <-]. reflexivity.
Defined.

Lemma directory_run_touches_selected_only_witness :
  files (final (convert_single "docs" "utf16le" EmptyString "txt") (fresh sample_files))
    !! "docs/b.md" = files (fresh sample_files) !! "docs/b.md".
Proof.
  apply (proj1 (@directory_run_touches_selected_only sample_libraries sample_tree
                  "docs" "utf16le" EmptyString "txt" (fresh sample_files) eq_refl)).
  intros q Hq. vm_compute in Hq. apply list_elem_of_singleton in Hq as ->.
  vm_compute. discriminate.
Defined.

Lemma selected_file_fares_as_alone_witness :
  files (final (convert_single "docs" "utf16le" EmptyString "txt") (fresh sample_files))
    !! "docs/a.txt" =
  files (final (guardedConvertFile "docs/a.txt" (normalize "utf16le") EmptyString)
               (fresh (files (fresh sample_files)))) !! "docs/a.txt".
Proof.
  apply (proj1 (proj1 (@selected_file_fares_as_alone sample_libraries sample_tree
                         "docs" "utf16le" EmptyString "txt" (fresh sample_files) "docs/a.txt"
                         eq_refl eq_refl ltac:(separate_files)
                         ltac:(vm_compute; apply list_elem_of_here)))).
  vm_compute. reflexivity.
Defined.

(** The walk of [vault] reports a directory and then fails on it. *)
Lemma non_regular_entries_reported_witness :
  (WARN, "Skipping non-regular file: " +:+ "vault/closed")
    ∈ log (final (convert_single "vault" "utf8" EmptyString "txt") (fresh sample_files)).
Proof.
  apply (@non_regular_entries_reported sample_libraries sample_tree
           "vault" "utf8" EmptyString "txt" (fresh sample_files) "vault/closed");
    try (vm_compute; reflexivity).
  vm_compute. apply list_elem_of_further, list_elem_of_here.
Defined.

Lemma detectEncoding_source_filter_witness :
  exec (detectEncoding "hello" (alternatives "utf-8" ["ascii"]))
       (fresh sample_files) = (Returned "ASCII", fresh sample_files) /\
  outcome (detectEncoding "hello" "utf.*|ascii") (fresh sample_files) = Returned "ASCII".
Proof.
  split.
  - apply (proj1 (proj2 (@detectEncoding_source_filter sample_libraries sample_tree
                           sample_engine_is_reference)) "hello" "ASCII" "utf-8" ["ascii"]
             (fresh sample_files)); try reflexivity.
    + repeat constructor.
    + exists "ascii". split; [| reflexivity]. apply list_elem_of_further, list_elem_of_here.
  - etransitivity.
    + apply (proj2 (proj2 (@detectEncoding_source_filter sample_libraries sample_tree
                             sample_engine_is_reference)) "hello" "ASCII" "utf.*|ascii"
               (Alt (Cat (Chr "u") (Cat (Chr "t") (Cat (Chr "f") (Cat (Star AnyChar) Empty))))
                    (literal "ascii"))
               (fresh sample_files)); reflexivity.
    + reflexivity.
Defined.

Lemma convertEncoding_in_range_witness :
  exec (convertEncoding "hello" "ASCII" "UTF-16LE") (fresh sample_files) =
  (Returned (widen "hello"), fresh sample_files).
Proof.
  etransitivity.
  - apply (@convertEncoding_in_range sample_libraries sample_tree "hello" "ASCII" "UTF-16LE"
             (fresh sample_files)). vm_compute. reflexivity.
  - vm_compute. reflexivity.
Defined.

Lemma join_never_reports_a_failed_task_witness :
  match interleave mixed_schedule
          (start (convert "mixed" "utf-16le" EmptyString EmptyString)
                 (mkState sample_files [(ERROR, "Asynchronous task failed: " +:+ "old")] []))
  with
  | Some c' =>
      (ERROR, "Asynchronous task failed: " +:+ "old") ∈ log (shared c') /\
      (ERROR, "Asynchronous task failed: " +:+ "old")
        ∈ [(ERROR, "Asynchronous task failed: " +:+ "old")]
  | None => False
  end.
Proof.
  destruct (interleave mixed_schedule
              (start (convert "mixed" "utf-16le" EmptyString EmptyString)
                 (mkState sample_files [(ERROR, "Asynchronous task failed: " +:+ "old")] [])))
    as [c' |] eqn:E; [| vm_compute in E; discriminate E].
  assert (Hin : (ERROR, "Asynchronous task failed: " +:+ "old") ∈ log (shared c')).
  { revert E. vm_compute. intros [= <-]. apply list_elem_of_here. }
  split; [exact Hin |].
  apply (@join_never_reports_a_failed_task sample_libraries sample_tree
           "mixed" "utf-16le" EmptyString EmptyString
           (mkState sample_files [(ERROR, "Asynchronous task failed: " +:+ "old")] [])
           mixed_schedule c' "old" E Hin).
Defined.

Lemma single_file_filtered_out_witness :
  exec (convert_single "docs/b.md" "utf8" EmptyString "txt") (fresh sample_files) =
  (Returned tt,
   add_log (WARN, "File does not match filter and will be skipped: " +:+ "docs/b.md")
     (add_log (WARN, "File MisMatch: " +:+ filename "docs/b.md" +:+ " does not match filter: "
                     +:+ "txt")
        (after_checkTarget "utf8" (fresh sample_files)))).
Proof.
  apply (@single_file_filtered_out sample_libraries sample_tree "docs/b.md" "utf8"
           EmptyString "txt" (fresh sample_files)); vm_compute; reflexivity.
Defined.

Lemma shouldProcessFile_accepts_witness :
  exists accepted,
    outcome (shouldProcessFile "report.TXT" (alternatives "txt" ["md"]))
            (fresh sample_files) = Returned accepted /\
    (accepted = true <->
     exists stem ext w',
       "report.TXT" = stem +:+ "." +:+ ext /\ no_line_terminator stem = true /\
       w' ∈ ["txt"; "md"] /\ transform tolower ext = transform tolower w').
Proof.
  apply (proj1 (@shouldProcessFile_accepts sample_libraries sample_tree
                  sample_engine_is_reference)
           "txt" ["md"] "report.TXT" (fresh sample_files)).
  - repeat constructor.
  - reflexivity.
Defined.
